(** * msgtrace.sdk.events: span events and real-time event streaming

    A shallow embedding of [src/msgtrace/sdk/events.py]: the dual-emission
    sink [add_event], the scoped channel slot [_event_queue] and the
    [EventStream] context manager with its drain loop, callbacks and
    snapshot accessor.

    Python objects that are shared and mutated (the [asyncio.Queue] of a
    stream, the stream object itself, the current span) live in an explicit
    store, the [World]; functions of the module are computations in a state
    and exception monad over that store. *)

From Stdlib Require Import ZArith NArith Ascii String List Lia.
From Stdlib Require DecimalString.
From stdpp Require Import gmap strings list.
From Equations Require Import Equations.

Local Open Scope string_scope.
Local Open Scope list_scope.

(** ** Python values carried by event attributes *)

(** The attribute values an event can carry: [None], [bool], [int], [str],
    [list], [dict] with string keys (insertion ordered, as Python dicts are),
    and [VObj], any other object (a [set], [bytes], an instance of a user
    class) named by its type.  Strings are sequences of code points below
    256; floats and tuples are left out. *)
#[warnings="-register-all"]
Inductive value : Type :=
  | VNone
  | VBool (b : bool)
  | VInt (z : Z)
  | VStr (s : string)
  | VList (l : list value)
  | VDict (d : list (string * value))
  | VObj (tyname : string).

(** [dict[str, Any]] in insertion order. *)
Definition dict : Type := list (string * value).

(** [isinstance(value, (dict, list))] *)
Definition is_dict_or_list (v : value) : bool :=
  match v with
  | VDict _ | VList _ => true
  | _ => false
  end.

(** [d[key]], as an option. *)
Fixpoint dict_get (key : string) (d : dict) : option value :=
  match d with
  | [] => None
  | (k, v) :: d' => if String.eqb key k then Some v else dict_get key d'
  end.

(** [d[key] = v]: an existing key keeps its position, a new key is
    appended. *)
Fixpoint dict_set (key : string) (v : value) (d : dict) : dict :=
  match d with
  | [] => [(key, v)]
  | (k, x) :: d' =>
      if String.eqb key k then (k, v) :: d' else (k, x) :: dict_set key v d'
  end.

Definition dict_keys (d : dict) : list string := map fst d.

(** ** Exceptions *)

Inductive exn : Type :=
  | TypeError (msg : string)
  | RuntimeError (msg : string)
  | QueueEmpty
  | UserError (msg : string).

(** ** Integer formatting *)

Module Fmt.

Definition hex_digit (d : N) : ascii :=
  ascii_of_N (if (d <? 10)%N then 48 + d else 87 + d).

(** Most significant digit first; [acc] holds the digits already
    produced. *)
Fixpoint hex_digits (fuel : nat) (n : N) (acc : list ascii) : list ascii :=
  match fuel with
  | O => acc
  | S fuel' =>
      if (n =? 0)%N then acc
      else hex_digits fuel' (n / 16) (hex_digit (n mod 16) :: acc)
  end.

(** [format(n, "x")] for [n >= 0]. *)
Definition format_x (n : N) : list ascii :=
  if (n =? 0)%N then ["0"%char] else hex_digits (N.to_nat (N.size n)) n [].

(** [format(n, "0{w}x")]: zero fill on the left up to width [w]. *)
Definition format_0x (w : nat) (n : N) : string :=
  let ds := format_x n in
  string_of_list_ascii (repeat "0"%char (w - length ds) ++ ds).

(** Reading a hexadecimal digit back. *)
Definition hex_val (c : ascii) : option N :=
  let n := N_of_ascii c in
  if ((48 <=? n) && (n <=? 57))%N then Some (n - 48)%N
  else if ((97 <=? n) && (n <=? 102))%N then Some (n - 87)%N
  else None.

Fixpoint parse_hex_from (acc : N) (l : list ascii) : option N :=
  match l with
  | [] => Some acc
  | c :: l' =>
      match hex_val c with
      | Some d => parse_hex_from (16 * acc + d) l'
      | None => None
      end
  end.

(** [int(s, 16)] on a string of lower-case hexadecimal digits. *)
Definition parse_hex (s : string) : option N :=
  parse_hex_from 0 (list_ascii_of_string s).

(** [repr(z)] of an [int]. *)
Definition repr_int (z : Z) : string :=
  DecimalString.NilZero.string_of_int (Z.to_int z).

End Fmt.

(** ** [json.dumps] with its default arguments *)

Module Json.

(** [json.encoder.py_encode_basestring_ascii]: the two-character escapes
    of [ESCAPE_DCT], printable ASCII as it is, anything else as
    [\uXXXX]. *)
Definition escape_char (c : ascii) : string :=
  let n := N_of_ascii c in
  if (n =? 92)%N then "\\"
  else if (n =? 34)%N then String "\" (String (ascii_of_N 34) EmptyString)
  else if (n =? 8)%N then "\b"
  else if (n =? 12)%N then "\f"
  else if (n =? 10)%N then "\n"
  else if (n =? 13)%N then "\r"
  else if (n =? 9)%N then "\t"
  else if ((32 <=? n) && (n <=? 126))%N then String c EmptyString
  else "\u" +:+ Fmt.format_0x 4 n.

Fixpoint escape_body (s : string) : string :=
  match s with
  | EmptyString => EmptyString
  | String c s' => escape_char c +:+ escape_body s'
  end.

Definition quote : string := String (ascii_of_N 34) EmptyString.

Definition encode_str (s : string) : string :=
  quote +:+ escape_body s +:+ quote.

(** [", ".join(parts)] *)
Fixpoint join (parts : list string) : string :=
  match parts with
  | [] => EmptyString
  | [p] => p
  | p :: ps => p +:+ ", " +:+ join ps
  end.

(** [json.dumps(v)]: [inr] the JSON text, [inl] the [TypeError] raised at
    the first object the encoder has no encoding for. *)
Fixpoint dumps (v : value) : exn + string :=
  match v with
  | VNone => inr "null"
  | VBool true => inr "true"
  | VBool false => inr "false"
  | VInt z => inr (Fmt.repr_int z)
  | VStr s => inr (encode_str s)
  | VList l =>
      let fix items (l : list value) : exn + list string :=
        match l with
        | [] => inr []
        | x :: l' =>
            match dumps x with
            | inl e => inl e
            | inr s =>
                match items l' with
                | inl e => inl e
                | inr ss => inr (s :: ss)
                end
            end
        end in
      match items l with
      | inl e => inl e
      | inr ss => inr ("[" +:+ join ss +:+ "]")
      end
  | VDict d =>
      let fix members (d : list (string * value)) : exn + list string :=
        match d with
        | [] => inr []
        | (k, x) :: d' =>
            match dumps x with
            | inl e => inl e
            | inr s =>
                match members d' with
                | inl e => inl e
                | inr ss => inr ((encode_str k +:+ ": " +:+ s) :: ss)
                end
            end
        end in
      match members d with
      | inl e => inl e
      | inr ss => inr ("{" +:+ join ss +:+ "}")
      end
  | VObj ty =>
      inl (TypeError ("Object of type " +:+ ty +:+ " is not JSON serializable"))
  end.

End Json.

(** ** Data model *)

(** [@dataclass(frozen=True) class StreamEvent] *)
Record StreamEvent : Type := mkStreamEvent {
  se_name : string;
  se_attributes : dict;
  se_timestamp_ns : Z;
  se_span_name : string;
  se_span_id : string;
  se_trace_id : string
}.

(** What a queue holds: an event, or [None], the end-of-stream signal. *)
Definition item : Type := option StreamEvent.

(** The span collaborator (OpenTelemetry), at the interface [add_event]
    uses: [is_recording()], [name], [get_span_context()] and the events
    handed to [add_event(name, attributes)]. *)
Record SpanContext : Type := mkSpanContext {
  ctx_trace_id : N;
  ctx_span_id : N
}.

Record Span : Type := mkSpan {
  sp_is_recording : bool;
  sp_name : string;
  sp_context : SpanContext;
  sp_events : list (string * dict)
}.

(** [contextvars.Token]: the value the variable had before [set], and
    whether [reset] has consumed the token. *)
Record Token : Type := mkToken {
  old_value : option nat;
  used : bool
}.

(** The calls [add_event] and the stream make to their collaborators, in
    the order they are made. *)
Inductive effect : Type :=
  | CJsonDumps (v : value)
  | CSpanAddEvent (name : string) (attrs : dict)
  | CGetSpanContext
  | CTimeNs
  | CStreamEvent (e : StreamEvent)
  | CPutNowait (q : nat) (x : item).

(** A callback registered with [on_event]: it may change the state of the
    code that registered it (of type [U]) and may raise. *)
Definition callback (U : Type) : Type := StreamEvent -> U -> (exn + unit) * U.

(** An [EventStream] object.  The stream and its [asyncio.Queue] are created
    together by [__init__] and [_queue] is never rebound, so one identifier
    names both; [_queue] holds the queued items, oldest first. *)
Record EventStream (U : Type) : Type := mkEventStream {
  _queue : list item;
  _token : option Token;
  _callbacks : list (callback U)
}.
Arguments mkEventStream {U} _ _ _.
Arguments _queue {U} _.
Arguments _token {U} _.
Arguments _callbacks {U} _.

(** The store.  [_event_queue] is the value of the context variable in the
    running context ([None] is its default); [clock] gives the successive
    readings of [time.time_ns()]. *)
Record World (U : Type) : Type := mkWorld {
  current_span : Span;
  _event_queue : option nat;
  streams : gmap nat (EventStream U);
  clock : nat -> Z;
  ticks : nat;
  calls : list effect;
  user : U
}.
Arguments mkWorld {U} _ _ _ _ _ _ _.
Arguments current_span {U} _.
Arguments _event_queue {U} _.
Arguments streams {U} _.
Arguments clock {U} _.
Arguments ticks {U} _.
Arguments calls {U} _.
Arguments user {U} _.

Section Store.
Context {U : Type}.

Definition set_span (sp : Span) (w : World U) : World U :=
  mkWorld sp (_event_queue w) (streams w) (clock w) (ticks w) (calls w) (user w).
Definition set_event_queue (q : option nat) (w : World U) : World U :=
  mkWorld (current_span w) q (streams w) (clock w) (ticks w) (calls w) (user w).
Definition set_streams (m : gmap nat (EventStream U)) (w : World U) : World U :=
  mkWorld (current_span w) (_event_queue w) m (clock w) (ticks w) (calls w) (user w).
Definition set_ticks (n : nat) (w : World U) : World U :=
  mkWorld (current_span w) (_event_queue w) (streams w) (clock w) n (calls w) (user w).
Definition set_user (u : U) (w : World U) : World U :=
  mkWorld (current_span w) (_event_queue w) (streams w) (clock w) (ticks w) (calls w) u.
Definition log_call (c : effect) (w : World U) : World U :=
  mkWorld (current_span w) (_event_queue w) (streams w) (clock w) (ticks w)
          (calls w ++ [c]) (user w).

(** The object an identifier names; an identifier that [__init__] has not
    handed out yet names a stream as [__init__] leaves it. *)
Definition new_EventStream : EventStream U := mkEventStream [] None [].

Definition stream_at (sid : nat) (w : World U) : EventStream U :=
  default new_EventStream (streams w !! sid).

Definition set_stream (sid : nat) (s : EventStream U) (w : World U) : World U :=
  set_streams (<[sid := s]> (streams w)) w.

Definition queue_of (sid : nat) (w : World U) : list item :=
  _queue (stream_at sid w).

Definition set_queue (sid : nat) (q : list item) (w : World U) : World U :=
  let s := stream_at sid w in
  set_stream sid (mkEventStream q (_token s) (_callbacks s)) w.

Definition set_token (sid : nat) (t : option Token) (w : World U) : World U :=
  let s := stream_at sid w in
  set_stream sid (mkEventStream (_queue s) t (_callbacks s)) w.

Definition set_callbacks (sid : nat) (cbs : list (callback U)) (w : World U) : World U :=
  let s := stream_at sid w in
  set_stream sid (mkEventStream (_queue s) (_token s) cbs) w.

(** ** Computations: state and exceptions *)

Definition M (A : Type) : Type := World U -> (exn + A) * World U.

Definition ret {A} (a : A) : M A := fun w => (inr a, w).

Definition raise {A} (e : exn) : M A := fun w => (inl e, w).

Definition bind {A B} (m : M A) (k : A -> M B) : M B :=
  fun w =>
    match m w with
    | (inl e, w') => (inl e, w')
    | (inr a, w') => k a w'
    end.

Definition get_world : M (World U) := fun w => (inr w, w).

Definition modify (f : World U -> World U) : M unit := fun w => (inr tt, f w).

End Store.

Declare Scope py_scope.
Delimit Scope py_scope with py.
Notation "'let*' x ':=' m 'in' k" := (bind m (fun x => k))
  (at level 10, x pattern, m at level 100, k at level 200) : py_scope.
Notation "m ';;' k" := (bind m (fun _ => k))
  (at level 100, k at level 200, right associativity) : py_scope.
Local Open Scope py_scope.

Section Events.
Context {U : Type}.
Local Abbreviation M := (@M U).

(** ** Collaborators *)

(** [trace.get_current_span()] *)
Definition get_current_span : M Span :=
  fun w => (inr (current_span w), w).

(** [span.add_event(name, attributes)] *)
Definition span_add_event (name : string) (attrs : dict) : M unit :=
  fun w =>
    let sp := current_span w in
    (inr tt,
     log_call (CSpanAddEvent name attrs)
       (set_span (mkSpan (sp_is_recording sp) (sp_name sp) (sp_context sp)
                         (sp_events sp ++ [(name, attrs)])) w)).

(** [span.get_span_context()] *)
Definition get_span_context : M SpanContext :=
  fun w => (inr (sp_context (current_span w)), log_call CGetSpanContext w).

(** [time.time_ns()] *)
Definition time_ns : M Z :=
  fun w => (inr (clock w (ticks w)), log_call CTimeNs (set_ticks (S (ticks w)) w)).

(** [json.dumps(value)] *)
Definition json_dumps (v : value) : M string :=
  fun w =>
    match Json.dumps v with
    | inl e => (inl e, log_call (CJsonDumps v) w)
    | inr s => (inr s, log_call (CJsonDumps v) w)
    end.

(** [StreamEvent(name=..., ...)] *)
Definition new_StreamEvent (name : string) (attributes : dict) (timestamp_ns : Z)
           (span_name span_id trace_id : string) : M StreamEvent :=
  fun w =>
    let e := mkStreamEvent name attributes timestamp_ns span_name span_id trace_id in
    (inr e, log_call (CStreamEvent e) w).

(** [queue.put_nowait(x)] on an unbounded [asyncio.Queue]: never full. *)
Definition put_nowait (q : nat) (x : item) : M unit :=
  fun w => (inr tt, log_call (CPutNowait q x) (set_queue q (queue_of q w ++ [x]) w)).

(** [_event_queue.get()] *)
Definition event_queue_get : M (option nat) :=
  fun w => (inr (_event_queue w), w).

(** [_event_queue.set(queue)]: the token remembers the value replaced. *)
Definition event_queue_set (q : nat) : M Token :=
  fun w => (inr (mkToken (_event_queue w) false), set_event_queue (Some q) w).

(** [_event_queue.reset(token)]: a token serves once.  (The module has
    one context variable, and the token is used in the context that made
    it; the checks of [reset] on both are left out.) *)
Definition event_queue_reset (token : Token) : M Token :=
  if used token then raise (RuntimeError "Token has already been used once")
  else fun w => (inr (mkToken (old_value token) true),
                 set_event_queue (old_value token) w).

(** ** [add_event] *)

(** [attributes or {}] *)
Definition or_empty (attributes : option dict) : dict :=
  match attributes with
  | Some d => d
  | None => []
  end.

(** The loop over [attrs.items()] that fills [serialized_attrs]. *)
Fixpoint serialize (items : dict) (serialized_attrs : dict) : M dict :=
  match items with
  | [] => ret serialized_attrs
  | (key, v) :: rest =>
      if is_dict_or_list v then
        let* s := json_dumps v in
        serialize rest (dict_set key (VStr s) serialized_attrs)
      else
        serialize rest (dict_set key v serialized_attrs)
  end.

(** Step 1 of [add_event]: the span, when it records. *)
Definition emit_to_span (span : Span) (name : string) (serialized_attrs : dict) : M unit :=
  if sp_is_recording span then span_add_event name serialized_attrs else ret tt.

(** Step 2 of [add_event]: the streaming queue, when one is active. *)
Definition emit_to_queue (span : Span) (name : string) (attrs : dict) : M unit :=
  let* queue := event_queue_get in
  match queue with
  | None => ret tt
  | Some q =>
      let* span_context :=
        (if sp_is_recording span
         then let* c := get_span_context in ret (Some c)
         else ret None) in
      let* t := time_ns in
      let* event :=
        new_StreamEvent name attrs t
          (if sp_is_recording span then sp_name span else EmptyString)
          (match span_context with
           | Some c => Fmt.format_0x 16 (ctx_span_id c)
           | None => EmptyString
           end)
          (match span_context with
           | Some c => Fmt.format_0x 32 (ctx_trace_id c)
           | None => EmptyString
           end) in
      put_nowait q (Some event)
  end.

Definition add_event (name : string) (attributes : option dict) : M unit :=
  let* span := get_current_span in
  let attrs := or_empty attributes in
  let* serialized_attrs := serialize attrs [] in
  emit_to_span span name serialized_attrs ;;
  emit_to_queue span name attrs.

(** ** [EventStream] *)

(** [EventStream()]: [__init__] on a new object. *)
Definition EventStream_init : M nat :=
  fun w =>
    let sid := fresh (dom (streams w)) in
    (inr sid, set_stream sid new_EventStream w).

Definition on_event (self : nat) (cb : callback U) : M unit :=
  fun w => (inr tt, set_callbacks self (_callbacks (stream_at self w) ++ [cb]) w).

(** [self._token = _event_queue.set(self._queue)] *)
Definition bind_queue (self : nat) : M nat :=
  let* token := event_queue_set self in
  modify (set_token self (Some token)) ;;
  ret self.

(** [if self._token is not None: _event_queue.reset(self._token)] *)
Definition reset_queue (self : nat) : M unit :=
  let* w := get_world in
  match _token (stream_at self w) with
  | Some token =>
      let* token' := event_queue_reset token in
      modify (set_token self (Some token'))
  | None => ret tt
  end.

Definition __aenter__ (self : nat) : M nat := bind_queue self.

Definition __aexit__ (self : nat) (exc : option exn) : M unit :=
  reset_queue self ;;
  put_nowait self None.

Definition __enter__ (self : nat) : M nat := bind_queue self.

Definition __exit__ (self : nat) (exc : option exn) : M unit :=
  reset_queue self.

Definition close (self : nat) : M unit := put_nowait self None.

(** [with mgr as s: body] and [async with mgr as s: body]: the exit
    method runs on both ways out; it returns [None], so an exception of
    the body is raised again after it. *)
Definition with_ {A} (enter : M nat) (exit : option exn -> M unit)
           (body : nat -> M A) : M A :=
  fun w =>
    match enter w with
    | (inl e, w1) => (inl e, w1)
    | (inr s, w1) =>
        match body s w1 with
        | (inr a, w2) =>
            match exit None w2 with
            | (inl e, w3) => (inl e, w3)
            | (inr _, w3) => (inr a, w3)
            end
        | (inl e, w2) =>
            match exit (Some e) w2 with
            | (inl e', w3) => (inl e', w3)
            | (inr _, w3) => (inl e, w3)
            end
        end
    end.

Definition with_stream {A} (self : nat) (body : nat -> M A) : M A :=
  with_ (__enter__ self) (__exit__ self) body.

Definition async_with_stream {A} (self : nat) (body : nat -> M A) : M A :=
  with_ (__aenter__ self) (__aexit__ self) body.

(** ** The drain loop, [__aiter__] *)

(** [callback(event)] *)
Definition call (cb : callback U) (event : StreamEvent) : M unit :=
  fun w => let '(r, u) := cb event (user w) in (r, set_user u w).

(** [for callback in self._callbacks: callback(event)] *)
Fixpoint run_callbacks (cbs : list (callback U)) (event : StreamEvent) : M unit :=
  match cbs with
  | [] => ret tt
  | cb :: rest => call cb event ;; run_callbacks rest event
  end.

(** What resuming the generator gives: the event of its [yield], the end
    of the iteration after [break], or nothing yet, while
    [await self._queue.get()] waits on an empty queue. *)
Inductive resumed : Type :=
  | Yield (event : StreamEvent)
  | StopAsyncIteration
  | Suspended.

(** One turn of [while True] in [__aiter__], up to its [yield]. *)
Definition anext (self : nat) : M resumed :=
  let* w := get_world in
  match queue_of self w with
  | [] => ret Suspended
  | x :: rest =>
      modify (set_queue self rest) ;;
      match x with
      | None => ret StopAsyncIteration
      | Some event =>
          let* w' := get_world in
          run_callbacks (_callbacks (stream_at self w')) event ;;
          ret (Yield event)
      end
  end.

(** How a drain stands when control comes back. *)
Inductive drain_end : Type :=
  | Exhausted
  | Waiting
  | Running.

(** [async for event in stream: body(event)], with the events it was
    given so far.  [Waiting]: the queue is empty and nothing else runs;
    [Running]: [fuel] turns were not enough. *)
Fixpoint async_for (fuel : nat) (self : nat) (body : StreamEvent -> M unit)
  : M (list StreamEvent * drain_end) :=
  match fuel with
  | O => ret ([], Running)
  | S fuel' =>
      let* r := anext self in
      match r with
      | Suspended => ret ([], Waiting)
      | StopAsyncIteration => ret ([], Exhausted)
      | Yield event =>
          body event ;;
          let* more := async_for fuel' self body in
          ret (event :: fst more, snd more)
      end
  end.

(** [[event async for event in stream]] *)
Definition drain (fuel : nat) (self : nat) : M (list StreamEvent * drain_end) :=
  async_for fuel self (fun _ => ret tt).

(** ** The snapshot accessor, [events] *)

(** [while not self._queue.empty(): event = self._queue.get_nowait(); ...] *)
Equations? events_loop (self : nat) (collected : list StreamEvent) (w : World U)
  : (exn + list StreamEvent) * World U by wf (length (queue_of self w)) lt :=
  events_loop self collected w with Logic.inspect (queue_of self w) := {
    | exist _ nil _ => (inr collected, w)
    | exist _ (cons event rest) Hq =>
        events_loop self
          (match event with
           | Some e => collected ++ [e]
           | None => collected
           end)
          (set_queue self rest w) }.
Proof.
  unfold queue_of, set_queue, set_stream, stream_at in *. simpl.
  rewrite lookup_insert_eq. simpl. rewrite Hq. simpl. lia.
Qed.

Definition events (self : nat) : M (list StreamEvent) :=
  events_loop self [].

End Events.

(** ** A producer task and the drain loop, interleaved *)

(** What the producer of the tests does: [add_event] calls, then
    [stream.close()]. *)
Inductive op : Type :=
  | Emit (name : string) (attributes : option dict)
  | Close.

Inductive task : Type :=
  | Producer
  | Consumer.

(** The two tasks of [test_event_stream_captures_events]: the producer,
    created by [asyncio.create_task] with a copy of the context, and the
    task that runs [async for event in stream: collected.append(event)]. *)
Record System (U : Type) : Type := mkSystem {
  sys_world : World U;
  sys_producer_context : option nat;
  sys_pending : list op;
  sys_producer_error : option exn;
  sys_collected : list StreamEvent;
  sys_consumer : exn + drain_end
}.
Arguments mkSystem {U} _ _ _ _ _ _.
Arguments sys_world {U} _.
Arguments sys_producer_context {U} _.
Arguments sys_pending {U} _.
Arguments sys_producer_error {U} _.
Arguments sys_collected {U} _.
Arguments sys_consumer {U} _.

Section Tasks.
Context {U : Type}.
Local Abbreviation M := (@M U).

(** Running [m] in a task whose context holds [ctx] for [_event_queue];
    the context of the caller is untouched. *)
Definition in_context {A} (ctx : option nat) (m : M A) (w : World U)
  : (exn + A) * option nat * World U :=
  let '(r, w') := m (set_event_queue ctx w) in
  (r, _event_queue w', set_event_queue (_event_queue w) w').

Definition run_op (stream : nat) (o : op) : M unit :=
  match o with
  | Emit name attributes => add_event name attributes
  | Close => close stream
  end.

(** [asyncio.create_task(emit_events())] next to the drain loop. *)
Definition spawn (ops : list op) (w : World U) : System U :=
  mkSystem w (_event_queue w) ops None [] (inr Running).

(** The producer runs its next operation; an exception ends the task. *)
Definition step_producer (stream : nat) (s : System U) : System U :=
  match sys_producer_error s, sys_pending s with
  | None, o :: rest =>
      match in_context (sys_producer_context s) (run_op stream o) (sys_world s) with
      | (inr _, ctx, w) =>
          mkSystem w ctx rest None (sys_collected s) (sys_consumer s)
      | (inl e, ctx, w) =>
          mkSystem w ctx [] (Some e) (sys_collected s) (sys_consumer s)
      end
  | _, _ => s
  end.

(** The drain loop is resumed: it takes one item if there is one. *)
Definition step_consumer (stream : nat) (s : System U) : System U :=
  match sys_consumer s with
  | inr Exhausted | inl _ => s
  | inr _ =>
      match anext stream (sys_world s) with
      | (inr (Yield event), w) =>
          mkSystem w (sys_producer_context s) (sys_pending s) (sys_producer_error s)
                   (sys_collected s ++ [event]) (inr Running)
      | (inr StopAsyncIteration, w) =>
          mkSystem w (sys_producer_context s) (sys_pending s) (sys_producer_error s)
                   (sys_collected s) (inr Exhausted)
      | (inr Suspended, w) =>
          mkSystem w (sys_producer_context s) (sys_pending s) (sys_producer_error s)
                   (sys_collected s) (inr Waiting)
      | (inl e, w) =>
          mkSystem w (sys_producer_context s) (sys_pending s) (sys_producer_error s)
                   (sys_collected s) (inl e)
      end
  end.

Definition step (stream : nat) (s : System U) (t : task) : System U :=
  match t with
  | Producer => step_producer stream s
  | Consumer => step_consumer stream s
  end.

(** The event loop runs the tasks in the order [schedule] gives. *)
Definition run (stream : nat) (schedule : list task) (s : System U) : System U :=
  fold_left (step stream) schedule s.

End Tasks.

(** ** Reference values used in the statements *)

(** The JSON text of a value [json.dumps] accepts. *)
Definition json_text (v : value) : string :=
  match Json.dumps v with
  | inr s => s
  | inl _ => EmptyString
  end.

(** What the persistence path receives for an attribute value. *)
Definition persisted (v : value) : value :=
  if is_dict_or_list v then VStr (json_text v) else v.

(** Every nested value of the mapping has a JSON encoding. *)
Definition serializable (attrs : dict) : bool :=
  forallb (fun kv => negb (is_dict_or_list (snd kv))
                     || match Json.dumps (snd kv) with inr _ => true | inl _ => false end)
          attrs.

(** The nested values of a mapping, in order: the arguments [json.dumps]
    is called with. *)
Definition nested_values (attrs : dict) : list value :=
  filter (fun v => is_dict_or_list v = true) (map snd attrs).

(** The event [add_event] puts on the queue under span [sp] at time [t]. *)
Definition event_of (sp : Span) (t : Z) (name : string) (attrs : dict) : StreamEvent :=
  mkStreamEvent name attrs t
    (if sp_is_recording sp then sp_name sp else EmptyString)
    (if sp_is_recording sp then Fmt.format_0x 16 (ctx_span_id (sp_context sp)) else EmptyString)
    (if sp_is_recording sp then Fmt.format_0x 32 (ctx_trace_id (sp_context sp)) else EmptyString).

(** The events of successive [add_event] calls, the first at reading [t0]
    of the clock. *)
Fixpoint events_of (sp : Span) (clk : nat -> Z) (t0 : nat)
         (calls : list (string * option dict)) : list StreamEvent :=
  match calls with
  | [] => []
  | (name, attributes) :: rest =>
      event_of sp (clk t0) name (or_empty attributes) :: events_of sp clk (S t0) rest
  end.

(** The non-sentinel items of a queue, in order. *)
Definition events_in (q : list item) : list StreamEvent :=
  omap id q.


(** The world [events] leaves: the queue of [self] emptied. *)
Definition emptied {U : Type} (self : nat) (w : World U) : World U :=
  match queue_of self w with
  | [] => w
  | _ :: _ => set_queue self [] w
  end.

(** The mapping [add_event] builds in [serialized_attrs]. *)
Definition serialized_attrs_of (attrs : dict) : dict :=
  fold_left (fun d kv => dict_set (fst kv) (persisted (snd kv)) d) attrs [].

(** The calls of [add_event] that belong to the span: encoding the nested
    values and recording the event. *)
Definition span_calls (sp : Span) (name : string) (attrs : dict) : list effect :=
  map CJsonDumps (nested_values attrs)
  ++ (if sp_is_recording sp then [CSpanAddEvent name (serialized_attrs_of attrs)] else []).

(** The calls of [add_event] that belong to streaming, made only with a
    queue [q] active. *)
Definition stream_calls (sp : Span) (t : Z) (name : string) (attrs : dict) (q : nat)
  : list effect :=
  (if sp_is_recording sp then [CGetSpanContext] else [])
  ++ [CTimeNs; CStreamEvent (event_of sp t name attrs);
      CPutNowait q (Some (event_of sp t name attrs))].

Definition is_stream_call (c : effect) : bool :=
  match c with
  | CGetSpanContext | CTimeNs | CStreamEvent _ | CPutNowait _ _ => true
  | CJsonDumps _ | CSpanAddEvent _ _ => false
  end.

(** The span after [add_event]: one more event when it records. *)
Definition span_after (sp : Span) (name : string) (attrs : dict) : Span :=
  if sp_is_recording sp
  then mkSpan (sp_is_recording sp) (sp_name sp) (sp_context sp)
              (sp_events sp ++ [(name, serialized_attrs_of attrs)])
  else sp.

(** The store after a successful [add_event name attributes]. *)
Definition emitted {U : Type} (name : string) (attrs : dict) (w : World U) : World U :=
  let sp := current_span w in
  match _event_queue w with
  | None =>
      mkWorld (span_after sp name attrs) None (streams w) (clock w) (ticks w)
              (calls w ++ span_calls sp name attrs) (user w)
  | Some q =>
      let e := event_of sp (clock w (ticks w)) name attrs in
      let s := stream_at q w in
      mkWorld (span_after sp name attrs) (Some q)
              (<[q := mkEventStream (_queue s ++ [Some e]) (_token s) (_callbacks s)]> (streams w))
              (clock w) (S (ticks w))
              (calls w ++ span_calls sp name attrs
                       ++ stream_calls sp (clock w (ticks w)) name attrs q)
              (user w)
  end.

(** Successive [add_event] calls. *)
Fixpoint emits {U : Type} (calls : list (string * option dict)) : M (U:=U) unit :=
  match calls with
  | [] => ret tt
  | (name, attributes) :: rest => add_event name attributes ;; emits rest
  end.

(** [serializable], for each call of a sequence. *)
Definition all_serializable (calls : list (string * option dict)) : bool :=
  forallb (fun c => serializable (or_empty (snd c))) calls.

(** A span that does not record, as [get_current_span] gives when no span
    is current. *)
Definition no_span : Span := mkSpan false EmptyString (mkSpanContext 0 0) [].

(** A store with no stream yet and no queue active. *)
Definition initial_world {U : Type} (sp : Span) (clk : nat -> Z) (u : U) : World U :=
  mkWorld sp None ∅ clk 0 [] u.

(** The store after a run of successful [add_event] calls. *)
Fixpoint emitted_all {U : Type} (calls : list (string * option dict)) (w : World U)
  : World U :=
  match calls with
  | [] => w
  | (name, attributes) :: rest => emitted_all rest (emitted name (or_empty attributes) w)
  end.

(** The items [add_event] calls put on queue [q] when the active queue is
    [active]. *)
Definition items_for (q : nat) (active : option nat) (evs : list StreamEvent)
  : list item :=
  match active with
  | Some q0 => if decide (q0 = q) then map Some evs else []
  | None => []
  end.

(** [with EventStream() as stream: body(stream)] *)
Definition sync_scope {U A : Type} (body : nat -> M (U:=U) A) : M (U:=U) A :=
  let* stream := EventStream_init in
  with_stream stream body.

(** [async with EventStream() as stream: body(stream)] *)
Definition async_scope {U A : Type} (body : nat -> M (U:=U) A) : M (U:=U) A :=
  let* stream := EventStream_init in
  async_with_stream stream body.

(** A callback that only updates the state of its owner. *)
Definition pure_callback {U : Type} (f : StreamEvent -> U -> U) : callback U :=
  fun event u => (inr tt, f event u).

(** The owner's state after a drain gave it the events [es]: for each
    event in turn, the callbacks [fs] in their order, then the loop body
    [g]. *)
Definition delivered {U : Type} (fs : list (StreamEvent -> U -> U))
           (g : StreamEvent -> U -> U) (es : list StreamEvent) (u : U) : U :=
  fold_left (fun u e => g e (fold_left (fun u f => f e u) fs u)) es u.

(** [StreamEvent(name=name)], at time 0. *)
Definition named_event (name : string) : StreamEvent :=
  mkStreamEvent name [] 0 EmptyString EmptyString EmptyString.

(** [lambda e: seen.append(e)], with [seen] the state of the owner. *)
Definition append_callback : callback (list StreamEvent) :=
  fun event seen => (inr tt, seen ++ [event]).

(** A stream with [append_callback] registered, the events [a] and [b] on
    its queue, closed, then drained. *)
Definition callback_example : M (U:=list StreamEvent) (list StreamEvent * drain_end) :=
  let* stream := EventStream_init in
  on_event stream append_callback ;;
  put_nowait stream (Some (named_event "a")) ;;
  put_nowait stream (Some (named_event "b")) ;;
  close stream ;;
  drain 3 stream.

(** The store on entering the scope of stream [self]. *)
Definition entered {U : Type} (self : nat) (w : World U) : World U :=
  set_token self (Some (mkToken (_event_queue w) false))
            (set_event_queue (Some self) w).

(** The store on leaving the scope of stream [self], entered when the slot
    held [old], from the store [w] the body left: the slot is put back;
    the asynchronous form also puts the sentinel. *)
Definition left_scope {U : Type} (async : bool) (self : nat) (old : option nat)
           (w : World U) : World U :=
  let w' := set_token self (Some (mkToken old true)) (set_event_queue old w) in
  if async
  then log_call (CPutNowait self None) (set_queue self (queue_of self w ++ [None]) w')
  else w'.

(** Either form of the scope. *)
Definition scoped {U A : Type} (async : bool) (self : nat) (body : nat -> M (U:=U) A)
  : M (U:=U) A :=
  if async then async_with_stream self body else with_stream self body.

(** An outer stream with [add_event] calls [A] before, [B] inside and [C]
    after the scope of an inner stream. *)
Definition nested_streams {U : Type} (async : bool)
           (A B C : list (string * option dict)) : M (U:=U) (nat * nat) :=
  let* outer := EventStream_init in
  let* inner :=
    scoped async outer (fun _ =>
      emits A ;;
      let* inner := EventStream_init in
      scoped async inner (fun _ => emits B) ;;
      emits C ;;
      ret inner) in
  ret (outer, inner).

(** The sentinel the asynchronous exit leaves. *)
Definition exit_items (async : bool) : list item :=
  if async then [None] else [].

(** The operations of a producer that makes the calls [cs]. *)
Definition ops_of (cs : list (string * option dict)) : list op :=
  map (fun c => Emit (fst c) (snd c)) cs.

(** What the drain loop has taken from the queue so far. *)
Definition consumed {U : Type} (s : System U) : list item :=
  map Some (sys_collected s)
  ++ match sys_consumer s with
     | inr Exhausted => [None]
     | _ => []
     end.

(** The systems reachable from [spawn (ops_of cs ++ [Close]) w]: the
    producer has made the calls [done] and has [todo] left, or has closed
    the stream; what was put on the queue is either consumed or still
    queued, in order. *)
Definition in_flight {U : Type} (self : nat) (fs : list (StreamEvent -> U -> U))
           (cs : list (string * option dict)) (w : World U) (s : System U) : Prop :=
  exists (done todo : list (string * option dict)) (closed : bool),
    cs = done ++ todo
    /\ sys_pending s = (if closed then [] else ops_of todo ++ [Close])
    /\ (closed = true -> todo = [])
    /\ consumed s ++ queue_of self (sys_world s)
       = map Some (events_of (current_span w) (clock w) (ticks w) done)
         ++ (if closed then [None] else [])
    /\ ticks (sys_world s) = ticks w + length done
    /\ clock (sys_world s) = clock w
    /\ (forall t name attrs,
          event_of (current_span (sys_world s)) t name attrs
          = event_of (current_span w) t name attrs)
    /\ _callbacks (stream_at self (sys_world s)) = map pure_callback fs
    /\ sys_producer_error s = None
    /\ sys_producer_context s = Some self
    /\ (forall x, sys_consumer s <> inl x).

(** How many items the drain loop still has to take, once the stream is
    closed. *)
Definition backlog {U : Type} (self : nat) (s : System U) : nat :=
  match sys_consumer s with
  | inr Exhausted => 0
  | _ => length (queue_of self (sys_world s))
  end.

(** ** Sample stores and calls *)

(** A recording span with a 128-bit trace identifier and a 64-bit span
    identifier. *)
Definition sample_span : Span :=
  mkSpan true "agent.run"
         (mkSpanContext 14576827793038113322513871894673895836 81985529216486895) [].

Definition sample_clock (n : nat) : Z := 1700000000000000000 + Z.of_nat n.

(** [{"tool_name": "search", "tool_id": "id1", "arguments": {"query": "weather"}}] *)
Definition tool_call_attrs : dict :=
  [("tool_name", VStr "search"); ("tool_id", VStr "id1");
   ("arguments", VDict [("query", VStr "weather")])].

(** [{"tool_name": "search", "tool_id": "id1", "result": "found"}] *)
Definition tool_result_attrs : dict :=
  [("tool_name", VStr "search"); ("tool_id", VStr "id1"); ("result", VStr "found")].

Definition tool_calls : list (string * option dict) :=
  [("gen_ai.tool.call", Some tool_call_attrs);
   ("gen_ai.tool.result", Some tool_result_attrs)].

(** No stream, no queue active, no recording span. *)
Definition quiet_world : World unit := initial_world no_span sample_clock tt.

(** Inside the scope of stream 0, under [sample_span]. *)
Definition listening_world : World unit :=
  entered 0 (set_stream 0 new_EventStream (initial_world sample_span sample_clock tt)).

(** [{"tags": [{1, 2}]}]: a [set] inside a [list]. *)
Definition set_attrs : dict := [("tags", VList [VObj "set"])].

(** Stream 0 with the items [a], the sentinel, [b] on its queue. *)
Definition buffered_world : World unit :=
  set_queue 0 [Some (named_event "a"); None; Some (named_event "b")] quiet_world.

(** ** Event types and the convenience functions *)

(** [class EventType] *)
Module EventType.
Definition AGENT_START : string := "gen_ai.agent.start".
Definition AGENT_STEP : string := "gen_ai.agent.step".
Definition AGENT_COMPLETE : string := "gen_ai.agent.complete".
Definition AGENT_ERROR : string := "gen_ai.agent.error".
Definition MODEL_REQUEST : string := "gen_ai.model.request".
Definition MODEL_RESPONSE : string := "gen_ai.model.response".
Definition MODEL_RESPONSE_CHUNK : string := "gen_ai.model.response.chunk".
Definition MODEL_REASONING : string := "gen_ai.model.reasoning".
Definition MODEL_REASONING_CHUNK : string := "gen_ai.model.reasoning.chunk".
Definition TOOL_CALL : string := "gen_ai.tool.call".
Definition TOOL_RESULT : string := "gen_ai.tool.result".
Definition TOOL_ERROR : string := "gen_ai.tool.error".
Definition FLOW_STEP : string := "gen_ai.flow.step".
Definition FLOW_REASONING : string := "gen_ai.flow.reasoning".
Definition FLOW_COMPLETE : string := "gen_ai.flow.complete".
Definition MODULE_START : string := "gen_ai.module.start".
Definition MODULE_COMPLETE : string := "gen_ai.module.complete".
Definition MODULE_ERROR : string := "gen_ai.module.error".

(** The constants of the class, in the order they are written. *)
Definition names : list string :=
  [AGENT_START; AGENT_STEP; AGENT_COMPLETE; AGENT_ERROR;
   MODEL_REQUEST; MODEL_RESPONSE; MODEL_RESPONSE_CHUNK; MODEL_REASONING;
   MODEL_REASONING_CHUNK;
   TOOL_CALL; TOOL_RESULT; TOOL_ERROR;
   FLOW_STEP; FLOW_REASONING; FLOW_COMPLETE;
   MODULE_START; MODULE_COMPLETE; MODULE_ERROR].
End EventType.

(** [d.update(extra)], and the part [**extra] of a dict display: the items
    of [extra] are set in their order. *)
Definition dict_update (d extra : dict) : dict :=
  fold_left (fun d kv => dict_set (fst kv) (snd kv) d) extra d.

(** A dict display [{k1: v1, ..., kn: vn}]. *)
Definition dict_of (items : dict) : dict := dict_update [] items.

(** [bool(s)] for a [str] and [bool(d)] for a [dict]. *)
Definition str_truthy (s : string) : bool :=
  match s with
  | EmptyString => false
  | String _ _ => true
  end.

Definition dict_truthy (d : dict) : bool :=
  match d with
  | [] => false
  | _ :: _ => true
  end.

(** [if step is not None: attrs["step"] = step] *)
Definition set_step (step : option Z) (attrs : dict) : dict :=
  match step with
  | Some n => dict_set "step" (VInt n) attrs
  | None => attrs
  end.

(** The mapping each convenience function builds before it calls
    [add_event]; parameters are taken at their annotated types, [None] for
    an optional one is [None], and [extra] holds the keyword arguments
    [**extra]. *)
Definition agent_start_attrs (agent_name : string) (extra : dict) : dict :=
  dict_update (dict_of [("agent_name", VStr agent_name)]) extra.

Definition agent_complete_attrs (agent_name : string) (response : value) (extra : dict)
  : dict :=
  let attrs := dict_update (dict_of [("agent_name", VStr agent_name)]) extra in
  match response with
  | VNone => attrs
  | _ => dict_set "response" response attrs
  end.

Definition agent_step_attrs (agent_name : string) (step_number : Z) (step_type : string)
           (extra : dict) : dict :=
  dict_update (dict_of [("agent_name", VStr agent_name); ("step_number", VInt step_number);
                        ("step_type", VStr step_type)]) extra.

Definition model_request_attrs (model : option string) (message_count : option Z)
           (extra : dict) : dict :=
  let attrs := dict_update (dict_of []) extra in
  let attrs :=
    match model with
    | Some m => if str_truthy m then dict_set "model" (VStr m) attrs else attrs
    | None => attrs
    end in
  match message_count with
  | Some n => dict_set "message_count" (VInt n) attrs
  | None => attrs
  end.

Definition model_response_attrs (response_type : string) (extra : dict) : dict :=
  dict_update (dict_of [("response_type", VStr response_type)]) extra.

Definition model_response_chunk_attrs (chunk : string) (index : Z) (extra : dict) : dict :=
  dict_update (dict_of [("chunk", VStr chunk); ("index", VInt index)]) extra.

Definition model_reasoning_attrs (reasoning : string) (step : option Z) (extra : dict)
  : dict :=
  set_step step (dict_update (dict_of [("reasoning", VStr reasoning)]) extra).

Definition tool_call_attrs_of (tool_name tool_id : string) (arguments : option dict)
           (step : option Z) (extra : dict) : dict :=
  let attrs := dict_update (dict_of [("tool_name", VStr tool_name);
                                     ("tool_id", VStr tool_id)]) extra in
  let attrs :=
    match arguments with
    | Some a => if dict_truthy a then dict_set "arguments" (VDict a) attrs else attrs
    | None => attrs
    end in
  set_step step attrs.

Definition tool_result_attrs_of (tool_name tool_id : string) (result : value)
           (step : option Z) (extra : dict) : dict :=
  let attrs := dict_update (dict_of [("tool_name", VStr tool_name);
                                     ("tool_id", VStr tool_id)]) extra in
  let attrs :=
    match result with
    | VNone => attrs
    | _ => dict_set "result" result attrs
    end in
  set_step step attrs.

Definition tool_error_attrs (tool_name tool_id error : string) (step : option Z)
           (extra : dict) : dict :=
  set_step step
    (dict_update (dict_of [("tool_name", VStr tool_name); ("tool_id", VStr tool_id);
                           ("error", VStr error)]) extra).

Definition flow_step_attrs (step_number : Z) (extra : dict) : dict :=
  dict_update (dict_of [("step_number", VInt step_number)]) extra.

Definition flow_reasoning_attrs (reasoning : string) (step : option Z) (extra : dict)
  : dict :=
  set_step step (dict_update (dict_of [("reasoning", VStr reasoning)]) extra).

Definition flow_complete_attrs (step : option Z) (extra : dict) : dict :=
  set_step step (dict_update (dict_of []) extra).

Section Convenience.
Context {U : Type}.
Local Abbreviation M := (@M U).

Definition add_agent_start_event (agent_name : string) (extra : dict) : M unit :=
  add_event EventType.AGENT_START (Some (agent_start_attrs agent_name extra)).

Definition add_agent_complete_event (agent_name : string) (response : value)
           (extra : dict) : M unit :=
  add_event EventType.AGENT_COMPLETE
            (Some (agent_complete_attrs agent_name response extra)).

Definition add_agent_step_event (agent_name : string) (step_number : Z)
           (step_type : string) (extra : dict) : M unit :=
  add_event EventType.AGENT_STEP
            (Some (agent_step_attrs agent_name step_number step_type extra)).

Definition add_model_request_event (model : option string) (message_count : option Z)
           (extra : dict) : M unit :=
  add_event EventType.MODEL_REQUEST
            (Some (model_request_attrs model message_count extra)).

Definition add_model_response_event (response_type : string) (extra : dict) : M unit :=
  add_event EventType.MODEL_RESPONSE (Some (model_response_attrs response_type extra)).

Definition add_model_response_chunk_event (chunk : string) (index : Z) (extra : dict)
  : M unit :=
  add_event EventType.MODEL_RESPONSE_CHUNK
            (Some (model_response_chunk_attrs chunk index extra)).

Definition add_model_reasoning_event (reasoning : string) (step : option Z)
           (extra : dict) : M unit :=
  add_event EventType.MODEL_REASONING (Some (model_reasoning_attrs reasoning step extra)).

Definition add_tool_call_event (tool_name tool_id : string) (arguments : option dict)
           (step : option Z) (extra : dict) : M unit :=
  add_event EventType.TOOL_CALL
            (Some (tool_call_attrs_of tool_name tool_id arguments step extra)).

Definition add_tool_result_event (tool_name tool_id : string) (result : value)
           (step : option Z) (extra : dict) : M unit :=
  add_event EventType.TOOL_RESULT
            (Some (tool_result_attrs_of tool_name tool_id result step extra)).

Definition add_tool_error_event (tool_name tool_id error : string) (step : option Z)
           (extra : dict) : M unit :=
  add_event EventType.TOOL_ERROR (Some (tool_error_attrs tool_name tool_id error step extra)).

Definition add_flow_step_event (step_number : Z) (extra : dict) : M unit :=
  add_event EventType.FLOW_STEP (Some (flow_step_attrs step_number extra)).

Definition add_flow_reasoning_event (reasoning : string) (step : option Z) (extra : dict)
  : M unit :=
  add_event EventType.FLOW_REASONING (Some (flow_reasoning_attrs reasoning step extra)).

Definition add_flow_complete_event (step : option Z) (extra : dict) : M unit :=
  add_event EventType.FLOW_COMPLETE (Some (flow_complete_attrs step extra)).

End Convenience.

(** ** Reference values for further statements *)

(** How many of the calls in [cs] satisfy [p]. *)
Definition count_calls (p : effect -> bool) (cs : list effect) : nat :=
  length (List.filter p cs).

Definition is_span_add (c : effect) : bool :=
  match c with
  | CSpanAddEvent _ _ => true
  | _ => false
  end.

Definition is_put (c : effect) : bool :=
  match c with
  | CPutNowait _ _ => true
  | _ => false
  end.

(** [1] when the condition holds, else [0]. *)
Definition one_if (b : bool) : nat := if b then 1 else 0.

(** The slot holds queue [q]. *)
Definition is_active {U : Type} (q : nat) (w : World U) : bool :=
  match _event_queue w with
  | Some q0 => Nat.eqb q0 q
  | None => false
  end.

(** A queue is active. *)
Definition streaming {U : Type} (w : World U) : bool :=
  match _event_queue w with
  | Some _ => true
  | None => false
  end.

(** The clock never goes back. *)
Definition monotone (clk : nat -> Z) : Prop :=
  forall i j, i <= j -> (clk i <= clk j)%Z.

(** The exception [ContextVar.reset] raises for a token that was used. *)
Definition token_used : exn := RuntimeError "Token has already been used once".

(** ** A call of a convenience function *)

(** One constructor for each convenience function, with the arguments of
    its named parameters; the keyword arguments [**extra] are passed
    beside it. *)
Inductive helper : Type :=
  | AgentStart (agent_name : string)
  | AgentComplete (agent_name : string) (response : value)
  | AgentStep (agent_name : string) (step_number : Z) (step_type : string)
  | ModelRequest (model : option string) (message_count : option Z)
  | ModelResponse (response_type : string)
  | ModelResponseChunk (chunk : string) (index : Z)
  | ModelReasoning (reasoning : string) (step : option Z)
  | ToolCall (tool_name tool_id : string) (arguments : option dict) (step : option Z)
  | ToolResult (tool_name tool_id : string) (result : value) (step : option Z)
  | ToolError (tool_name tool_id error : string) (step : option Z)
  | FlowStep (step_number : Z)
  | FlowReasoning (reasoning : string) (step : option Z)
  | FlowComplete (step : option Z).

(** The call itself. *)
Definition call_helper {U : Type} (h : helper) (extra : dict) : M (U:=U) unit :=
  match h with
  | AgentStart n => add_agent_start_event n extra
  | AgentComplete n r => add_agent_complete_event n r extra
  | AgentStep n k t => add_agent_step_event n k t extra
  | ModelRequest m c => add_model_request_event m c extra
  | ModelResponse t => add_model_response_event t extra
  | ModelResponseChunk c i => add_model_response_chunk_event c i extra
  | ModelReasoning r s => add_model_reasoning_event r s extra
  | ToolCall n i a s => add_tool_call_event n i a s extra
  | ToolResult n i r s => add_tool_result_event n i r s extra
  | ToolError n i e s => add_tool_error_event n i e s extra
  | FlowStep k => add_flow_step_event k extra
  | FlowReasoning r s => add_flow_reasoning_event r s extra
  | FlowComplete s => add_flow_complete_event s extra
  end.

(** The mapping the function builds. *)
Definition helper_attrs (h : helper) (extra : dict) : dict :=
  match h with
  | AgentStart n => agent_start_attrs n extra
  | AgentComplete n r => agent_complete_attrs n r extra
  | AgentStep n k t => agent_step_attrs n k t extra
  | ModelRequest m c => model_request_attrs m c extra
  | ModelResponse t => model_response_attrs t extra
  | ModelResponseChunk c i => model_response_chunk_attrs c i extra
  | ModelReasoning r s => model_reasoning_attrs r s extra
  | ToolCall n i a s => tool_call_attrs_of n i a s extra
  | ToolResult n i r s => tool_result_attrs_of n i r s extra
  | ToolError n i e s => tool_error_attrs n i e s extra
  | FlowStep k => flow_step_attrs k extra
  | FlowReasoning r s => flow_reasoning_attrs r s extra
  | FlowComplete s => flow_complete_attrs s extra
  end.

(** The event type the function names. *)
Definition helper_event (h : helper) : string :=
  match h with
  | AgentStart _ => EventType.AGENT_START
  | AgentComplete _ _ => EventType.AGENT_COMPLETE
  | AgentStep _ _ _ => EventType.AGENT_STEP
  | ModelRequest _ _ => EventType.MODEL_REQUEST
  | ModelResponse _ => EventType.MODEL_RESPONSE
  | ModelResponseChunk _ _ => EventType.MODEL_RESPONSE_CHUNK
  | ModelReasoning _ _ => EventType.MODEL_REASONING
  | ToolCall _ _ _ _ => EventType.TOOL_CALL
  | ToolResult _ _ _ _ => EventType.TOOL_RESULT
  | ToolError _ _ _ _ => EventType.TOOL_ERROR
  | FlowStep _ => EventType.FLOW_STEP
  | FlowReasoning _ _ => EventType.FLOW_REASONING
  | FlowComplete _ => EventType.FLOW_COMPLETE
  end.

(** The position of the function among the convenience functions. *)
Definition helper_index (h : helper) : nat :=
  match h with
  | AgentStart _ => 0
  | AgentComplete _ _ => 1
  | AgentStep _ _ _ => 2
  | ModelRequest _ _ => 3
  | ModelResponse _ => 4
  | ModelResponseChunk _ _ => 5
  | ModelReasoning _ _ => 6
  | ToolCall _ _ _ _ => 7
  | ToolResult _ _ _ _ => 8
  | ToolError _ _ _ _ => 9
  | FlowStep _ => 10
  | FlowReasoning _ _ => 11
  | FlowComplete _ => 12
  end.

(** The names of the function's parameters: a keyword argument with one
    of these names is bound to the parameter and is no key of [extra]. *)
Definition helper_params (h : helper) : list string :=
  match h with
  | AgentStart _ => ["agent_name"]
  | AgentComplete _ _ => ["agent_name"; "response"]
  | AgentStep _ _ _ => ["agent_name"; "step_number"; "step_type"]
  | ModelRequest _ _ => ["model"; "message_count"]
  | ModelResponse _ => ["response_type"]
  | ModelResponseChunk _ _ => ["chunk"; "index"]
  | ModelReasoning _ _ => ["reasoning"; "step"]
  | ToolCall _ _ _ _ => ["tool_name"; "tool_id"; "arguments"; "step"]
  | ToolResult _ _ _ _ => ["tool_name"; "tool_id"; "result"; "step"]
  | ToolError _ _ _ _ => ["tool_name"; "tool_id"; "error"; "step"]
  | FlowStep _ => ["step_number"]
  | FlowReasoning _ _ => ["reasoning"; "step"]
  | FlowComplete _ => ["step"]
  end.

(** An item that is present when its value is. *)
Definition item_if (key : string) (v : option value) : dict :=
  match v with
  | Some x => [(key, x)]
  | None => []
  end.

(** [v if v is not None], [s if s] and [d if d]. *)
Definition not_none (v : value) : option value :=
  match v with
  | VNone => None
  | _ => Some v
  end.

Definition nonempty_str (s : option string) : option value :=
  match s with
  | Some m => if str_truthy m then Some (VStr m) else None
  | None => None
  end.

Definition nonempty_dict (d : option dict) : option value :=
  match d with
  | Some a => if dict_truthy a then Some (VDict a) else None
  | None => None
  end.

(** The items of the mapping that stand before the keyword arguments:
    those of the dict display of the function. *)
Definition leading_items (h : helper) : dict :=
  match h with
  | AgentStart n => [("agent_name", VStr n)]
  | AgentComplete n _ => [("agent_name", VStr n)]
  | AgentStep n k t => [("agent_name", VStr n); ("step_number", VInt k); ("step_type", VStr t)]
  | ModelRequest _ _ => []
  | ModelResponse t => [("response_type", VStr t)]
  | ModelResponseChunk c i => [("chunk", VStr c); ("index", VInt i)]
  | ModelReasoning r _ => [("reasoning", VStr r)]
  | ToolCall n i _ _ => [("tool_name", VStr n); ("tool_id", VStr i)]
  | ToolResult n i _ _ => [("tool_name", VStr n); ("tool_id", VStr i)]
  | ToolError n i e _ => [("tool_name", VStr n); ("tool_id", VStr i); ("error", VStr e)]
  | FlowStep k => [("step_number", VInt k)]
  | FlowReasoning r _ => [("reasoning", VStr r)]
  | FlowComplete _ => []
  end.

(** The items that stand after them: those the function sets under a
    condition. *)
Definition trailing_items (h : helper) : dict :=
  match h with
  | AgentComplete _ r => item_if "response" (not_none r)
  | ModelRequest m c => item_if "model" (nonempty_str m)
                        ++ item_if "message_count" (option_map VInt c)
  | ModelReasoning _ s => item_if "step" (option_map VInt s)
  | ToolCall _ _ a s => item_if "arguments" (nonempty_dict a)
                        ++ item_if "step" (option_map VInt s)
  | ToolResult _ _ r s => item_if "result" (not_none r) ++ item_if "step" (option_map VInt s)
  | ToolError _ _ _ s => item_if "step" (option_map VInt s)
  | FlowReasoning _ s => item_if "step" (option_map VInt s)
  | FlowComplete s => item_if "step" (option_map VInt s)
  | _ => []
  end.

(** The arguments of the function that may hold a dict or a list. *)
Definition helper_payload (h : helper) : list value :=
  match h with
  | AgentComplete _ r => [r]
  | ToolCall _ _ (Some a) _ => [VDict a]
  | ToolResult _ _ r _ => [r]
  | _ => []
  end.

(** [json.dumps] is not called with the value, or encodes it. *)
Definition encodable (v : value) : bool :=
  negb (is_dict_or_list v)
  || match Json.dumps v with inr _ => true | inl _ => false end.

(** The event types no convenience function names. *)
Definition unused_event_types : list string :=
  [EventType.AGENT_ERROR; EventType.MODEL_REASONING_CHUNK; EventType.MODULE_START;
   EventType.MODULE_COMPLETE; EventType.MODULE_ERROR].

(** [s.startswith(p)] *)
Fixpoint startswith (p s : string) : bool :=
  match p, s with
  | EmptyString, _ => true
  | String a p', String b s' => Ascii.eqb a b && startswith p' s'
  | String _ _, EmptyString => false
  end.

(** ** Further sample stores and calls *)

(** Stream 0 with the events [a] and [b] queued and no sentinel. *)
Definition unclosed_world : World unit :=
  set_queue 0 [Some (named_event "a"); Some (named_event "b")] quiet_world.

(** Stream 0 closed after [a] and again after [b]. *)
Definition twice_closed_world : World unit :=
  set_queue 0 [Some (named_event "a"); None; Some (named_event "b"); None] quiet_world.

(** Inside the scope of stream 0, closed after the event [a]. *)
Definition closed_listening_world : World unit :=
  set_queue 0 [Some (named_event "a"); None] listening_world.

(** [add_tool_call_event("search", "id1", {"query": "weather"}, step=1)] *)
Definition search_call : helper :=
  ToolCall "search" "id1" (Some [("query", VStr "weather")]) (Some 1%Z).

(** [add_tool_call_event("search", "id1", {"tags": [{1, 2}]})] *)
Definition unencodable_call : helper :=
  ToolCall "search" "id1" (Some set_attrs) None.

(** [latency_ms=12] *)
Definition latency_extra : dict := [("latency_ms", VInt 12)].

(** [def cb(e): if e.name == name: raise UserError("boom")]; the list of
    the owner is left as it is. *)
Definition failing_on (name : string) : callback (list StreamEvent) :=
  fun event seen =>
    if String.eqb (se_name event) name then (inl (UserError "boom"), seen)
    else (inr tt, seen).

(** Stream 0 with [append_callback] and then [failing_on "b"] registered
    and the events [a], [b], [c] queued, closed. *)
Definition failing_world : World (list StreamEvent) :=
  set_callbacks 0 [pure_callback (fun e seen => seen ++ [e]); failing_on "b"]
    (set_queue 0 [Some (named_event "a"); Some (named_event "b");
                  Some (named_event "c"); None]
       (initial_world no_span sample_clock [])).

(** ** The input contract of [add_event] *)



(** * Properties *)

(** ** The store *)

Section StoreFacts.
Context {U : Type}.
Implicit Types (w : World U) (s : EventStream U).

Lemma stream_at_set_stream w sid sid' s :
  stream_at sid' (set_stream sid s w) = if decide (sid = sid') then s else stream_at sid' w.
Proof.
  unfold stream_at, set_stream; simpl.
  rewrite lookup_insert. destruct (decide (sid = sid')); reflexivity.
Qed.

Lemma stream_eta s : mkEventStream (_queue s) (_token s) (_callbacks s) = s.
Proof. destruct s; reflexivity. Qed.

Lemma queue_of_set_queue w sid sid' q :
  queue_of sid' (set_queue sid q w) = if decide (sid = sid') then q else queue_of sid' w.
Proof.
  unfold queue_of, set_queue. rewrite stream_at_set_stream.
  destruct (decide (sid = sid')); reflexivity.
Qed.

Lemma queue_of_set_queue_eq w sid q : queue_of sid (set_queue sid q w) = q.
Proof. rewrite queue_of_set_queue. destruct (decide (sid = sid)); congruence. Qed.

Lemma queue_of_set_queue_ne w sid sid' q :
  sid <> sid' -> queue_of sid' (set_queue sid q w) = queue_of sid' w.
Proof. intros. rewrite queue_of_set_queue. destruct (decide (sid = sid')); congruence. Qed.

Lemma queue_of_set_token w sid sid' t :
  queue_of sid' (set_token sid t w) = queue_of sid' w.
Proof.
  unfold queue_of, set_token. rewrite stream_at_set_stream.
  destruct (decide (sid = sid')); subst; reflexivity.
Qed.

Lemma queue_of_set_callbacks w sid sid' cbs :
  queue_of sid' (set_callbacks sid cbs w) = queue_of sid' w.
Proof.
  unfold queue_of, set_callbacks. rewrite stream_at_set_stream.
  destruct (decide (sid = sid')); subst; reflexivity.
Qed.

Lemma callbacks_set_queue w sid sid' q :
  _callbacks (stream_at sid' (set_queue sid q w)) = _callbacks (stream_at sid' w).
Proof.
  unfold set_queue. rewrite stream_at_set_stream.
  destruct (decide (sid = sid')); subst; reflexivity.
Qed.

Lemma token_set_queue w sid sid' q :
  _token (stream_at sid' (set_queue sid q w)) = _token (stream_at sid' w).
Proof.
  unfold set_queue. rewrite stream_at_set_stream.
  destruct (decide (sid = sid')); subst; reflexivity.
Qed.

Lemma token_set_token w sid sid' t :
  _token (stream_at sid' (set_token sid t w))
  = if decide (sid = sid') then t else _token (stream_at sid' w).
Proof.
  unfold set_token. rewrite stream_at_set_stream.
  destruct (decide (sid = sid')); subst; reflexivity.
Qed.

Lemma callbacks_set_token w sid sid' t :
  _callbacks (stream_at sid' (set_token sid t w)) = _callbacks (stream_at sid' w).
Proof.
  unfold set_token. rewrite stream_at_set_stream.
  destruct (decide (sid = sid')); subst; reflexivity.
Qed.

Lemma set_queue_twice w sid q q' :
  set_queue sid q' (set_queue sid q w) = set_queue sid q' w.
Proof.
  unfold set_queue at 1. rewrite token_set_queue, callbacks_set_queue.
  unfold set_queue, set_stream, set_streams; simpl.
  rewrite insert_insert_eq. reflexivity.
Qed.

Lemma bind_returns {A B} (m : M A) (k : A -> M B) w a w' :
  m w = (inr a, w') -> bind m k w = k a w'.
Proof. intros H. unfold bind. rewrite H. reflexivity. Qed.

Lemma bind_raises {A B} (m : M A) (k : A -> M B) w e w' :
  m w = (inl e, w') -> bind m k w = (inl e, w').
Proof. intros H. unfold bind. rewrite H. reflexivity. Qed.

Lemma stream_at_set_event_queue w sid x :
  stream_at sid (set_event_queue x w) = stream_at sid w.
Proof. reflexivity. Qed.

Lemma stream_at_log_call w sid c : stream_at sid (log_call c w) = stream_at sid w.
Proof. reflexivity. Qed.

Lemma stream_at_set_user w sid u : stream_at sid (set_user u w) = stream_at sid w.
Proof. reflexivity. Qed.

Lemma queue_of_set_event_queue w sid x :
  queue_of sid (set_event_queue x w) = queue_of sid w.
Proof. reflexivity. Qed.

Lemma queue_of_log_call w sid c : queue_of sid (log_call c w) = queue_of sid w.
Proof. reflexivity. Qed.

Lemma queue_of_set_user w sid u : queue_of sid (set_user u w) = queue_of sid w.
Proof. reflexivity. Qed.

Lemma slot_set_token w sid t : _event_queue (set_token sid t w) = _event_queue w.
Proof. reflexivity. Qed.

Lemma slot_set_queue w sid q : _event_queue (set_queue sid q w) = _event_queue w.
Proof. reflexivity. Qed.

Lemma slot_set_stream w sid s : _event_queue (set_stream sid s w) = _event_queue w.
Proof. reflexivity. Qed.

Lemma slot_log_call w c : _event_queue (log_call c w) = _event_queue w.
Proof. reflexivity. Qed.

Lemma slot_set_event_queue w x : _event_queue (set_event_queue x w) = x.
Proof. reflexivity. Qed.

End StoreFacts.

Ltac store_simpl :=
  repeat first
    [ rewrite queue_of_set_queue_eq | rewrite queue_of_set_token
    | rewrite queue_of_set_callbacks | rewrite callbacks_set_queue
    | rewrite token_set_queue | rewrite callbacks_set_token
    | rewrite stream_at_set_event_queue | rewrite stream_at_log_call
    | rewrite stream_at_set_user | rewrite queue_of_set_event_queue
    | rewrite queue_of_log_call | rewrite queue_of_set_user
    | rewrite slot_set_token | rewrite slot_set_queue | rewrite slot_set_stream
    | rewrite slot_log_call | rewrite slot_set_event_queue ].

(** ** The snapshot accessor *)

Section Snapshot.
Context {U : Type}.
Implicit Types (w : World U).

Lemma events_loop_spec (self : nat) (collected : list StreamEvent) w :
  events_loop self collected w
  = (inr (collected ++ events_in (queue_of self w)), emptied self w).
Proof.
  funelim (events_loop self collected w).
  - unfold emptied. rewrite e. simpl. rewrite app_nil_r. reflexivity.
  - rewrite H. unfold emptied. rewrite queue_of_set_queue_eq, Hq. f_equal.
    + f_equal. destruct event; simpl; [rewrite <- app_assoc|]; reflexivity.
    + destruct rest; [|rewrite set_queue_twice]; reflexivity.
Qed.

Lemma queue_of_emptied self w : queue_of self (emptied self w) = [].
Proof.
  unfold emptied. destruct (queue_of self w) eqn:Hq; [exact Hq|].
  apply queue_of_set_queue_eq.
Qed.

Lemma anext_empty self w :
  queue_of self w = [] -> anext self w = (inr Suspended, w).
Proof. intros Hq. unfold anext, bind, get_world. rewrite Hq. reflexivity. Qed.

Lemma anext_sentinel self w rest :
  queue_of self w = None :: rest ->
  anext self w = (inr StopAsyncIteration, set_queue self rest w).
Proof. intros Hq. unfold anext, bind, get_world. rewrite Hq. reflexivity. Qed.

Lemma queue_of_close self w w' :
  close self w = (inr tt, w') -> queue_of self w' = queue_of self w ++ [None].
Proof.
  unfold close, put_nowait. intros [= <-].
  change (queue_of self (set_queue self (queue_of self w ++ [None]) w)
          = queue_of self w ++ [None]).
  apply queue_of_set_queue_eq.
Qed.

Lemma close_returns self w : exists w', close self w = (inr tt, w').
Proof. eexists. reflexivity. Qed.

(** C10: the [events] property returns at once, with exactly the
    non-sentinel items that were queued, in queue order; it takes every
    item out of the queue, sentinels included, wherever they stand; the
    queue is empty afterwards, so that a drain started then waits until
    [close] puts a new sentinel. *)
Theorem events_snapshot (self : nat) (w : World U) :
  events self w = (inr (events_in (queue_of self w)), emptied self w)
  /\ (forall q1 q2, queue_of self w = q1 ++ None :: q2 ->
        events_in (queue_of self w) = events_in q1 ++ events_in q2)
  /\ queue_of self (emptied self w) = []
  /\ anext self (emptied self w) = (inr Suspended, emptied self w)
  /\ (exists w', close self (emptied self w) = (inr tt, w')
                 /\ fst (anext self w') = inr StopAsyncIteration).
Proof.
  repeat split.
  - unfold events. rewrite events_loop_spec. reflexivity.
  - intros q1 q2 ->. unfold events_in. rewrite omap_app. reflexivity.
  - apply queue_of_emptied.
  - apply anext_empty, queue_of_emptied.
  - destruct (close_returns self (emptied self w)) as [w' Hc].
    exists w'. split; [exact Hc|].
    apply queue_of_close in Hc. rewrite queue_of_emptied in Hc. simpl in Hc.
    rewrite (anext_sentinel _ _ _ Hc). reflexivity.
Qed.

End Snapshot.

(** ** Fixed-width hexadecimal *)

Module FmtFacts.
Import Fmt.

Lemma hex_val_digit d : (d < 16)%N -> hex_val (hex_digit d) = Some d.
Proof.
  intros H.
  assert (Hc : In d (map N.of_nat (seq 0 16))).
  { apply in_map_iff. exists (N.to_nat d). split; [lia|]. apply in_seq. lia. }
  simpl in Hc.
  repeat (destruct Hc as [<- | Hc]; [vm_compute; reflexivity|]).
  destruct Hc.
Qed.

Lemma string_length_of_list l : String.length (string_of_list_ascii l) = length l.
Proof. induction l; simpl; congruence. Qed.

Lemma hex_digits_length fuel :
  forall n acc k, (n < 16 ^ N.of_nat k)%N ->
    length (hex_digits fuel n acc) <= k + length acc.
Proof.
  induction fuel as [|fuel IH]; intros n acc k Hn; simpl; [lia|].
  destruct (N.eqb_spec n 0) as [->|Hnz]; [lia|].
  destruct k as [|k].
  - simpl in Hn. lia.
  - assert (Hdiv : (n / 16 < 16 ^ N.of_nat k)%N).
    { apply N.Div0.div_lt_upper_bound.
      replace (N.of_nat (S k)) with (N.succ (N.of_nat k)) in Hn by lia.
      rewrite N.pow_succ_r' in Hn. exact Hn. }
    specialize (IH _ (hex_digit (n mod 16) :: acc) _ Hdiv). simpl in IH. lia.
Qed.

Lemma format_x_length n k :
  0 < k -> (n < 16 ^ N.of_nat k)%N -> length (format_x n) <= k.
Proof.
  intros Hk Hn. unfold format_x.
  destruct (N.eqb_spec n 0); simpl; [lia|].
  pose proof (hex_digits_length (N.to_nat (N.size n)) n [] k Hn) as H.
  simpl in H. lia.
Qed.

(** Within range, the text has exactly the width asked for. *)
Lemma format_0x_length w n :
  0 < w -> (n < 16 ^ N.of_nat w)%N -> String.length (format_0x w n) = w.
Proof.
  intros Hw Hn. unfold format_0x.
  rewrite string_length_of_list, length_app, repeat_length.
  pose proof (format_x_length n w Hw Hn). lia.
Qed.

Lemma parse_hex_from_shift l :
  forall a, parse_hex_from a l
            = option_map (fun v => (a * 16 ^ N.of_nat (length l) + v)%N)
                         (parse_hex_from 0 l).
Proof.
  induction l as [|c l IH]; intros a; simpl.
  - f_equal. lia.
  - destruct (hex_val c) as [d|]; [|reflexivity].
    rewrite (IH (16 * a + d)%N), (IH (16 * 0 + d)%N).
    destruct (parse_hex_from 0 l) as [v|]; simpl; [|reflexivity].
    f_equal.
    replace (N.of_nat (S (length l))) with (N.succ (N.of_nat (length l))) by lia.
    rewrite N.pow_succ_r'. lia.
Qed.

Lemma parse_hex_digits fuel :
  forall n l v, (n < 2 ^ N.of_nat fuel)%N ->
    parse_hex_from 0 l = Some v ->
    parse_hex_from 0 (hex_digits fuel n l)
    = Some (n * 16 ^ N.of_nat (length l) + v)%N.
Proof.
  induction fuel as [|fuel IH]; intros n l v Hn Hl; simpl.
  - simpl in Hn. assert (n = 0%N) as -> by lia. rewrite Hl. f_equal.
  - destruct (N.eqb_spec n 0) as [->|Hnz]; [rewrite Hl; f_equal|].
    assert (Hdiv : (n / 16 < 2 ^ N.of_nat fuel)%N).
    { replace (N.of_nat (S fuel)) with (N.succ (N.of_nat fuel)) in Hn by lia.
      rewrite N.pow_succ_r' in Hn.
      apply N.Div0.div_lt_upper_bound. lia. }
    assert (Hmod : (n mod 16 < 16)%N) by (apply N.mod_lt; lia).
    rewrite (IH (n / 16)%N (hex_digit (n mod 16) :: l)
                ((n mod 16) * 16 ^ N.of_nat (length l) + v)%N Hdiv).
    + f_equal. simpl length.
      replace (N.of_nat (S (length l))) with (N.succ (N.of_nat (length l))) by lia.
      rewrite N.pow_succ_r'.
      pose proof (N.div_mod n 16 ltac:(lia)) as Hdm.
      set (p := (16 ^ N.of_nat (length l))%N) in *. nia.
    + simpl. rewrite (hex_val_digit _ Hmod), parse_hex_from_shift, Hl. simpl.
      f_equal; lia.
Qed.

Lemma parse_hex_zeros k :
  forall l, parse_hex_from 0 (repeat "0"%char k ++ l) = parse_hex_from 0 l.
Proof. induction k as [|k IH]; intros l; simpl; [reflexivity|apply IH]. Qed.

(** The text reads back as the number it was made from. *)
Lemma parse_hex_format_0x w n : parse_hex (format_0x w n) = Some n.
Proof.
  unfold parse_hex, format_0x.
  rewrite list_ascii_of_string_of_list_ascii, parse_hex_zeros.
  unfold format_x. destruct (N.eqb_spec n 0) as [->|Hnz]; [reflexivity|].
  rewrite (parse_hex_digits _ n [] 0%N).
  - simpl. f_equal; lia.
  - rewrite N2Nat.id. apply N.size_gt.
  - reflexivity.
Qed.

End FmtFacts.

Arguments Fmt.format_0x : simpl never.
Arguments Fmt.parse_hex : simpl never.
Arguments Json.dumps : simpl never.

(** ** JSON-representable values *)

Section Representable.

#[local] Arguments Json.dumps v : simpl nomatch.





End Representable.

(** ** The sink *)

Section Sink.
Context {U : Type}.
Implicit Types (w : World U) (attrs : dict).

Lemma world_eta w :
  mkWorld (current_span w) (_event_queue w) (streams w) (clock w) (ticks w)
          (calls w) (user w) = w.
Proof. destruct w; reflexivity. Qed.

Lemma span_eta sp :
  mkSpan (sp_is_recording sp) (sp_name sp) (sp_context sp) (sp_events sp) = sp.
Proof. destruct sp; reflexivity. Qed.

Lemma serialize_spec attrs :
  serializable attrs = true ->
  forall acc w,
    serialize attrs acc w
    = (inr (fold_left (fun d kv => dict_set (fst kv) (persisted (snd kv)) d) attrs acc),
       mkWorld (current_span w) (_event_queue w) (streams w) (clock w) (ticks w)
               (calls w ++ map CJsonDumps (nested_values attrs)) (user w)).
Proof.
  induction attrs as [|[k v] attrs IH]; intros Hok acc w.
  - simpl. unfold ret. rewrite app_nil_r, world_eta. reflexivity.
  - simpl in Hok. apply andb_prop in Hok as [Hv Hrest].
    simpl serialize. unfold nested_values. simpl map. rewrite filter_cons.
    cbn [fold_left fst snd]. unfold persisted at 2, json_text.
    destruct (is_dict_or_list v) eqn:Hn; simpl in Hv.
    + rewrite decide_True by reflexivity.
      unfold bind, json_dumps.
      destruct (Json.dumps v) as [e|s]; [discriminate|].
      rewrite (IH Hrest). simpl. rewrite <- app_assoc. reflexivity.
    + rewrite decide_False by discriminate. rewrite (IH Hrest). reflexivity.
Qed.

(** A value without a JSON encoding stops the loop with the [TypeError]
    of [json.dumps]; only [json.dumps] has been called by then. *)
Lemma serialize_raises attrs :
  serializable attrs = false ->
  forall acc w, exists e vs,
    serialize attrs acc w
    = (inl e, mkWorld (current_span w) (_event_queue w) (streams w) (clock w)
                      (ticks w) (calls w ++ map CJsonDumps vs) (user w)).
Proof.
  induction attrs as [|[k v] attrs IH]; intros Hok acc w; [discriminate|].
  simpl in Hok. simpl serialize.
  destruct (is_dict_or_list v) eqn:Hn; simpl in Hok.
  - unfold bind, json_dumps. destruct (Json.dumps v) as [e|s]; simpl in Hok.
    + exists e, [v]. reflexivity.
    + destruct (IH Hok (dict_set k (VStr s) acc) (log_call (CJsonDumps v) w))
        as (e & vs & He).
      exists e, (v :: vs). rewrite He. simpl. rewrite <- app_assoc. reflexivity.
  - exact (IH Hok _ w).
Qed.

Lemma add_event_raises name attributes w :
  serializable (or_empty attributes) = false ->
  exists e vs,
    add_event name attributes w
    = (inl e, mkWorld (current_span w) (_event_queue w) (streams w) (clock w)
                      (ticks w) (calls w ++ map CJsonDumps vs) (user w)).
Proof.
  intros Hok. unfold add_event, bind, get_current_span.
  destruct (serialize_raises _ Hok [] w) as (e & vs & ->).
  exists e, vs. reflexivity.
Qed.

(** [add_event], in closed form, when every nested value encodes. *)
Lemma add_event_spec name attributes w :
  serializable (or_empty attributes) = true ->
  add_event name attributes w = (inr tt, emitted name (or_empty attributes) w).
Proof.
  intros Hok. unfold add_event, bind, get_current_span.
  rewrite (serialize_spec _ Hok). unfold emitted, span_after, span_calls, stream_calls.
  unfold emit_to_span, emit_to_queue, event_queue_get, bind, ret, span_add_event,
    get_span_context, time_ns, new_StreamEvent, put_nowait, event_of.
  cbn [current_span _event_queue streams clock ticks calls user].
  fold (serialized_attrs_of (or_empty attributes)).
  destruct (sp_is_recording (current_span w)) eqn:Hrec;
    destruct (_event_queue w) as [q|] eqn:Hq;
    unfold queue_of, set_queue, stream_at, set_stream, set_streams, log_call,
      set_ticks, set_span;
    cbn [current_span _event_queue streams clock ticks calls user
         sp_is_recording sp_name sp_context sp_events _queue _token _callbacks];
    rewrite ?Hrec, ?Hq, ?span_eta, ?app_nil_r, <- ?app_assoc;
    cbn [app]; reflexivity.
Qed.

Lemma dict_set_fresh k v (d : dict) :
  k ∉ dict_keys d -> dict_set k v d = d ++ [(k, v)].
Proof.
  induction d as [|[k' x] d IH]; intros Hk; simpl; [reflexivity|].
  unfold dict_keys in Hk. simpl in Hk. apply not_elem_of_cons in Hk as [Hne Hk].
  destruct (String.eqb_spec k k') as [->|_]; [congruence|].
  rewrite IH by exact Hk. reflexivity.
Qed.

Lemma serialized_fold attrs :
  forall acc, NoDup (dict_keys acc ++ dict_keys attrs) ->
    fold_left (fun d kv => dict_set (fst kv) (persisted (snd kv)) d) attrs acc
    = acc ++ map (fun kv => (fst kv, persisted (snd kv))) attrs.
Proof.
  induction attrs as [|[k v] attrs IH]; intros acc Hnd; simpl.
  - rewrite app_nil_r. reflexivity.
  - unfold dict_keys in Hnd. simpl in Hnd.
    apply NoDup_app in Hnd as (Hacc & Hdisj & Hattrs).
    apply NoDup_cons in Hattrs as [Hk Hattrs].
    assert (Hfresh : k ∉ dict_keys acc).
    { intros Hin. apply (Hdisj k Hin). left. }
    rewrite dict_set_fresh by exact Hfresh.
    rewrite IH.
    + rewrite <- app_assoc. reflexivity.
    + unfold dict_keys. rewrite map_app. simpl.
      apply NoDup_app. split; [|split].
      * apply NoDup_app. split; [exact Hacc|split].
        -- intros x Hx Hx'. apply list_elem_of_singleton in Hx'. subst. exact (Hfresh Hx).
        -- apply NoDup_singleton.
      * intros x Hx Hx'. apply elem_of_app in Hx as [Hx|Hx].
        -- apply (Hdisj x Hx). right. exact Hx'.
        -- apply list_elem_of_singleton in Hx. subst. exact (Hk Hx').
      * exact Hattrs.
Qed.

(** With distinct keys, as in any [dict], [serialized_attrs] holds the
    keys of [attrs] in their order, each with its value as persisted. *)
Lemma serialized_attrs_of_map attrs :
  NoDup (dict_keys attrs) ->
  serialized_attrs_of attrs = map (fun kv => (fst kv, persisted (snd kv))) attrs.
Proof. intros Hnd. unfold serialized_attrs_of. rewrite serialized_fold; auto. Qed.

Lemma dict_get_map_persisted k attrs :
  dict_get k (map (fun kv => (fst kv, persisted (snd kv))) attrs)
  = option_map persisted (dict_get k attrs).
Proof.
  induction attrs as [|[k' v] attrs IH]; simpl; [reflexivity|].
  destruct (String.eqb k k'); [reflexivity|exact IH].
Qed.

Lemma dict_keys_map_persisted attrs :
  dict_keys (map (fun kv => (fst kv, persisted (snd kv))) attrs) = dict_keys attrs.
Proof. unfold dict_keys. rewrite map_map. reflexivity. Qed.

Lemma serializable_get attrs k v :
  serializable attrs = true -> dict_get k attrs = Some v ->
  is_dict_or_list v = true -> Json.dumps v = inr (json_text v).
Proof.
  induction attrs as [|[k' x] attrs IH]; simpl; [discriminate|].
  intros Hok Hget Hn. apply andb_prop in Hok as [Hx Hrest].
  destruct (String.eqb k k').
  - injection Hget as ->. rewrite Hn in Hx. simpl in Hx.
    unfold json_text. destruct (Json.dumps v); [discriminate|reflexivity].
  - exact (IH Hrest Hget Hn).
Qed.

Lemma queue_of_emitted name attrs w q :
  _event_queue w = Some q ->
  queue_of q (emitted name attrs w)
  = queue_of q w
    ++ [Some (event_of (current_span w) (clock w (ticks w)) name attrs)].
Proof.
  intros Hq. unfold emitted. rewrite Hq.
  unfold queue_of at 1, stream_at at 1. simpl. rewrite lookup_insert_eq. reflexivity.
Qed.

Lemma span_events_emitted name attrs w :
  sp_events (current_span (emitted name attrs w))
  = sp_events (current_span w)
    ++ (if sp_is_recording (current_span w)
        then [(name, serialized_attrs_of attrs)] else []).
Proof.
  unfold emitted, span_after.
  destruct (_event_queue w), (sp_is_recording (current_span w)); simpl;
    rewrite ?app_nil_r; reflexivity.
Qed.

(** C1: [add_event] hands the span a mapping with the keys of the
    attributes, in which a [dict] or [list] value is replaced by its JSON
    text and any other value is the value itself; the event put on an
    active queue carries the attributes as they were given. *)
Theorem dual_emission name (attributes : option dict) (w : World U) :
  let attrs := or_empty attributes in
  NoDup (dict_keys attrs) ->
  serializable attrs = true ->
  exists w',
    add_event name attributes w = (inr tt, w')
    /\ (sp_is_recording (current_span w) = true ->
        exists handed,
          sp_events (current_span w') = sp_events (current_span w) ++ [(name, handed)]
          /\ In (CSpanAddEvent name handed) (calls w')
          /\ dict_keys handed = dict_keys attrs
          /\ forall k v, dict_get k attrs = Some v ->
               if is_dict_or_list v
               then exists text, Json.dumps v = inr text
                                 /\ dict_get k handed = Some (VStr text)
               else dict_get k handed = Some v)
    /\ (forall q, _event_queue w = Some q ->
        exists e, queue_of q w' = queue_of q w ++ [Some e]
                  /\ se_name e = name /\ se_attributes e = attrs).
Proof.
  intros attrs Hnd Hok. exists (emitted name attrs w).
  split; [apply add_event_spec; exact Hok|]. split.
  - intros Hrec. exists (serialized_attrs_of attrs).
    rewrite span_events_emitted, Hrec. split; [reflexivity|]. split.
    { unfold emitted, span_calls. rewrite Hrec.
      destruct (_event_queue w); simpl; rewrite !in_app_iff; simpl; tauto. }
    rewrite (serialized_attrs_of_map _ Hnd). split.
    + apply dict_keys_map_persisted.
    + intros k v Hget. rewrite dict_get_map_persisted, Hget. simpl.
      unfold persisted. destruct (is_dict_or_list v) eqn:Hn; [|reflexivity].
      exists (json_text v). split; [|reflexivity].
      exact (serializable_get _ _ _ Hok Hget Hn).
  - intros q Hq. eexists. split; [apply queue_of_emitted; exact Hq|].
    split; reflexivity.
Qed.

(** C8: with a queue active, the event [add_event] puts on it takes its
    correlation fields from the span when the span records: the span's
    name, its span identifier as 16 hexadecimal characters and its trace
    identifier as 32 (for identifiers of 64 and 128 bits), each reading
    back as the identifier; otherwise the three fields are empty. *)
Theorem correlation_fields name (attributes : option dict) (w : World U) (q : nat) :
  _event_queue w = Some q ->
  serializable (or_empty attributes) = true ->
  exists w' e,
    add_event name attributes w = (inr tt, w')
    /\ queue_of q w' = queue_of q w ++ [Some e]
    /\ In (CStreamEvent e) (calls w')
    /\ let sp := current_span w in
       let sid := ctx_span_id (sp_context sp) in
       let tid := ctx_trace_id (sp_context sp) in
       if sp_is_recording sp
       then se_span_name e = sp_name sp
            /\ se_span_id e = Fmt.format_0x 16 sid
            /\ se_trace_id e = Fmt.format_0x 32 tid
            /\ Fmt.parse_hex (se_span_id e) = Some sid
            /\ Fmt.parse_hex (se_trace_id e) = Some tid
            /\ ((sid < 2 ^ 64)%N -> String.length (se_span_id e) = 16)
            /\ ((tid < 2 ^ 128)%N -> String.length (se_trace_id e) = 32)
       else se_span_name e = EmptyString
            /\ se_span_id e = EmptyString
            /\ se_trace_id e = EmptyString.
Proof.
  intros Hq Hok.
  exists (emitted name (or_empty attributes) w).
  exists (event_of (current_span w) (clock w (ticks w)) name (or_empty attributes)).
  split; [apply add_event_spec; exact Hok|].
  split; [apply queue_of_emitted; exact Hq|]. split.
  { unfold emitted, stream_calls. rewrite Hq. cbn [calls].
    apply in_or_app. right. apply in_or_app. right. apply in_or_app. right.
    right. left. reflexivity. }
  unfold event_of. cbn [se_span_name se_span_id se_trace_id].
  destruct (sp_is_recording (current_span w));
    [|split; [reflexivity|split; reflexivity]].
  split; [reflexivity|]. split; [reflexivity|]. split; [reflexivity|].
  split; [|split; [|split]].
  - apply FmtFacts.parse_hex_format_0x.
  - apply FmtFacts.parse_hex_format_0x.
  - intros H. apply FmtFacts.format_0x_length; [lia|].
    change (16 ^ N.of_nat 16)%N with (2 ^ 64)%N. exact H.
  - intros H. apply FmtFacts.format_0x_length; [lia|].
    change (16 ^ N.of_nat 32)%N with (2 ^ 128)%N. exact H.
Qed.

Lemma span_calls_not_stream sp name attrs c :
  In c (span_calls sp name attrs) -> is_stream_call c = false.
Proof.
  unfold span_calls. rewrite in_app_iff, in_map_iff.
  intros [(v & <- & _)|H]; [reflexivity|].
  destruct (sp_is_recording sp); simpl in H; [|tauto].
  destruct H as [<-|[]]. reflexivity.
Qed.

Lemma add_event_no_queue name (attributes : option dict) (w : World U) r w' :
  _event_queue w = None ->
  add_event name attributes w = (r, w') ->
  streams w' = streams w
  /\ ticks w' = ticks w
  /\ _event_queue w' = None
  /\ exists made, calls w' = calls w ++ made
                  /\ forall c, In c made -> is_stream_call c = false.
Proof.
  intros Hq Hrun.
  destruct (serializable (or_empty attributes)) eqn:Hok.
  - rewrite (add_event_spec _ _ _ Hok) in Hrun. injection Hrun as <- <-.
    unfold emitted. rewrite Hq. cbn [streams ticks _event_queue calls].
    split; [reflexivity|]. split; [reflexivity|]. split; [reflexivity|].
    eexists. split; [reflexivity|]. apply span_calls_not_stream.
  - destruct (add_event_raises name _ w Hok) as (e & vs & Hr).
    rewrite Hr in Hrun. injection Hrun as <- <-.
    cbn [streams ticks _event_queue calls].
    split; [reflexivity|]. split; [reflexivity|]. split; [exact Hq|].
    eexists. split; [reflexivity|].
    intros c Hc. apply in_map_iff in Hc as (v & <- & _). reflexivity.
Qed.

(** C5: with no queue active, [add_event] does nothing of its streaming
    step: whatever it returns, no stream is touched, the clock is not
    read, and every call it makes is a [json.dumps] for the span or the
    span's [add_event]; no [StreamEvent] is built and nothing is put on
    a queue.  When the nested values encode it returns, having made
    exactly the calls of the span. *)
Theorem no_streaming_without_queue name (attributes : option dict) (w : World U) :
  _event_queue w = None ->
  (forall r w', add_event name attributes w = (r, w') ->
     streams w' = streams w
     /\ ticks w' = ticks w
     /\ _event_queue w' = None
     /\ exists made, calls w' = calls w ++ made
                     /\ forall c, In c made -> is_stream_call c = false)
  /\ (serializable (or_empty attributes) = true ->
      exists w', add_event name attributes w = (inr tt, w')
                 /\ calls w' = calls w
                               ++ span_calls (current_span w) name (or_empty attributes)).
Proof.
  intros Hq. split.
  - intros r w' Hrun. exact (add_event_no_queue _ _ _ _ _ Hq Hrun).
  - intros Hok. eexists. split; [apply add_event_spec; exact Hok|].
    unfold emitted. rewrite Hq. reflexivity.
Qed.


Lemma emits_spec (cs : list (string * option dict)) :
  all_serializable cs = true ->
  forall w, emits cs w = (inr tt, emitted_all cs w).
Proof.
  induction cs as [|[name attributes] cs IH]; intros Hok w; [reflexivity|].
  simpl in Hok. apply andb_prop in Hok as [Hc Hrest].
  simpl. unfold bind. rewrite (add_event_spec _ _ _ Hc). apply IH, Hrest.
Qed.


(** ** Runs of [add_event] calls *)

Lemma event_of_span_after sp name attrs t name' attrs' :
  event_of (span_after sp name attrs) t name' attrs' = event_of sp t name' attrs'.
Proof. unfold span_after, event_of. destruct (sp_is_recording sp) eqn:H; simpl; rewrite ?H; reflexivity. Qed.

Lemma events_of_span_after sp name attrs clk cs :
  forall t, events_of (span_after sp name attrs) clk t cs = events_of sp clk t cs.
Proof.
  induction cs as [|[n a] cs IH]; intros t; simpl; [reflexivity|].
  rewrite event_of_span_after, IH. reflexivity.
Qed.

Lemma slot_emitted name attrs w : _event_queue (emitted name attrs w) = _event_queue w.
Proof. unfold emitted. destruct (_event_queue w); reflexivity. Qed.

Lemma clock_emitted name attrs w : clock (emitted name attrs w) = clock w.
Proof. unfold emitted. destruct (_event_queue w); reflexivity. Qed.

Lemma user_emitted name attrs w : user (emitted name attrs w) = user w.
Proof. unfold emitted. destruct (_event_queue w); reflexivity. Qed.

Lemma span_emitted name attrs w :
  current_span (emitted name attrs w) = span_after (current_span w) name attrs.
Proof. unfold emitted. destruct (_event_queue w); reflexivity. Qed.

Lemma ticks_emitted name attrs w :
  ticks (emitted name attrs w)
  = match _event_queue w with Some _ => S (ticks w) | None => ticks w end.
Proof. unfold emitted. destruct (_event_queue w); reflexivity. Qed.

Lemma stream_at_emitted name attrs w q :
  stream_at q (emitted name attrs w)
  = mkEventStream
      (queue_of q w
       ++ items_for q (_event_queue w)
            [event_of (current_span w) (clock w (ticks w)) name attrs])
      (_token (stream_at q w)) (_callbacks (stream_at q w)).
Proof.
  unfold emitted, items_for, queue_of.
  destruct (_event_queue w) as [q0|]; unfold stream_at; cbn [streams].
  - rewrite lookup_insert. destruct (decide (q0 = q)) as [->|Hne]; simpl.
    + reflexivity.
    + rewrite app_nil_r. symmetry. apply stream_eta.
  - rewrite app_nil_r. symmetry. apply stream_eta.
Qed.

Lemma stream_at_emitted_all (cs : list (string * option dict)) :
  forall w q,
    stream_at q (emitted_all cs w)
    = mkEventStream
        (queue_of q w
         ++ items_for q (_event_queue w)
              (events_of (current_span w) (clock w) (ticks w) cs))
        (_token (stream_at q w)) (_callbacks (stream_at q w)).
Proof.
  induction cs as [|[name attributes] cs IH]; intros w q; simpl.
  - unfold items_for, queue_of. destruct (_event_queue w) as [q0|];
      [destruct (decide (q0 = q))|]; simpl; rewrite app_nil_r; symmetry; apply stream_eta.
  - rewrite IH. unfold queue_of. rewrite stream_at_emitted. cbn [_queue _token _callbacks].
    rewrite slot_emitted, clock_emitted, span_emitted, ticks_emitted, events_of_span_after.
    unfold items_for, queue_of. destruct (_event_queue w) as [q0|].
    + destruct (decide (q0 = q)); simpl; rewrite <- ?app_assoc; reflexivity.
    + simpl. rewrite !app_nil_r. reflexivity.
Qed.

Lemma slot_emitted_all (cs : list (string * option dict)) :
  forall w, _event_queue (emitted_all cs w) = _event_queue w.
Proof.
  induction cs as [|[n a] cs IH]; intros w; simpl; [reflexivity|].
  rewrite IH. apply slot_emitted.
Qed.

Lemma user_emitted_all (cs : list (string * option dict)) :
  forall w, user (emitted_all cs w) = user w.
Proof.
  induction cs as [|[n a] cs IH]; intros w; simpl; [reflexivity|].
  rewrite IH. apply user_emitted.
Qed.

Lemma clock_emitted_all (cs : list (string * option dict)) :
  forall w, clock (emitted_all cs w) = clock w.
Proof.
  induction cs as [|[n a] cs IH]; intros w; simpl; [reflexivity|].
  rewrite IH. apply clock_emitted.
Qed.

Lemma ticks_emitted_all (cs : list (string * option dict)) :
  forall w, ticks (emitted_all cs w)
            = match _event_queue w with
              | Some _ => ticks w + length cs
              | None => ticks w
              end.
Proof.
  induction cs as [|[n a] cs IH]; intros w; simpl.
  - destruct (_event_queue w); lia.
  - rewrite IH, slot_emitted, ticks_emitted. destruct (_event_queue w); lia.
Qed.

Lemma events_of_span_emitted_all (cs : list (string * option dict)) :
  forall w clk t cs',
    events_of (current_span (emitted_all cs w)) clk t cs'
    = events_of (current_span w) clk t cs'.
Proof.
  induction cs as [|[n a] cs IH]; intros w clk t cs'; simpl; [reflexivity|].
  rewrite IH, span_emitted. apply events_of_span_after.
Qed.

End Sink.

(** ** The stream as a scope *)

Section Scope.
Context {U : Type}.
Implicit Types (w : World U).

Lemma enter_spec self w :
  __enter__ self w
  = (inr self,
     set_token self (Some (mkToken (_event_queue w) false))
               (set_event_queue (Some self) w)).
Proof. reflexivity. Qed.

Lemma aenter_spec self w :
  __aenter__ self w
  = (inr self,
     set_token self (Some (mkToken (_event_queue w) false))
               (set_event_queue (Some self) w)).
Proof. reflexivity. Qed.

Lemma reset_queue_spec self w old :
  _token (stream_at self w) = Some (mkToken old false) ->
  reset_queue self w
  = (inr tt, set_token self (Some (mkToken old true)) (set_event_queue old w)).
Proof. intros Ht. unfold reset_queue, bind, get_world. rewrite Ht. reflexivity. Qed.

Lemma reset_queue_used self w old :
  _token (stream_at self w) = Some (mkToken old true) ->
  reset_queue self w = (inl (RuntimeError "Token has already been used once"), w).
Proof. intros Ht. unfold reset_queue, bind, get_world. rewrite Ht. reflexivity. Qed.

Lemma put_nowait_spec q x w :
  put_nowait q x w
  = (inr tt, log_call (CPutNowait q x) (set_queue q (queue_of q w ++ [x]) w)).
Proof. reflexivity. Qed.

Lemma queue_of_init w :
  queue_of (fresh (dom (streams w))) (set_stream (fresh (dom (streams w))) new_EventStream w)
  = [].
Proof. unfold queue_of. rewrite stream_at_set_stream, decide_True; reflexivity. Qed.

Lemma token_entered self w :
  _token (stream_at self (set_token self (Some (mkToken (_event_queue w) false))
                                    (set_event_queue (Some self) w)))
  = Some (mkToken (_event_queue w) false).
Proof. rewrite token_set_token, decide_True; reflexivity. Qed.

(** Leaving the synchronous scope: the slot is put back and the queue is
    as the body left it. *)
Lemma with_stream_spec {A} self (body : nat -> M A) w r w2 :
  let w1 := set_token self (Some (mkToken (_event_queue w) false))
                      (set_event_queue (Some self) w) in
  body self w1 = (r, w2) ->
  _token (stream_at self w2) = Some (mkToken (_event_queue w) false) ->
  with_stream self body w
  = (r, set_token self (Some (mkToken (_event_queue w) true))
                  (set_event_queue (_event_queue w) w2)).
Proof.
  intros w1 Hbody Ht. unfold with_stream, with_. rewrite enter_spec.
  fold w1. rewrite Hbody. unfold __exit__.
  rewrite (reset_queue_spec _ _ _ Ht). destruct r; reflexivity.
Qed.

(** Leaving the asynchronous scope: the slot is put back and the
    sentinel is put on the queue. *)
Lemma async_with_stream_spec {A} self (body : nat -> M A) w r w2 :
  let w1 := set_token self (Some (mkToken (_event_queue w) false))
                      (set_event_queue (Some self) w) in
  body self w1 = (r, w2) ->
  _token (stream_at self w2) = Some (mkToken (_event_queue w) false) ->
  exists w3,
    async_with_stream self body w = (r, w3)
    /\ w3 = log_call (CPutNowait self None)
              (set_queue self (queue_of self w2 ++ [None])
                 (set_token self (Some (mkToken (_event_queue w) true))
                    (set_event_queue (_event_queue w) w2))).
Proof.
  intros w1 Hbody Ht. unfold async_with_stream, with_. rewrite aenter_spec.
  fold w1. rewrite Hbody. unfold __aexit__, bind.
  rewrite (reset_queue_spec _ _ _ Ht), put_nowait_spec.
  rewrite queue_of_set_token.
  eexists. split; [destruct r; reflexivity|reflexivity].
Qed.

Lemma anext_event self w e rest :
  queue_of self w = Some e :: rest ->
  anext self w
  = (let '(r, w') := run_callbacks (_callbacks (stream_at self w)) e
                                   (set_queue self rest w) in
     (match r with inl x => inl x | inr _ => inr (Yield e) end, w')).
Proof.
  intros Hq. unfold anext, bind, get_world, modify. rewrite Hq.
  rewrite callbacks_set_queue.
  destruct (run_callbacks _ e _) as [[x|[]] w']; reflexivity.
Qed.

Lemma drain_sentinel fuel self w rest :
  queue_of self w = None :: rest ->
  drain (S fuel) self w = (inr ([], Exhausted), set_queue self rest w).
Proof.
  intros Hq. unfold drain. simpl. unfold bind.
  rewrite (anext_sentinel _ _ _ Hq). reflexivity.
Qed.

Lemma drain_empty fuel self w :
  queue_of self w = [] ->
  drain (S fuel) self w = (inr ([], Waiting), w).
Proof.
  intros Hq. unfold drain. simpl. unfold bind.
  rewrite (anext_empty _ _ Hq). reflexivity.
Qed.

(** C3: where the code stands.  Both forms of the scope put the previous
    value of the slot back, on the normal way out and when the body
    raises; [__aexit__] then puts the sentinel on the stream's queue, and
    [__exit__] does not: after [with EventStream() as stream] the queue
    holds no sentinel and a drain of the stream waits. *)
Theorem exit_restores_and_only_aexit_closes (w : World U) (e : exn) (fuel : nat) :
  let stream := fresh (dom (streams w)) in
  (exists w', sync_scope (fun _ => ret tt) w = (inr tt, w')
              /\ _event_queue w' = _event_queue w
              /\ queue_of stream w' = []
              /\ drain (S fuel) stream w' = (inr ([], Waiting), w'))
  /\ (exists w', sync_scope (fun _ => raise (A:=unit) e) w = (inl e, w')
                 /\ _event_queue w' = _event_queue w
                 /\ queue_of stream w' = [])
  /\ (exists w', async_scope (fun _ => ret tt) w = (inr tt, w')
                 /\ _event_queue w' = _event_queue w
                 /\ queue_of stream w' = [None]
                 /\ fst (drain (S fuel) stream w') = inr ([], Exhausted))
  /\ (exists w', async_scope (fun _ => raise (A:=unit) e) w = (inl e, w')
                 /\ _event_queue w' = _event_queue w
                 /\ queue_of stream w' = [None]).
Proof.
  intros stream.
  pose (w0 := set_stream stream new_EventStream w).
  pose (w1 := set_token stream (Some (mkToken (_event_queue w0) false))
                        (set_event_queue (Some stream) w0)).
  assert (Ht : _token (stream_at stream w1) = Some (mkToken (_event_queue w0) false))
    by apply token_entered.
  assert (Hq : queue_of stream w1 = []).
  { unfold w1. store_simpl. apply queue_of_init. }
  split; [|split; [|split]].
  - unfold sync_scope, bind, EventStream_init. fold stream. fold w0.
    rewrite (with_stream_spec stream (fun _ => ret tt) w0 (inr tt) w1 eq_refl Ht).
    eexists. split; [reflexivity|]. store_simpl.
    split; [reflexivity|]. split; [exact Hq|].
    apply drain_empty. store_simpl. exact Hq.
  - unfold sync_scope, bind, EventStream_init. fold stream. fold w0.
    rewrite (with_stream_spec stream (fun _ => raise (A:=unit) e) w0 (inl e) w1 eq_refl Ht).
    eexists. split; [reflexivity|]. store_simpl.
    split; [reflexivity|exact Hq].
  - unfold async_scope, bind, EventStream_init. fold stream. fold w0.
    destruct (async_with_stream_spec stream (fun _ => ret tt) w0 (inr tt) w1 eq_refl Ht)
      as (w3 & -> & ->).
    eexists. split; [reflexivity|]. store_simpl. rewrite Hq.
    split; [reflexivity|]. split; [reflexivity|].
    rewrite (drain_sentinel fuel stream _ []); [reflexivity|].
    store_simpl. rewrite ?Hq. reflexivity.
  - unfold async_scope, bind, EventStream_init. fold stream. fold w0.
    destruct (async_with_stream_spec stream (fun _ => raise (A:=unit) e) w0 (inl e) w1 eq_refl Ht)
      as (w3 & -> & ->).
    eexists. split; [reflexivity|]. store_simpl. rewrite Hq.
    split; reflexivity.
Qed.

(** C9: [close] never raises, called once or twice, on a stream with or
    without events; a stream closed before any event was put on its queue
    drains to the empty sequence and the drain ends, after one [close]
    and after two. *)
Theorem close_twice_then_drain (self : nat) (w : World U) :
  exists w1 w2,
    close self w = (inr tt, w1)
    /\ close self w1 = (inr tt, w2)
    /\ queue_of self w2 = queue_of self w ++ [None; None]
    /\ (queue_of self w = [] ->
        forall fuel,
          fst (drain (S fuel) self w1) = inr ([], Exhausted)
          /\ fst (drain (S fuel) self w2) = inr ([], Exhausted)).
Proof.
  destruct (close_returns self w) as [w1 H1].
  destruct (close_returns self w1) as [w2 H2].
  exists w1, w2. split; [exact H1|]. split; [exact H2|].
  pose proof (queue_of_close _ _ _ H1) as Hq1.
  pose proof (queue_of_close _ _ _ H2) as Hq2.
  rewrite Hq1, <- app_assoc in Hq2. split; [exact Hq2|].
  intros Hq fuel. rewrite Hq in Hq1, Hq2. simpl in Hq1, Hq2.
  rewrite (drain_sentinel fuel _ _ _ Hq1), (drain_sentinel fuel _ _ _ Hq2).
  split; reflexivity.
Qed.

End Scope.

(** ** Callbacks *)

Section Callbacks.
Context {U : Type}.
Implicit Types (w : World U).

Lemma set_user_same w : set_user (user w) w = w.
Proof. destruct w; reflexivity. Qed.

Lemma run_callbacks_pure (fs : list (StreamEvent -> U -> U)) e :
  forall w,
    run_callbacks (map pure_callback fs) e w
    = (inr tt, set_user (fold_left (fun u f => f e u) fs (user w)) w).
Proof.
  induction fs as [|f fs IH]; intros w; simpl.
  - unfold ret. rewrite set_user_same. reflexivity.
  - unfold bind, call, pure_callback at 1. rewrite IH. reflexivity.
Qed.

Lemma run_callbacks_raises (fs : list (StreamEvent -> U -> U)) (c : callback U)
      (cbs : list (callback U)) e x u2 w :
  c e (fold_left (fun u f => f e u) fs (user w)) = (inl x, u2) ->
  run_callbacks (map pure_callback fs ++ c :: cbs) e w = (inl x, set_user u2 w).
Proof.
  revert w. induction fs as [|f fs IH]; intros w Hc; simpl in *.
  - unfold bind, call. rewrite Hc. reflexivity.
  - unfold bind, call, pure_callback at 1.
    rewrite (IH (set_user (f e (user w)) w)) by exact Hc. reflexivity.
Qed.

Lemma on_event_spec self cb w :
  exists w', on_event self cb w = (inr tt, w')
             /\ _callbacks (stream_at self w') = _callbacks (stream_at self w) ++ [cb]
             /\ queue_of self w' = queue_of self w.
Proof.
  eexists. split; [reflexivity|]. split.
  - unfold set_callbacks. rewrite stream_at_set_stream, decide_True; reflexivity.
  - apply queue_of_set_callbacks.
Qed.

Lemma async_for_delivers (self : nat) (fs : list (StreamEvent -> U -> U))
      (g : StreamEvent -> U -> U) (body : StreamEvent -> M unit) :
  (forall e w, body e w = (inr tt, set_user (g e (user w)) w)) ->
  forall es fuel w rest,
    _callbacks (stream_at self w) = map pure_callback fs ->
    queue_of self w = map Some es ++ None :: rest ->
    length es < fuel ->
    async_for fuel self body w
    = (inr (es, Exhausted), set_user (delivered fs g es (user w)) (set_queue self rest w)).
Proof.
  intros Hbody. induction es as [|e es IH]; intros fuel w rest Hcb Hq Hfuel.
  - destruct fuel as [|fuel]; [simpl in Hfuel; lia|].
    simpl in Hq. simpl. unfold bind. rewrite (anext_sentinel _ _ _ Hq).
    unfold ret, delivered. simpl.
    change (user w) with (user (set_queue self rest w)).
    rewrite set_user_same. reflexivity.
  - destruct fuel as [|fuel]; [simpl in Hfuel; lia|].
    simpl in Hq, Hfuel. simpl. unfold bind at 1.
    rewrite (anext_event _ _ _ _ Hq), Hcb, run_callbacks_pure.
    unfold bind at 1. rewrite Hbody. unfold bind.
    rewrite (IH fuel _ rest).
    + unfold ret. cbn [fst snd]. unfold delivered. simpl.
      store_simpl. f_equal. unfold set_user, set_queue, set_stream, set_streams.
      cbn [current_span _event_queue streams clock ticks calls user].
      unfold stream_at. cbn [streams]. rewrite lookup_insert_eq. cbn [default _token _callbacks].
      rewrite insert_insert_eq. reflexivity.
    + store_simpl. exact Hcb.
    + store_simpl. reflexivity.
    + lia.
Qed.

Lemma async_for_callback_raises (self : nat) (fs : list (StreamEvent -> U -> U))
      (c : callback U) (cbs : list (callback U)) e x u2 rest fuel
      (body : StreamEvent -> M unit) w :
  _callbacks (stream_at self w) = map pure_callback fs ++ c :: cbs ->
  queue_of self w = Some e :: rest ->
  c e (fold_left (fun u f => f e u) fs (user w)) = (inl x, u2) ->
  async_for (S fuel) self body w = (inl x, set_user u2 (set_queue self rest w)).
Proof.
  intros Hcb Hq Hc. simpl. unfold bind.
  rewrite (anext_event _ _ _ _ Hq), Hcb.
  rewrite (run_callbacks_raises fs c cbs e x u2 (set_queue self rest w)) by exact Hc.
  reflexivity.
Qed.

Lemma set_queue_set_user self q u w :
  set_queue self q (set_user u w) = set_user u (set_queue self q w).
Proof. reflexivity. Qed.

Lemma set_user_twice u1 u2 w : set_user u1 (set_user u2 w) = set_user u1 w.
Proof. reflexivity. Qed.

(** The callbacks [fs], then one that returns on the event, then the
    callbacks [gs]. *)
Lemma run_callbacks_returns (fs gs : list (StreamEvent -> U -> U)) (c : callback U)
      (h : StreamEvent -> U -> U) e w :
  c e (fold_left (fun u f => f e u) fs (user w))
  = (inr tt, h e (fold_left (fun u f => f e u) fs (user w))) ->
  run_callbacks (map pure_callback fs ++ c :: map pure_callback gs) e w
  = (inr tt, set_user (fold_left (fun u f => f e u) (fs ++ h :: gs) (user w)) w).
Proof.
  revert w. induction fs as [|f fs IH]; intros w Hc; simpl in *.
  - unfold bind, call. rewrite Hc. rewrite run_callbacks_pure. reflexivity.
  - unfold bind, call, pure_callback at 1.
    rewrite (IH (set_user (f e (user w)) w)) by exact Hc. reflexivity.
Qed.

(** A drain whose callbacks return on the events [es] and raise on the
    event after them. *)
Lemma async_for_raises_later (self : nat) (cbs : list (callback U))
      (F g : StreamEvent -> U -> U) (body : StreamEvent -> M unit) e x u2 rest :
  (forall e w, body e w = (inr tt, set_user (g e (user w)) w)) ->
  forall es fuel w,
    _callbacks (stream_at self w) = cbs ->
    queue_of self w = map Some es ++ Some e :: rest ->
    (forall e' w', e' ∈ es ->
       run_callbacks cbs e' w' = (inr tt, set_user (F e' (user w')) w')) ->
    (forall w', user w' = fold_left (fun u e' => g e' (F e' u)) es (user w) ->
       run_callbacks cbs e w' = (inl x, set_user u2 w')) ->
    length es < fuel ->
    async_for fuel self body w = (inl x, set_user u2 (set_queue self rest w)).
Proof.
  intros Hbody. induction es as [|e0 es IH]; intros fuel w Hcb Hq Hok Hbad Hfuel.
  - destruct fuel as [|fuel]; [simpl in Hfuel; lia|].
    simpl in Hq. simpl. unfold bind.
    rewrite (anext_event _ _ _ _ Hq), Hcb, Hbad by reflexivity. reflexivity.
  - destruct fuel as [|fuel]; [simpl in Hfuel; lia|].
    simpl in Hq, Hfuel. simpl. unfold bind at 1.
    rewrite (anext_event _ _ _ _ Hq), Hcb, Hok by apply list_elem_of_here.
    unfold bind at 1. rewrite Hbody. unfold bind.
    rewrite (IH fuel).
    + rewrite set_queue_set_user, !set_user_twice, set_queue_set_user, set_queue_twice.
      reflexivity.
    + store_simpl. exact Hcb.
    + store_simpl. reflexivity.
    + intros e' w' Hin. apply Hok. apply list_elem_of_further, Hin.
    + intros w' Hu. apply Hbad. rewrite Hu. reflexivity.
    + lia.
Qed.

Lemma async_for_callback_raises_later (self : nat) (fs gs : list (StreamEvent -> U -> U))
      (c : callback U) (h g : StreamEvent -> U -> U) (body : StreamEvent -> M unit)
      es e rest x u2 fuel w :
  (forall e w, body e w = (inr tt, set_user (g e (user w)) w)) ->
  _callbacks (stream_at self w) = map pure_callback fs ++ c :: map pure_callback gs ->
  queue_of self w = map Some es ++ Some e :: rest ->
  (forall e' u, e' ∈ es -> c e' u = (inr tt, h e' u)) ->
  c e (fold_left (fun u f => f e u) fs (delivered (fs ++ h :: gs) g es (user w)))
  = (inl x, u2) ->
  length es < fuel ->
  async_for fuel self body w = (inl x, set_user u2 (set_queue self rest w)).
Proof.
  intros Hbody Hcb Hq Hok Hbad Hfuel.
  apply (async_for_raises_later self _
           (fun e' u => fold_left (fun u f => f e' u) (fs ++ h :: gs) u) g body
           e x u2 rest Hbody es fuel w Hcb Hq).
  - intros e' w' Hin. apply run_callbacks_returns. apply Hok, Hin.
  - intros w' Hu. apply run_callbacks_raises. rewrite Hu. exact Hbad.
  - exact Hfuel.
Qed.

End Callbacks.

(** C6: [on_event] registers a callback after those already there.  A
    drain gives each event first to every callback, in registration order,
    once, and then to the loop body; it ends at the sentinel.  A callback
    that raises ends the drain with its exception, at the first event of
    the drain and at any later one: the events before it were given to
    every callback and to the body, the callbacks after the raising one are
    not called for the event, the event is not given to the body and has
    left the queue, and the events after it stay queued.  With a
    list-appending callback and the events "a" and "b", the callback's list
    after the drain is the drained sequence. *)
Theorem callbacks_before_yield :
  (forall U self cb (w : World U),
      exists w', on_event self cb w = (inr tt, w')
                 /\ _callbacks (stream_at self w') = _callbacks (stream_at self w) ++ [cb]
                 /\ queue_of self w' = queue_of self w)
  /\ (forall U self (fs : list (StreamEvent -> U -> U)) g body es rest fuel (w : World U),
         (forall e w, body e w = (inr tt, set_user (g e (user w)) w)) ->
         _callbacks (stream_at self w) = map pure_callback fs ->
         queue_of self w = map Some es ++ None :: rest ->
         length es < fuel ->
         async_for fuel self body w
         = (inr (es, Exhausted),
            set_user (delivered fs g es (user w)) (set_queue self rest w)))
  /\ (forall U self (fs : list (StreamEvent -> U -> U)) (c : callback U)
             (cbs : list (callback U)) body e x u2 rest fuel (w : World U),
         _callbacks (stream_at self w) = map pure_callback fs ++ c :: cbs ->
         queue_of self w = Some e :: rest ->
         c e (fold_left (fun u f => f e u) fs (user w)) = (inl x, u2) ->
         async_for (S fuel) self body w = (inl x, set_user u2 (set_queue self rest w)))
  /\ (forall U self (fs gs : list (StreamEvent -> U -> U)) (c : callback U) h g body
             es e rest x u2 fuel (w : World U),
         (forall e w, body e w = (inr tt, set_user (g e (user w)) w)) ->
         _callbacks (stream_at self w)
         = map pure_callback fs ++ c :: map pure_callback gs ->
         queue_of self w = map Some es ++ Some e :: rest ->
         (forall e' u, e' ∈ es -> c e' u = (inr tt, h e' u)) ->
         c e (fold_left (fun u f => f e u) fs (delivered (fs ++ h :: gs) g es (user w)))
         = (inl x, u2) ->
         length es < fuel ->
         async_for fuel self body w = (inl x, set_user u2 (set_queue self rest w)))
  /\ (forall sp clk,
         exists w', callback_example (initial_world sp clk []) 
                    = (inr ([named_event "a"; named_event "b"], Exhausted), w')
                    /\ user w' = [named_event "a"; named_event "b"]).
Proof.
  split; [|split; [|split; [|split]]].
  - intros U self cb w. apply on_event_spec.
  - intros U self fs g body es rest fuel w Hbody Hcb Hq Hfuel.
    exact (async_for_delivers self fs g body Hbody es fuel w rest Hcb Hq Hfuel).
  - intros U self fs c cbs body e x u2 rest fuel w Hcb Hq Hc.
    exact (async_for_callback_raises self fs c cbs e x u2 rest fuel body w Hcb Hq Hc).
  - intros U self fs gs c h g body es e rest x u2 fuel w Hbody Hcb Hq Hok Hbad Hfuel.
    exact (async_for_callback_raises_later self fs gs c h g body es e rest x u2 fuel w
             Hbody Hcb Hq Hok Hbad Hfuel).
  - intros sp clk. eexists. split; [vm_compute; reflexivity|reflexivity].
Qed.

(** ** Nested scopes *)

Section Nested.
Context {U : Type}.
Implicit Types (w : World U).

Lemma scoped_spec {A} async self (body : nat -> M A) w r w2 :
  body self (entered self w) = (r, w2) ->
  _token (stream_at self w2) = Some (mkToken (_event_queue w) false) ->
  scoped async self body w = (r, left_scope async self (_event_queue w) w2).
Proof.
  intros Hbody Ht. unfold scoped, left_scope. destruct async.
  - destruct (async_with_stream_spec self body w r w2 Hbody Ht) as (w3 & -> & ->).
    reflexivity.
  - apply with_stream_spec; assumption.
Qed.

Lemma stream_at_entered self w q :
  stream_at q (entered self w)
  = if decide (self = q)
    then mkEventStream (queue_of q w) (Some (mkToken (_event_queue w) false))
                       (_callbacks (stream_at q w))
    else stream_at q w.
Proof.
  unfold entered, set_token. rewrite stream_at_set_stream.
  destruct (decide (self = q)) as [->|]; reflexivity.
Qed.

Lemma stream_at_left_scope async self old w q :
  stream_at q (left_scope async self old w)
  = if decide (self = q)
    then mkEventStream (queue_of q w ++ exit_items async) (Some (mkToken old true))
                       (_callbacks (stream_at q w))
    else stream_at q w.
Proof.
  unfold left_scope, exit_items. destruct async.
  - rewrite stream_at_log_call. unfold set_queue at 1. rewrite stream_at_set_stream.
    store_simpl. destruct (decide (self = q)) as [->|Hne].
    + rewrite token_set_token, decide_True by reflexivity. reflexivity.
    + unfold set_token. rewrite stream_at_set_stream, decide_False by exact Hne.
      reflexivity.
  - unfold set_token. rewrite stream_at_set_stream. store_simpl.
    destruct (decide (self = q)) as [->|Hne]; [|reflexivity].
    rewrite app_nil_r. reflexivity.
Qed.

Lemma slot_left_scope async self old w :
  _event_queue (left_scope async self old w) = old.
Proof. unfold left_scope. destruct async; reflexivity. Qed.

Lemma ticks_left_scope async self old w :
  ticks (left_scope async self old w) = ticks w.
Proof. unfold left_scope. destruct async; reflexivity. Qed.

Lemma clock_left_scope async self old w :
  clock (left_scope async self old w) = clock w.
Proof. unfold left_scope. destruct async; reflexivity. Qed.

Lemma span_left_scope async self old w :
  current_span (left_scope async self old w) = current_span w.
Proof. unfold left_scope. destruct async; reflexivity. Qed.

(** An identifier in use is never handed out again. *)
Lemma fresh_ne_allocated w sid :
  is_Some (streams w !! sid) -> fresh (dom (streams w)) <> sid.
Proof.
  intros Hin Heq. apply elem_of_dom in Hin. rewrite <- Heq in Hin.
  exact (is_fresh _ Hin).
Qed.

Lemma allocated_set_stream w sid sid' s :
  is_Some (streams w !! sid') \/ sid = sid' ->
  is_Some (streams (set_stream sid s w) !! sid').
Proof.
  intros H. unfold set_stream, set_streams. cbn [streams]. rewrite lookup_insert.
  destruct (decide (sid = sid')); [eauto|]. destruct H; [assumption|congruence].
Qed.

Lemma allocated_emitted name attrs w sid :
  is_Some (streams w !! sid) -> is_Some (streams (emitted name attrs w) !! sid).
Proof.
  intros H. unfold emitted. destruct (_event_queue w) as [q|]; cbn [streams]; [|exact H].
  rewrite lookup_insert. destruct (decide (q = sid)); [eauto|exact H].
Qed.

Lemma allocated_emitted_all (cs : list (string * option dict)) :
  forall w sid, is_Some (streams w !! sid) ->
                is_Some (streams (emitted_all cs w) !! sid).
Proof.
  induction cs as [|[n a] cs IH]; intros w sid H; simpl; [exact H|].
  apply IH, allocated_emitted, H.
Qed.

Lemma drain_plain self (es : list StreamEvent) :
  forall w rest,
    _callbacks (stream_at self w) = [] ->
    queue_of self w = map Some es ++ None :: rest ->
    fst (drain (S (length es)) self w) = inr (es, Exhausted).
Proof.
  intros w rest Hcb Hq. unfold drain.
  rewrite (async_for_delivers self [] (fun _ u => u) (fun _ => ret tt))
    with (es := es) (rest := rest).
  - reflexivity.
  - intros e w'. unfold ret. rewrite set_user_same. reflexivity.
  - exact Hcb.
  - exact Hq.
  - lia.
Qed.

Lemma events_in_items (evs : list StreamEvent) async :
  events_in (map Some evs ++ exit_items async) = evs.
Proof.
  unfold events_in. rewrite omap_app.
  assert (H : omap id (map Some evs) = evs).
  { induction evs as [|e evs IH]; simpl; [reflexivity|]. f_equal. exact IH. }
  rewrite H. destruct async; simpl; apply app_nil_r.
Qed.

Lemma items_for_same q evs : items_for q (Some q) evs = map Some evs.
Proof. unfold items_for. rewrite decide_True; reflexivity. Qed.

Lemma items_for_other q q0 evs : q0 <> q -> items_for q (Some q0) evs = [].
Proof. intros H. unfold items_for. rewrite decide_False; [reflexivity|exact H]. Qed.

(** C7: an outer stream, with an inner stream entered and left inside
    its scope.  The calls made before and after the inner scope reach the
    outer queue only and those made inside it reach the inner queue only,
    each in order; leaving the inner scope makes the outer queue the
    active one again and leaving the outer scope puts back what was
    there before.  So a drain of either stream gives the events emitted
    while it was the active one, and no other. *)
Theorem nested_streams_isolated (async : bool)
        (A B C : list (string * option dict)) (w : World U) :
  all_serializable A = true ->
  all_serializable B = true ->
  all_serializable C = true ->
  let evA := events_of (current_span w) (clock w) (ticks w) A in
  let evB := events_of (current_span w) (clock w) (ticks w + length A) B in
  let evC := events_of (current_span w) (clock w) (ticks w + length A + length B) C in
  exists outer inner w',
    nested_streams async A B C w = (inr (outer, inner), w')
    /\ outer <> inner
    /\ _event_queue w' = _event_queue w
    /\ queue_of outer w' = map Some (evA ++ evC) ++ exit_items async
    /\ queue_of inner w' = map Some evB ++ exit_items async
    /\ fst (events outer w') = inr (evA ++ evC)
    /\ fst (events inner w') = inr evB
    /\ (async = true ->
        fst (drain (S (length (evA ++ evC))) outer w') = inr (evA ++ evC, Exhausted)
        /\ fst (drain (S (length evB)) inner w') = inr (evB, Exhausted)).
Proof.
  intros HA HB HC evA evB evC.
  set (outer := fresh (dom (streams w))).
  set (w0 := set_stream outer new_EventStream w).
  set (w1 := entered outer w0).
  set (w2 := emitted_all A w1).
  set (inner := fresh (dom (streams w2))).
  set (w3 := set_stream inner new_EventStream w2).
  set (w4 := entered inner w3).
  set (w5 := emitted_all B w4).
  set (w6 := left_scope async inner (_event_queue w3) w5).
  set (w7 := emitted_all C w6).
  set (w8 := left_scope async outer (_event_queue w0) w7).
  set (tokO := mkToken (_event_queue w0) false).
  set (tokI := mkToken (_event_queue w3) false).
  (* the slot, the clock and the span along the way *)
  assert (Q1 : _event_queue w1 = Some outer) by reflexivity.
  assert (Q2 : _event_queue w2 = Some outer) by (unfold w2; rewrite slot_emitted_all; exact Q1).
  assert (Q3 : _event_queue w3 = Some outer) by exact Q2.
  assert (Q4 : _event_queue w4 = Some inner) by reflexivity.
  assert (Q5 : _event_queue w5 = Some inner) by (unfold w5; rewrite slot_emitted_all; exact Q4).
  assert (Q6 : _event_queue w6 = Some outer) by (unfold w6; rewrite slot_left_scope; exact Q3).
  assert (T2 : ticks w2 = ticks w + length A).
  { unfold w2. rewrite ticks_emitted_all, Q1. reflexivity. }
  assert (T5 : ticks w5 = ticks w + length A + length B).
  { unfold w5. rewrite ticks_emitted_all, Q4. change (ticks w4) with (ticks w2).
    rewrite T2. reflexivity. }
  assert (T6 : ticks w6 = ticks w + length A + length B).
  { unfold w6. rewrite ticks_left_scope. exact T5. }
  assert (K2 : clock w2 = clock w) by (unfold w2; rewrite clock_emitted_all; reflexivity).
  assert (K5 : clock w5 = clock w).
  { unfold w5. rewrite clock_emitted_all. exact K2. }
  assert (K6 : clock w6 = clock w).
  { unfold w6. rewrite clock_left_scope. exact K5. }
  assert (E2 : forall clk t cs, events_of (current_span w2) clk t cs
                                = events_of (current_span w) clk t cs).
  { intros. unfold w2. rewrite events_of_span_emitted_all. reflexivity. }
  assert (E5 : forall clk t cs, events_of (current_span w5) clk t cs
                                = events_of (current_span w) clk t cs).
  { intros. unfold w5. rewrite events_of_span_emitted_all. apply E2. }
  assert (E6 : forall clk t cs, events_of (current_span w6) clk t cs
                                = events_of (current_span w) clk t cs).
  { intros. unfold w6. rewrite span_left_scope. apply E5. }
  (* the outer stream up to the inner scope *)
  assert (O0 : stream_at outer w0 = new_EventStream).
  { unfold w0. rewrite stream_at_set_stream, decide_True; reflexivity. }
  assert (O1 : stream_at outer w1 = mkEventStream [] (Some tokO) []).
  { unfold w1. rewrite stream_at_entered, decide_True by reflexivity.
    unfold queue_of. rewrite O0. reflexivity. }
  assert (O2 : stream_at outer w2 = mkEventStream (map Some evA) (Some tokO) []).
  { unfold w2. rewrite stream_at_emitted_all. unfold queue_of. rewrite O1, Q1.
    rewrite items_for_same. reflexivity. }
  assert (Hne : inner <> outer).
  { apply fresh_ne_allocated. unfold w2. apply allocated_emitted_all.
    unfold w1, entered, set_token. apply allocated_set_stream. right. reflexivity. }
  assert (O3 : stream_at outer w3 = mkEventStream (map Some evA) (Some tokO) []).
  { unfold w3. rewrite stream_at_set_stream, decide_False by exact Hne. exact O2. }
  assert (O4 : stream_at outer w4 = mkEventStream (map Some evA) (Some tokO) []).
  { unfold w4. rewrite stream_at_entered, decide_False by exact Hne. exact O3. }
  assert (O5 : stream_at outer w5 = mkEventStream (map Some evA) (Some tokO) []).
  { unfold w5. rewrite stream_at_emitted_all. unfold queue_of. rewrite O4, Q4.
    rewrite items_for_other by exact Hne. rewrite app_nil_r. reflexivity. }
  assert (O6 : stream_at outer w6 = mkEventStream (map Some evA) (Some tokO) []).
  { unfold w6. rewrite stream_at_left_scope, decide_False by exact Hne. exact O5. }
  assert (O7 : stream_at outer w7 = mkEventStream (map Some (evA ++ evC)) (Some tokO) []).
  { unfold w7. rewrite stream_at_emitted_all. unfold queue_of. rewrite O6, Q6.
    rewrite items_for_same, E6, K6, T6. cbn [_queue _token _callbacks].
    rewrite map_app. reflexivity. }
  assert (O8 : stream_at outer w8
               = mkEventStream (map Some (evA ++ evC) ++ exit_items async)
                               (Some (mkToken (_event_queue w0) true)) []).
  { unfold w8. rewrite stream_at_left_scope, decide_True by reflexivity.
    unfold queue_of. rewrite O7. reflexivity. }
  (* the inner stream *)
  assert (I3 : stream_at inner w3 = new_EventStream).
  { unfold w3. rewrite stream_at_set_stream, decide_True; reflexivity. }
  assert (I4 : stream_at inner w4 = mkEventStream [] (Some tokI) []).
  { unfold w4. rewrite stream_at_entered, decide_True by reflexivity.
    unfold queue_of. rewrite I3. reflexivity. }
  assert (I5 : stream_at inner w5 = mkEventStream (map Some evB) (Some tokI) []).
  { unfold w5. rewrite stream_at_emitted_all. unfold queue_of. rewrite I4, Q4.
    rewrite items_for_same. cbn [_queue _token _callbacks app].
    change (current_span w4) with (current_span w2).
    change (clock w4) with (clock w2). change (ticks w4) with (ticks w2).
    rewrite E2, K2, T2. reflexivity. }
  assert (I6 : stream_at inner w6
               = mkEventStream (map Some evB ++ exit_items async)
                               (Some (mkToken (_event_queue w3) true)) []).
  { unfold w6. rewrite stream_at_left_scope, decide_True by reflexivity.
    unfold queue_of. rewrite I5. reflexivity. }
  assert (I7 : stream_at inner w7 = stream_at inner w6).
  { unfold w7. rewrite stream_at_emitted_all. unfold queue_of. rewrite Q6.
    rewrite items_for_other by (intros H; apply Hne; symmetry; exact H).
    rewrite app_nil_r. apply stream_eta. }
  assert (I8 : stream_at inner w8 = stream_at inner w6).
  { unfold w8. rewrite stream_at_left_scope.
    rewrite decide_False by (intros H; apply Hne; symmetry; exact H). exact I7. }
  (* the two scopes *)
  assert (Hinner : scoped async inner (fun _ => emits B) w3 = (inr tt, w6)).
  { apply scoped_spec.
    - apply emits_spec, HB.
    - fold w4. fold w5. rewrite O5 || rewrite I5. reflexivity. }
  assert (Houter :
    scoped async outer
      (fun _ => emits A ;;
                let* inner := EventStream_init in
                scoped async inner (fun _ => emits B) ;; emits C ;; ret inner) w0
    = (inr inner, w8)).
  { apply scoped_spec.
    - fold w1. unfold bind at 1. rewrite (emits_spec A HA). fold w2.
      unfold bind at 1. unfold EventStream_init. fold inner. fold w3.
      unfold bind at 1. rewrite Hinner.
      unfold bind at 1. rewrite (emits_spec C HC). reflexivity.
    - rewrite O7. reflexivity. }
  exists outer, inner, w8.
  split.
  { unfold nested_streams.
    rewrite (bind_returns _ _ w outer w0) by reflexivity.
    rewrite (bind_returns _ _ w0 inner w8 Houter). reflexivity. }
  split; [intros H; apply Hne; symmetry; exact H|].
  split; [unfold w8; rewrite slot_left_scope; reflexivity|].
  assert (Hqo : queue_of outer w8 = map Some (evA ++ evC) ++ exit_items async).
  { unfold queue_of. rewrite O8. reflexivity. }
  assert (Hqi : queue_of inner w8 = map Some evB ++ exit_items async).
  { unfold queue_of. rewrite I8, I6. reflexivity. }
  split; [exact Hqo|]. split; [exact Hqi|].
  split; [|split].
  - unfold events. rewrite events_loop_spec, Hqo. cbn [fst app].
    rewrite events_in_items. reflexivity.
  - unfold events. rewrite events_loop_spec, Hqi. cbn [fst app].
    rewrite events_in_items. reflexivity.
  - intros ->. split.
    + apply (drain_plain outer (evA ++ evC) w8 []).
      * rewrite O8. reflexivity.
      * exact Hqo.
    + apply (drain_plain inner evB w8 []).
      * rewrite I8, I6. reflexivity.
      * exact Hqi.
Qed.

End Nested.

(** ** Producer and drain loop, interleaved *)

Section Pipeline.
Context {U : Type}.
Implicit Types (w : World U) (s : System U).

Lemma events_of_app sp clk (cs1 cs2 : list (string * option dict)) :
  forall t, events_of sp clk t (cs1 ++ cs2)
            = events_of sp clk t cs1 ++ events_of sp clk (t + length cs1) cs2.
Proof.
  induction cs1 as [|[n a] cs1 IH]; intros t; simpl.
  - rewrite Nat.add_0_r. reflexivity.
  - rewrite IH. do 3 f_equal. lia.
Qed.

Lemma events_of_length sp clk (cs : list (string * option dict)) :
  forall t, length (events_of sp clk t cs) = length cs.
Proof. induction cs as [|[n a] cs IH]; intros t; simpl; [|rewrite IH]; reflexivity. Qed.

(** Events taken so far are the first events put. *)
Lemma items_prefix (c : list StreamEvent) :
  forall (D : list StreamEvent) (q Y : list item),
    map Some c ++ q = map Some D ++ Y -> Y = [] \/ Y = [None] ->
    exists later, D = c ++ later.
Proof.
  induction c as [|x c IH]; intros D q Y H HY; [exists D; reflexivity|].
  destruct D as [|d D]; simpl in H.
  - destruct HY as [-> | ->]; discriminate.
  - injection H as -> H. destruct (IH D q Y H HY) as [later ->].
    exists later. reflexivity.
Qed.

(** Once the sentinel is taken, everything before it was taken. *)
Lemma items_complete (c : list StreamEvent) :
  forall (D : list StreamEvent) (q Y : list item),
    map Some c ++ None :: q = map Some D ++ Y -> Y = [] \/ Y = [None] ->
    c = D /\ q = [] /\ Y = [None].
Proof.
  induction c as [|x c IH]; intros D q Y H HY.
  - destruct D as [|d D]; simpl in H; [|discriminate].
    destruct HY as [-> | ->]; [discriminate|]. injection H as ->. auto.
  - destruct D as [|d D]; simpl in H.
    + destruct HY as [-> | ->]; discriminate.
    + injection H as -> H. destruct (IH D q Y H HY) as (-> & -> & ->). auto.
Qed.

Lemma serializable_member (cs1 cs2 : list (string * option dict)) name attributes :
  all_serializable (cs1 ++ (name, attributes) :: cs2) = true ->
  serializable (or_empty attributes) = true.
Proof.
  unfold all_serializable. rewrite forallb_app. simpl.
  intros H. apply andb_prop in H as [_ H]. apply andb_prop in H as [H _]. exact H.
Qed.

Variable self : nat.
Variable fs : list (StreamEvent -> U -> U).
Variable cs : list (string * option dict).
Variable w : World U.
Hypothesis cs_ok : all_serializable cs = true.

Lemma in_flight_spawn :
  _event_queue w = Some self ->
  queue_of self w = [] ->
  _callbacks (stream_at self w) = map pure_callback fs ->
  in_flight self fs cs w (spawn (ops_of cs ++ [Close]) w).
Proof.
  intros Hslot Hq Hcb. exists [], cs, false. unfold spawn, consumed. simpl.
  rewrite Hq, Nat.add_0_r. repeat split; auto; discriminate.
Qed.

Lemma in_flight_producer s :
  in_flight self fs cs w s -> in_flight self fs cs w (step_producer self s).
Proof.
  intros (done & todo & closed & Hcs & Hpend & Hclosed & Hitems & Hticks & Hclock
          & Hspan & Hcb & Herr & Hctx & Hcons).
  unfold step_producer. rewrite Herr, Hpend.
  destruct closed.
  { exists done, todo, true. repeat split; auto. }
  destruct todo as [|[name attributes] todo]; unfold ops_of; cbn [map app fst snd].
  - (* [stream.close()] *)
    unfold in_context. cbn [run_op]. unfold close. rewrite Hctx, put_nowait_spec.
    cbv beta iota zeta.
    exists done, [], true. unfold consumed in *. cbn [sys_world sys_pending
      sys_producer_error sys_producer_context sys_collected sys_consumer].
    split; [exact Hcs|]. split; [reflexivity|]. split; [reflexivity|].
    split.
    { store_simpl. rewrite app_assoc, Hitems, app_nil_r. reflexivity. }
    split; [exact Hticks|]. split; [exact Hclock|]. split; [exact Hspan|].
    split; [store_simpl; exact Hcb|]. split; [reflexivity|].
    split; [reflexivity|exact Hcons].
  - (* [add_event(name, attributes)] *)
    assert (Hok : serializable (or_empty attributes) = true).
    { apply (serializable_member done todo name). rewrite <- Hcs. exact cs_ok. }
    unfold in_context. cbn [run_op]. rewrite Hctx, (add_event_spec _ _ _ Hok).
    cbv beta iota zeta. rewrite slot_emitted.
    exists (done ++ [(name, attributes)]), todo, false. unfold consumed in *.
    cbn [sys_world sys_pending sys_producer_error sys_producer_context
         sys_collected sys_consumer].
    split; [rewrite <- app_assoc; exact Hcs|]. split; [reflexivity|].
    split; [discriminate|]. split.
    { store_simpl.
      rewrite (queue_of_emitted name (or_empty attributes)
                 (set_event_queue (Some self) (sys_world s)) self eq_refl).
      store_simpl. rewrite app_assoc, Hitems.
      rewrite events_of_app, map_app, !app_nil_r. simpl.
      cbn [current_span clock ticks set_event_queue].
      rewrite Hspan, Hclock, Hticks. reflexivity. }
    split.
    { cbn [ticks set_event_queue]. rewrite ticks_emitted. cbn [_event_queue set_event_queue ticks].
      rewrite Hticks, length_app. simpl. lia. }
    split; [cbn [clock set_event_queue]; rewrite clock_emitted; exact Hclock|].
    split.
    { intros t n a. cbn [current_span set_event_queue].
      rewrite span_emitted, event_of_span_after. apply Hspan. }
    split.
    { rewrite stream_at_set_event_queue, stream_at_emitted. exact Hcb. }
    split; [reflexivity|]. split; [reflexivity|exact Hcons].
Qed.

Lemma in_flight_consumer s :
  in_flight self fs cs w s -> in_flight self fs cs w (step_consumer self s).
Proof.
  intros (done & todo & closed & Hcs & Hpend & Hclosed & Hitems & Hticks & Hclock
          & Hspan & Hcb & Herr & Hctx & Hcons).
  assert (Hsame : in_flight self fs cs w s).
  { exists done, todo, closed. repeat split; assumption. }
  unfold step_consumer.
  destruct (sys_consumer s) as [x|st] eqn:Hst; [exact Hsame|].
  assert (Hrun : st <> Exhausted ->
    in_flight self fs cs w
      match anext self (sys_world s) with
      | (inr (Yield event), w') =>
          mkSystem w' (sys_producer_context s) (sys_pending s) (sys_producer_error s)
                   (sys_collected s ++ [event]) (inr Running)
      | (inr StopAsyncIteration, w') =>
          mkSystem w' (sys_producer_context s) (sys_pending s) (sys_producer_error s)
                   (sys_collected s) (inr Exhausted)
      | (inr Suspended, w') =>
          mkSystem w' (sys_producer_context s) (sys_pending s) (sys_producer_error s)
                   (sys_collected s) (inr Waiting)
      | (inl e, w') =>
          mkSystem w' (sys_producer_context s) (sys_pending s) (sys_producer_error s)
                   (sys_collected s) (inl e)
      end).
  { intros Hne.
    assert (Hitems' : map Some (sys_collected s) ++ queue_of self (sys_world s)
                      = map Some (events_of (current_span w) (clock w) (ticks w) done)
                        ++ (if closed then [None] else [])).
    { unfold consumed in Hitems. rewrite Hst in Hitems.
      destruct st; [congruence| |]; rewrite app_nil_r in Hitems; exact Hitems. }
    destruct (queue_of self (sys_world s)) as [|[e|] rest] eqn:Hq.
    - rewrite (anext_empty _ _ Hq).
      exists done, todo, closed. unfold consumed. simpl. rewrite Hq, app_nil_r.
      repeat split; try assumption; try discriminate.
    - rewrite (anext_event _ _ _ _ Hq), Hcb, run_callbacks_pure.
      exists done, todo, closed. unfold consumed. simpl. store_simpl.
      rewrite map_app, app_nil_r, <- app_assoc. simpl.
      repeat split; try assumption; try discriminate.
    - rewrite (anext_sentinel _ _ _ Hq).
      exists done, todo, closed. unfold consumed. simpl. store_simpl.
      rewrite <- app_assoc. simpl.
      repeat split; try assumption; try discriminate. }
  destruct st; [exact Hsame| |]; apply Hrun; discriminate.
Qed.

Lemma in_flight_run (schedule : list task) :
  forall s, in_flight self fs cs w s -> in_flight self fs cs w (run self schedule s).
Proof.
  unfold run. induction schedule as [|t schedule IH]; intros s H; simpl; [exact H|].
  apply IH. destruct t; simpl; [apply in_flight_producer|apply in_flight_consumer]; exact H.
Qed.

Lemma run_app (a b : list task) s :
  run self (a ++ b) s = run self b (run self a s).
Proof. unfold run. apply fold_left_app. Qed.

Lemma producer_advances s :
  in_flight self fs cs w s ->
  sys_pending (step_producer self s) = tail (sys_pending s).
Proof.
  intros (done & todo & closed & Hcs & Hpend & Hclosed & Hitems & Hticks & Hclock
          & Hspan & Hcb & Herr & Hctx & Hcons).
  unfold step_producer. rewrite Herr, Hpend.
  destruct closed; [rewrite Hpend; reflexivity|].
  destruct todo as [|[name attributes] todo]; unfold ops_of; cbn [map app fst snd].
  - unfold in_context. cbn [run_op]. unfold close. rewrite put_nowait_spec. reflexivity.
  - assert (Hok : serializable (or_empty attributes) = true).
    { apply (serializable_member done todo name). rewrite <- Hcs. exact cs_ok. }
    unfold in_context. cbn [run_op]. rewrite (add_event_spec _ _ _ Hok). reflexivity.
Qed.

Lemma pending_bound s :
  in_flight self fs cs w s -> length (sys_pending s) <= S (length cs).
Proof.
  intros (done & todo & closed & Hcs & Hpend & _).
  rewrite Hpend, Hcs. destruct closed; simpl; [lia|].
  unfold ops_of. rewrite !length_app, length_map. simpl. lia.
Qed.

Lemma producer_finishes (m : nat) :
  forall s, in_flight self fs cs w s -> length (sys_pending s) <= m ->
            sys_pending (run self (repeat Producer m) s) = [].
Proof.
  induction m as [|m IH]; intros s H Hlen; simpl.
  - destruct (sys_pending s); [reflexivity|simpl in Hlen; lia].
  - apply IH; [apply in_flight_producer, H|].
    rewrite (producer_advances s H). destruct (sys_pending s); simpl in *; lia.
Qed.

Lemma no_sentinel_in_events (c D : list StreamEvent) :
  map Some c <> map Some D ++ [None].
Proof.
  intros H. assert (Hin : In None (map Some c)).
  { rewrite H. apply in_or_app. right. left. reflexivity. }
  apply in_map_iff in Hin as (x & Hx & _). discriminate.
Qed.

Lemma closed_when_done s (todo : list (string * option dict)) (closed : bool) :
  sys_pending s = (if closed then [] else ops_of todo ++ [Close]) ->
  sys_pending s = [] -> closed = true.
Proof.
  intros Hpend Hnil. destruct closed; [reflexivity|].
  rewrite Hnil in Hpend. destruct (ops_of todo); discriminate.
Qed.

Lemma consumer_keeps_pending s :
  sys_pending (step_consumer self s) = sys_pending s.
Proof.
  unfold step_consumer. destruct (sys_consumer s) as [x|[| |]]; try reflexivity;
    destruct (anext self (sys_world s)) as [[x|[e| |]] w']; reflexivity.
Qed.

Lemma consumer_advances s :
  in_flight self fs cs w s -> sys_pending s = [] ->
  backlog self (step_consumer self s) = pred (backlog self s).
Proof.
  intros (done & todo & closed & Hcs & Hpend & Hclosed & Hitems & Hticks & Hclock
          & Hspan & Hcb & Herr & Hctx & Hcons) Hnil.
  assert (closed = true) as -> by exact (closed_when_done s todo closed Hpend Hnil).
  unfold step_consumer, backlog, consumed in *.
  destruct (sys_consumer s) as [x|st] eqn:Hst; [exfalso; exact (Hcons x eq_refl)|].
  assert (Hrun : st <> Exhausted ->
    match
      sys_consumer
        match anext self (sys_world s) with
        | (inr (Yield event), w') =>
            mkSystem w' (sys_producer_context s) (sys_pending s) (sys_producer_error s)
                     (sys_collected s ++ [event]) (inr Running)
        | (inr StopAsyncIteration, w') =>
            mkSystem w' (sys_producer_context s) (sys_pending s) (sys_producer_error s)
                     (sys_collected s) (inr Exhausted)
        | (inr Suspended, w') =>
            mkSystem w' (sys_producer_context s) (sys_pending s) (sys_producer_error s)
                     (sys_collected s) (inr Waiting)
        | (inl e, w') =>
            mkSystem w' (sys_producer_context s) (sys_pending s) (sys_producer_error s)
                     (sys_collected s) (inl e)
        end
    with
    | inr Exhausted => 0
    | _ =>
        length
          (queue_of self
             (sys_world
                match anext self (sys_world s) with
                | (inr (Yield event), w') =>
                    mkSystem w' (sys_producer_context s) (sys_pending s)
                             (sys_producer_error s) (sys_collected s ++ [event])
                             (inr Running)
                | (inr StopAsyncIteration, w') =>
                    mkSystem w' (sys_producer_context s) (sys_pending s)
                             (sys_producer_error s) (sys_collected s) (inr Exhausted)
                | (inr Suspended, w') =>
                    mkSystem w' (sys_producer_context s) (sys_pending s)
                             (sys_producer_error s) (sys_collected s) (inr Waiting)
                | (inl e, w') =>
                    mkSystem w' (sys_producer_context s) (sys_pending s)
                             (sys_producer_error s) (sys_collected s) (inl e)
                end))
    end = pred (length (queue_of self (sys_world s)))).
  { intros Hne.
    destruct (queue_of self (sys_world s)) as [|[e|] rest] eqn:Hq.
    - rewrite (anext_empty _ _ Hq). simpl. rewrite Hq. reflexivity.
    - rewrite (anext_event _ _ _ _ Hq), Hcb, run_callbacks_pure. simpl.
      store_simpl. reflexivity.
    - rewrite (anext_sentinel _ _ _ Hq). simpl.
      assert (Hitems' : map Some (sys_collected s) ++ None :: rest
                        = map Some (events_of (current_span w) (clock w) (ticks w) done)
                          ++ [None]).
      { destruct st; [congruence| |]; rewrite app_nil_r in Hitems; exact Hitems. }
      apply items_complete in Hitems' as (_ & -> & _); [reflexivity|]. right. reflexivity. }
  destruct st; [rewrite Hst; reflexivity| |]; apply Hrun; discriminate.
Qed.

Lemma backlog_bound s :
  in_flight self fs cs w s -> backlog self s <= S (length cs).
Proof.
  intros (done & todo & closed & Hcs & Hpend & Hclosed & Hitems & _).
  apply (f_equal (@length item)) in Hitems.
  rewrite !length_app, !length_map, events_of_length in Hitems.
  assert (length done <= length cs) by (rewrite Hcs, length_app; lia).
  unfold backlog. destruct (sys_consumer s) as [x|[| |]]; destruct closed; simpl in *; lia.
Qed.

Lemma exhausted_at_zero s :
  in_flight self fs cs w s -> sys_pending s = [] -> backlog self s = 0 ->
  sys_consumer s = inr Exhausted.
Proof.
  intros (done & todo & closed & Hcs & Hpend & Hclosed & Hitems & Hticks & Hclock
          & Hspan & Hcb & Herr & Hctx & Hcons) Hnil Hzero.
  assert (closed = true) as -> by exact (closed_when_done s todo closed Hpend Hnil).
  unfold backlog, consumed in *.
  destruct (sys_consumer s) as [x|st]; [exfalso; exact (Hcons x eq_refl)|].
  destruct st; [reflexivity| |];
    apply length_zero_iff_nil in Hzero; rewrite Hzero, !app_nil_r in Hitems;
    exfalso; exact (no_sentinel_in_events _ _ Hitems).
Qed.

Lemma consumer_finishes (m : nat) :
  forall s, in_flight self fs cs w s -> sys_pending s = [] -> backlog self s <= m ->
            sys_consumer (run self (repeat Consumer m) s) = inr Exhausted
            /\ sys_pending (run self (repeat Consumer m) s) = []
            /\ in_flight self fs cs w (run self (repeat Consumer m) s).
Proof.
  induction m as [|m IH]; intros s H Hnil Hlen; simpl.
  - split; [apply exhausted_at_zero; auto; lia|]. split; assumption.
  - apply IH.
    + apply in_flight_consumer, H.
    + rewrite consumer_keeps_pending. exact Hnil.
    + rewrite (consumer_advances s H Hnil). lia.
Qed.

Lemma collected_prefix s :
  in_flight self fs cs w s ->
  exists later,
    events_of (current_span w) (clock w) (ticks w) cs = sys_collected s ++ later.
Proof.
  intros (done & todo & closed & Hcs & Hpend & Hclosed & Hitems & _).
  unfold consumed in Hitems. rewrite <- app_assoc in Hitems.
  apply items_prefix in Hitems as [later Hlater];
    [|destruct closed; [right|left]; reflexivity].
  rewrite Hcs, events_of_app, Hlater, <- app_assoc. eexists. reflexivity.
Qed.

Lemma collected_all s :
  in_flight self fs cs w s -> sys_consumer s = inr Exhausted ->
  sys_collected s = events_of (current_span w) (clock w) (ticks w) cs
  /\ queue_of self (sys_world s) = [].
Proof.
  intros (done & todo & closed & Hcs & Hpend & Hclosed & Hitems & _) Hst.
  unfold consumed in Hitems. rewrite Hst, <- app_assoc in Hitems. simpl in Hitems.
  apply items_complete in Hitems as (Hc & Hq & HY);
    [|destruct closed; [right|left]; reflexivity].
  destruct closed; [|discriminate].
  rewrite Hcs, (Hclosed eq_refl), app_nil_r. auto.
Qed.

End Pipeline.

(** C2: one stream, one producer that makes its [add_event] calls and then
    calls [close], and the drain loop, run in any interleaving.  At every
    point the events the loop has been given are the first events emitted,
    in emission order; the loop ends only after it was given all of them;
    and in every interleaving that lets the producer finish and then
    resumes the loop often enough, the loop ends having been given exactly
    the emitted events, with the sentinel taken and not given. *)
Theorem drain_in_emission_order (U : Type) (self : nat)
        (fs : list (StreamEvent -> U -> U)) (cs : list (string * option dict))
        (w : World U) (schedule : list task) :
  _event_queue w = Some self ->
  queue_of self w = [] ->
  _callbacks (stream_at self w) = map pure_callback fs ->
  all_serializable cs = true ->
  let E := events_of (current_span w) (clock w) (ticks w) cs in
  let start := spawn (ops_of cs ++ [Close]) w in
  let s := run self schedule start in
  let s' := run self (schedule ++ repeat Producer (S (length cs))
                               ++ repeat Consumer (S (length cs))) start in
  (exists later, E = sys_collected s ++ later)
  /\ (sys_consumer s = inr Exhausted ->
      sys_collected s = E /\ queue_of self (sys_world s) = [])
  /\ sys_producer_error s = None
  /\ (forall x, sys_consumer s <> inl x)
  /\ sys_consumer s' = inr Exhausted
  /\ sys_collected s' = E
  /\ sys_pending s' = []
  /\ queue_of self (sys_world s') = [].
Proof.
  intros Hslot Hq Hcb Hok E start s s'.
  assert (H0 : in_flight self fs cs w start)
    by (apply in_flight_spawn; assumption).
  assert (Hs : in_flight self fs cs w s)
    by (apply in_flight_run; assumption).
  split; [exact (collected_prefix self fs cs w s Hs)|].
  split; [exact (collected_all self fs cs w s Hs)|].
  split; [destruct Hs as (d & t & c & _ & _ & _ & _ & _ & _ & _ & _ & He & _); exact He|].
  split; [destruct Hs as (d & t & c & _ & _ & _ & _ & _ & _ & _ & _ & _ & _ & Hc); exact Hc|].
  unfold s'. rewrite !run_app. fold start. fold s.
  set (s1 := run self (repeat Producer (S (length cs))) s).
  assert (H1 : in_flight self fs cs w s1) by (apply in_flight_run; assumption).
  assert (Hp1 : sys_pending s1 = []).
  { apply (producer_finishes self fs cs w Hok); [exact Hs|].
    apply (pending_bound self fs cs w s Hs). }
  destruct (consumer_finishes self fs cs w (S (length cs)) s1 H1 Hp1
              (backlog_bound self fs cs w s1 H1)) as (Hex & Hp2 & H2).
  split; [exact Hex|].
  destruct (collected_all self fs cs w _ H2 Hex) as [Hc Hq2].
  split; [exact Hc|]. split; [exact Hp2|exact Hq2].
Qed.

(** ** Sample runs *)

Example dumps_nested :
  Json.dumps (VDict [("q", VStr "sun"); ("n", VList [VInt 1; VInt (-2); VNone])])
  = inr ("{" +:+ Json.quote +:+ "q" +:+ Json.quote +:+ ": " +:+ Json.quote +:+ "sun"
         +:+ Json.quote +:+ ", " +:+ Json.quote +:+ "n" +:+ Json.quote
         +:+ ": [1, -2, null]}").
Proof. vm_compute. reflexivity. Qed.

Example dumps_escapes :
  Json.dumps (VStr (String (ascii_of_N 10) (String (ascii_of_N 233) "\")))
  = inr (Json.quote +:+ "\n\u00e9\\" +:+ Json.quote).
Proof. vm_compute. reflexivity. Qed.

Example dumps_set_in_list :
  Json.dumps (VList [VInt 1; VObj "set"])
  = inl (TypeError "Object of type set is not JSON serializable").
Proof. vm_compute. reflexivity. Qed.

Example format_span_id : Fmt.format_0x 16 81985529216486895 = "0123456789abcdef".
Proof. vm_compute. reflexivity. Qed.

Example format_zero : Fmt.format_0x 16 0 = "0000000000000000".
Proof. vm_compute. reflexivity. Qed.

Example format_wide : Fmt.format_0x 4 1048576 = "100000".
Proof. vm_compute. reflexivity. Qed.

(** [with EventStream() as stream: pass] leaves the queue of the stream
    empty; [async with] leaves the sentinel on it. *)
Example scope_exit_queues :
  queue_of 0 (snd (sync_scope (fun _ => ret tt) quiet_world)) = []
  /\ queue_of 0 (snd (async_scope (fun _ => ret tt) quiet_world)) = [None].
Proof. split; vm_compute; reflexivity. Qed.

(** Entering the same stream twice loses the first token: the second exit
    finds the token used. *)
Example reentered_stream_exit_raises :
  fst (sync_scope (fun s => with_stream s (fun _ => ret tt)) quiet_world)
  = inl (RuntimeError "Token has already been used once").
Proof. vm_compute. reflexivity. Qed.

(** The producer of the tests next to the drain loop, the loop resumed
    first. *)
Example tool_events_collected :
  map se_name
      (sys_collected
         (run 0 [Consumer; Producer; Producer; Consumer; Producer; Consumer; Consumer]
              (spawn (ops_of tool_calls ++ [Close]) listening_world)))
  = ["gen_ai.tool.call"; "gen_ai.tool.result"].
Proof. vm_compute. reflexivity. Qed.

(** A producer that stops on an unencodable value never closes: the drain
    loop is left waiting. *)
Example failed_producer_leaves_drain_waiting :
  let s := run 0 [Producer; Producer; Consumer; Consumer]
               (spawn (ops_of [("test.event", Some set_attrs)] ++ [Close])
                      listening_world) in
  sys_producer_error s = Some (TypeError "Object of type set is not JSON serializable")
  /\ sys_consumer s = inr Waiting.
Proof. split; vm_compute; reflexivity. Qed.

(** ** The statements at sample inputs *)

Lemma tool_call_attrs_keys : NoDup (dict_keys tool_call_attrs).
Proof. apply (bool_decide_unpack _). vm_compute. reflexivity. Defined.

Lemma dual_emission_witness :
  NoDup (dict_keys (or_empty (Some tool_call_attrs)))
  /\ serializable (or_empty (Some tool_call_attrs)) = true
  /\ exists w', add_event "gen_ai.tool.call" (Some tool_call_attrs) listening_world
                = (inr tt, w').
Proof.
  split; [exact tool_call_attrs_keys|]. split; [vm_compute; reflexivity|].
  destruct (dual_emission "gen_ai.tool.call" (Some tool_call_attrs) listening_world
              tool_call_attrs_keys ltac:(vm_compute; reflexivity)) as (w' & H & _).
  exists w'. exact H.
Defined.

Lemma drain_in_emission_order_witness :
  let schedule := [Consumer; Producer; Consumer; Consumer; Producer] in
  let s := run 0 (schedule ++ repeat Producer 3 ++ repeat Consumer 3)
               (spawn (ops_of tool_calls ++ [Close]) listening_world) in
  _event_queue listening_world = Some 0
  /\ queue_of 0 listening_world = []
  /\ all_serializable tool_calls = true
  /\ sys_consumer s = inr Exhausted
  /\ sys_collected s
     = events_of (current_span listening_world) (clock listening_world)
                 (ticks listening_world) tool_calls.
Proof.
  intros schedule s.
  split; [reflexivity|]. split; [reflexivity|]. split; [vm_compute; reflexivity|].
  destruct (drain_in_emission_order unit 0 [] tool_calls listening_world schedule
              eq_refl eq_refl eq_refl ltac:(vm_compute; reflexivity))
    as (_ & _ & _ & _ & Hex & Hall & _).
  split; [exact Hex|exact Hall].
Defined.


(** A value outside the input contract: with no stream active,
    [add_event] on an attribute that holds a [set] inside a [list] raises
    the [TypeError] of [json.dumps]; the failure surfaces to the caller. *)
Lemma emit_unencodable_raises :
  _event_queue quiet_world = None
  /\ fst (emits [("test.event", Some set_attrs)] quiet_world)
     = inl (TypeError "Object of type set is not JSON serializable").
Proof. split; [reflexivity|vm_compute; reflexivity]. Defined.

Lemma no_streaming_without_queue_witness :
  _event_queue quiet_world = None
  /\ serializable (or_empty (Some tool_call_attrs)) = true
  /\ exists w',
       add_event "gen_ai.tool.call" (Some tool_call_attrs) quiet_world = (inr tt, w')
       /\ calls w' = calls quiet_world
                     ++ span_calls (current_span quiet_world) "gen_ai.tool.call"
                                   (or_empty (Some tool_call_attrs)).
Proof.
  split; [reflexivity|]. split; [vm_compute; reflexivity|].
  exact (proj2 (no_streaming_without_queue "gen_ai.tool.call" (Some tool_call_attrs)
                  quiet_world eq_refl)
               ltac:(vm_compute; reflexivity)).
Defined.

Lemma callbacks_before_yield_witness :
  let w : World (list StreamEvent) :=
    set_callbacks 0 (map pure_callback [fun e seen => seen ++ [e]])
      (set_queue 0 [Some (named_event "a"); Some (named_event "b"); None]
         (initial_world no_span sample_clock [])) in
  _callbacks (stream_at 0 w) = map pure_callback [fun e seen => seen ++ [e]]
  /\ queue_of 0 w = map Some [named_event "a"; named_event "b"] ++ [None]
  /\ fst (async_for 3 0 (fun _ => ret tt) w)
     = inr ([named_event "a"; named_event "b"], Exhausted)
  /\ _callbacks (stream_at 0 failing_world)
     = map pure_callback [fun e seen => seen ++ [e]]
       ++ failing_on "b" :: map pure_callback []
  /\ queue_of 0 failing_world
     = map Some [named_event "a"]
       ++ Some (named_event "b") :: [Some (named_event "c"); None]
  /\ failing_on "b" (named_event "b") [named_event "a"; named_event "b"]
     = (inl (UserError "boom"), [named_event "a"; named_event "b"])
  /\ fst (async_for 4 0 (fun _ => ret tt) failing_world) = inl (UserError "boom")
  /\ user (snd (async_for 4 0 (fun _ => ret tt) failing_world))
     = [named_event "a"; named_event "b"]
  /\ queue_of 0 (snd (async_for 4 0 (fun _ => ret tt) failing_world))
     = [Some (named_event "c"); None].
Proof.
  intros w. split; [reflexivity|]. split; [reflexivity|]. split.
  - rewrite (proj1 (proj2 callbacks_before_yield) (list StreamEvent) 0
               [fun e seen => seen ++ [e]] (fun _ u => u) (fun _ => ret tt)
               [named_event "a"; named_event "b"] [] 3 w).
    + reflexivity.
    + intros e w'. destruct w'; reflexivity.
    + reflexivity.
    + reflexivity.
    + simpl. lia.
  - split; [reflexivity|]. split; [reflexivity|]. split; [reflexivity|].
    rewrite (proj1 (proj2 (proj2 (proj2 callbacks_before_yield))) (list StreamEvent) 0
               [fun e seen => seen ++ [e]] [] (failing_on "b") (fun _ u => u)
               (fun _ u => u) (fun _ => ret tt)
               [named_event "a"] (named_event "b") [Some (named_event "c"); None]
               (UserError "boom") [named_event "a"; named_event "b"] 4 failing_world).
    + split; [reflexivity|]. split; reflexivity.
    + intros e w'. destruct w'; reflexivity.
    + reflexivity.
    + reflexivity.
    + intros e' u Hin. apply elem_of_cons in Hin as [->|Hin]; [reflexivity|].
      apply elem_of_nil in Hin. contradiction.
    + reflexivity.
    + simpl. lia.
Defined.

Lemma nested_streams_isolated_witness :
  all_serializable tool_calls = true
  /\ exists outer inner w',
       nested_streams true [("outer.before", None)] tool_calls [("outer.after", None)]
                      quiet_world
       = (inr (outer, inner), w')
       /\ outer <> inner
       /\ queue_of inner w'
          = map Some (events_of no_span sample_clock 1 tool_calls) ++ [None].
Proof.
  split; [vm_compute; reflexivity|].
  destruct (nested_streams_isolated true [("outer.before", None)] tool_calls
              [("outer.after", None)] quiet_world
              eq_refl ltac:(vm_compute; reflexivity) eq_refl)
    as (outer & inner & w' & Hrun & Hne & _ & _ & Hin & _).
  exists outer, inner, w'. split; [exact Hrun|]. split; [exact Hne|exact Hin].
Defined.

Lemma correlation_fields_witness :
  _event_queue listening_world = Some 0
  /\ serializable (or_empty (Some tool_call_attrs)) = true
  /\ exists w' e,
       add_event "gen_ai.tool.call" (Some tool_call_attrs) listening_world = (inr tt, w')
       /\ queue_of 0 w' = queue_of 0 listening_world ++ [Some e]
       /\ se_span_name e = "agent.run"
       /\ se_span_id e = "0123456789abcdef"
       /\ se_trace_id e = "0af7651916cd43dd8448eb211c80319c".
Proof.
  split; [reflexivity|]. split; [vm_compute; reflexivity|].
  destruct (correlation_fields "gen_ai.tool.call" (Some tool_call_attrs) listening_world 0
              eq_refl ltac:(vm_compute; reflexivity))
    as (w' & e & Hrun & Hq & _ & Hname & Hsid & Htid & _).
  exists w', e. split; [exact Hrun|]. split; [exact Hq|].
  split; [exact Hname|]. split.
  - rewrite Hsid. vm_compute. reflexivity.
  - rewrite Htid. vm_compute. reflexivity.
Defined.

Lemma close_twice_then_drain_witness :
  queue_of 0 quiet_world = []
  /\ exists w1 w2,
       close 0 quiet_world = (inr tt, w1)
       /\ close 0 w1 = (inr tt, w2)
       /\ fst (drain 1 0 w1) = inr ([], Exhausted)
       /\ fst (drain 1 0 w2) = inr ([], Exhausted).
Proof.
  split; [reflexivity|].
  destruct (close_twice_then_drain 0 quiet_world) as (w1 & w2 & H1 & H2 & _ & Hd).
  exists w1, w2. split; [exact H1|]. split; [exact H2|].
  exact (Hd eq_refl 0).
Defined.

Lemma events_snapshot_witness :
  queue_of 0 buffered_world = [Some (named_event "a")] ++ None :: [Some (named_event "b")]
  /\ fst (events 0 buffered_world) = inr [named_event "a"; named_event "b"]
  /\ queue_of 0 (snd (events 0 buffered_world)) = [].
Proof.
  split; [reflexivity|].
  destruct (events_snapshot 0 buffered_world) as (Hev & Hskip & Hempty & _).
  rewrite Hev. cbn [fst snd].
  rewrite (Hskip [Some (named_event "a")] [Some (named_event "b")] eq_refl).
  split; [reflexivity|exact Hempty].
Defined.

(** ** Dictionaries *)

Section DictFacts.
Implicit Types (d extra : dict) (k : string) (v : value).

Lemma elem_of_map {A B : Type} (f : A -> B) (l : list A) (y : B) :
  y ∈ map f l <-> exists x, y = f x /\ x ∈ l.
Proof.
  induction l as [|a l IH]; simpl.
  - split; [intros H; apply elem_of_nil in H; contradiction|].
    intros (x & _ & H). apply elem_of_nil in H. contradiction.
  - rewrite elem_of_cons, IH. split.
    + intros [->|(x & -> & Hin)]; [exists a|exists x]; rewrite elem_of_cons; auto.
    + intros (x & -> & Hin). apply elem_of_cons in Hin as [->|Hin]; [auto|].
      right. exists x. auto.
Qed.

Lemma dict_get_set_eq k v d : dict_get k (dict_set k v d) = Some v.
Proof.
  induction d as [|[k' x] d IH]; simpl.
  - rewrite String.eqb_refl. reflexivity.
  - destruct (String.eqb_spec k k') as [->|Hne]; simpl.
    + rewrite String.eqb_refl. reflexivity.
    + destruct (String.eqb_spec k k'); [congruence|]. exact IH.
Qed.

Lemma dict_get_set_ne k k' v d :
  k <> k' -> dict_get k (dict_set k' v d) = dict_get k d.
Proof.
  intros Hne. induction d as [|[k0 x] d IH]; simpl.
  - destruct (String.eqb_spec k k'); [congruence|reflexivity].
  - destruct (String.eqb_spec k' k0) as [->|Hne0]; simpl.
    + destruct (String.eqb_spec k k0); [congruence|reflexivity].
    + destruct (String.eqb_spec k k0); [reflexivity|exact IH].
Qed.

Lemma dict_get_None k d : dict_get k d = None <-> k ∉ dict_keys d.
Proof.
  unfold dict_keys. induction d as [|[k' x] d IH]; simpl.
  - split; [intros _; apply not_elem_of_nil|reflexivity].
  - rewrite not_elem_of_cons. destruct (String.eqb_spec k k') as [->|Hne].
    + split; [discriminate|intros [H _]; congruence].
    + rewrite IH. tauto.
Qed.

Lemma dict_get_Some_key k v d : dict_get k d = Some v -> k ∈ dict_keys d.
Proof.
  intros H. destruct (decide (k ∈ dict_keys d)) as [Hin|Hout]; [exact Hin|].
  apply dict_get_None in Hout. congruence.
Qed.

Lemma dict_get_Some_value k v d : dict_get k d = Some v -> v ∈ map snd d.
Proof.
  induction d as [|[k' x] d IH]; simpl; [discriminate|].
  destruct (String.eqb k k').
  - intros [= ->]. apply elem_of_cons. left. reflexivity.
  - intros H. apply elem_of_cons. right. apply IH, H.
Qed.

Lemma elem_of_keys_set k k' v d :
  k ∈ dict_keys (dict_set k' v d) <-> k = k' \/ k ∈ dict_keys d.
Proof.
  unfold dict_keys. induction d as [|[k0 x] d IH]; simpl.
  - rewrite elem_of_cons. split; [intros [H|H]; [auto|apply elem_of_nil in H; contradiction]|].
    intros [H|H]; [left; exact H|]. apply elem_of_nil in H. contradiction.
  - destruct (String.eqb_spec k' k0) as [->|Hne]; simpl.
    + rewrite !elem_of_cons. tauto.
    + rewrite !elem_of_cons, IH. tauto.
Qed.

Lemma NoDup_keys_set k v d :
  NoDup (dict_keys d) -> NoDup (dict_keys (dict_set k v d)).
Proof.
  induction d as [|[k0 x] d IH]; simpl; intros Hnd.
  - apply NoDup_singleton.
  - destruct (String.eqb_spec k k0) as [->|Hne]; [exact Hnd|].
    change (NoDup (k0 :: dict_keys (dict_set k v d))).
    change (NoDup (k0 :: dict_keys d)) in Hnd.
    apply NoDup_cons in Hnd as [Hout Hnd]. apply NoDup_cons. split; [|apply IH, Hnd].
    rewrite elem_of_keys_set. intros [->|Hin]; [congruence|contradiction].
Qed.

Lemma NoDup_keys_update extra :
  forall d, NoDup (dict_keys d) -> NoDup (dict_keys (dict_update d extra)).
Proof.
  unfold dict_update. induction extra as [|[k v] extra IH]; intros d Hnd; simpl.
  - exact Hnd.
  - apply IH, NoDup_keys_set, Hnd.
Qed.

Lemma elem_of_keys_update k extra :
  forall d, k ∈ dict_keys (dict_update d extra)
            <-> k ∈ dict_keys d \/ k ∈ dict_keys extra.
Proof.
  unfold dict_update. induction extra as [|[k' v] extra IH]; intros d; simpl.
  - split; [auto|]. intros [H|H]; [exact H|]. apply elem_of_nil in H. contradiction.
  - rewrite IH, elem_of_keys_set. unfold dict_keys at 3. simpl.
    rewrite elem_of_cons. fold (dict_keys extra). tauto.
Qed.

Lemma dict_get_update_notin k extra :
  forall d, k ∉ dict_keys extra -> dict_get k (dict_update d extra) = dict_get k d.
Proof.
  unfold dict_update. induction extra as [|[k' v] extra IH]; intros d Hout; simpl.
  - reflexivity.
  - unfold dict_keys in Hout. simpl in Hout. apply not_elem_of_cons in Hout as [Hne Hout].
    rewrite IH by exact Hout. apply dict_get_set_ne, Hne.
Qed.

Lemma dict_get_update_in k v extra :
  NoDup (dict_keys extra) -> dict_get k extra = Some v ->
  forall d, dict_get k (dict_update d extra) = Some v.
Proof.
  unfold dict_update. induction extra as [|[k' x] extra IH]; intros Hnd Hget d; simpl.
  - discriminate.
  - change (NoDup (k' :: dict_keys extra)) in Hnd.
    apply NoDup_cons in Hnd as [Hout Hnd]. simpl in Hget.
    destruct (String.eqb_spec k k') as [->|Hne].
    + injection Hget as ->.
      change (dict_get k' (dict_update (dict_set k' v d) extra) = Some v).
      rewrite dict_get_update_notin by exact Hout. apply dict_get_set_eq.
    + apply IH; assumption.
Qed.

Lemma Forall_values_set (P : value -> Prop) k v d :
  Forall (fun kv => P (snd kv)) d -> P v ->
  Forall (fun kv => P (snd kv)) (dict_set k v d).
Proof.
  intros Hd Hv. induction d as [|[k' x] d IH]; simpl.
  - constructor; [exact Hv|constructor].
  - apply Forall_cons in Hd as [Hx Hd].
    destruct (String.eqb k k'); constructor; auto.
Qed.

Lemma Forall_values_update (P : value -> Prop) extra :
  Forall (fun kv => P (snd kv)) extra ->
  forall d, Forall (fun kv => P (snd kv)) d ->
            Forall (fun kv => P (snd kv)) (dict_update d extra).
Proof.
  unfold dict_update. induction extra as [|[k v] extra IH]; intros Hex d Hd; simpl.
  - exact Hd.
  - apply Forall_cons in Hex as [Hv Hex]. apply IH; [exact Hex|].
    apply Forall_values_set; assumption.
Qed.

End DictFacts.

(** ** Further properties of the sink *)

Section SinkMore.
Context {U : Type}.
Implicit Types (w : World U) (attrs : dict).

Lemma add_event_cases name attributes w :
  (serializable (or_empty attributes) = true
   /\ add_event name attributes w = (inr tt, emitted name (or_empty attributes) w))
  \/ (serializable (or_empty attributes) = false
      /\ exists e vs,
           add_event name attributes w
           = (inl e, mkWorld (current_span w) (_event_queue w) (streams w) (clock w)
                             (ticks w) (calls w ++ map CJsonDumps vs) (user w))).
Proof.
  destruct (serializable (or_empty attributes)) eqn:Hok.
  - left. split; [reflexivity|]. apply add_event_spec, Hok.
  - right. split; [reflexivity|]. apply add_event_raises, Hok.
Qed.

Lemma add_event_returned name attributes w w' :
  add_event name attributes w = (inr tt, w') ->
  serializable (or_empty attributes) = true
  /\ w' = emitted name (or_empty attributes) w.
Proof.
  intros Hrun. destruct (add_event_cases name attributes w) as [[Hok H]|[_ (e & vs & H)]];
    rewrite H in Hrun.
  - injection Hrun as <-. auto.
  - discriminate.
Qed.

Lemma filter_dumps (p : effect -> bool) (vs : list value) :
  (forall v, p (CJsonDumps v) = false) ->
  List.filter p (map CJsonDumps vs) = [].
Proof.
  intros Hp. induction vs as [|v vs' IH]; simpl; [reflexivity|].
  rewrite Hp. exact IH.
Qed.

(** X1: an [add_event] that fails on an attribute value fails before it
    reaches the span or the queue: the exception leaves the span with the
    events it had, every stream as it was and the clock unread, also when
    the span records and a queue is active. *)
Theorem failed_emit_emits_nothing name (attributes : option dict) (w : World U) :
  serializable (or_empty attributes) = false ->
  exists e w',
    add_event name attributes w = (inl e, w')
    /\ current_span w' = current_span w
    /\ streams w' = streams w
    /\ _event_queue w' = _event_queue w
    /\ ticks w' = ticks w
    /\ user w' = user w
    /\ count_calls is_span_add (calls w') = count_calls is_span_add (calls w)
    /\ count_calls is_put (calls w') = count_calls is_put (calls w).
Proof.
  intros Hok. destruct (add_event_raises name attributes w Hok) as (e & vs & H).
  eexists e, _. split; [exact H|]. cbn [current_span streams _event_queue ticks user calls].
  repeat (split; [reflexivity|]).
  unfold count_calls. rewrite !List.filter_app, !length_app.
  rewrite (filter_dumps is_span_add), (filter_dumps is_put) by reflexivity.
  simpl. lia.
Qed.

Lemma span_after_static sp name attrs :
  sp_is_recording (span_after sp name attrs) = sp_is_recording sp
  /\ sp_name (span_after sp name attrs) = sp_name sp
  /\ sp_context (span_after sp name attrs) = sp_context sp.
Proof. unfold span_after. destruct (sp_is_recording sp) eqn:H; simpl; auto. Qed.

(** X2: whatever [add_event] returns, it leaves the active queue the
    active one, changes no token and no callback list, and changes no
    queue but the active one, to which it adds at most one item, an
    event: it never puts the sentinel and never takes an item out.  The
    span stays the same span, recording or not. *)
Theorem add_event_frame name (attributes : option dict) (w : World U) r w' :
  add_event name attributes w = (r, w') ->
  _event_queue w' = _event_queue w
  /\ clock w' = clock w
  /\ user w' = user w
  /\ sp_is_recording (current_span w') = sp_is_recording (current_span w)
  /\ sp_name (current_span w') = sp_name (current_span w)
  /\ sp_context (current_span w') = sp_context (current_span w)
  /\ forall q,
       _token (stream_at q w') = _token (stream_at q w)
       /\ _callbacks (stream_at q w') = _callbacks (stream_at q w)
       /\ exists added : list StreamEvent,
            queue_of q w' = queue_of q w ++ map Some added
            /\ length added <= 1
            /\ (is_active q w = false -> added = []).
Proof.
  intros Hrun.
  destruct (add_event_cases name attributes w) as [[Hok H]|[_ (e & vs & H)]];
    rewrite H in Hrun; injection Hrun as <- <-.
  - rewrite slot_emitted, clock_emitted, user_emitted, span_emitted.
    destruct (span_after_static (current_span w) name (or_empty attributes))
      as (H1 & H2 & H3).
    do 6 (split; [assumption || reflexivity|]).
    intros q. unfold queue_of. rewrite stream_at_emitted. cbn [_queue _token _callbacks].
    split; [reflexivity|]. split; [reflexivity|].
    unfold items_for, is_active. destruct (_event_queue w) as [q0|].
    + destruct (decide (q0 = q)) as [->|Hne].
      * eexists [_]. split; [reflexivity|]. split; [simpl; lia|].
        rewrite Nat.eqb_refl. discriminate.
      * exists []. split; [reflexivity|]. split; [simpl; lia|reflexivity].
    + exists []. split; [reflexivity|]. split; [simpl; lia|reflexivity].
  - cbn [_event_queue clock user current_span].
    do 6 (split; [reflexivity|]).
    intros q. split; [reflexivity|]. split; [reflexivity|].
    exists []. split; [unfold queue_of, stream_at; simpl; rewrite app_nil_r; reflexivity|].
    split; [simpl; lia|reflexivity].
Qed.

End SinkMore.

Section SinkEffects.
Context {U : Type}.
Implicit Types (w : World U) (attrs : dict).

Lemma count_calls_app p (xs ys : list effect) :
  count_calls p (xs ++ ys) = count_calls p xs + count_calls p ys.
Proof. unfold count_calls. rewrite List.filter_app, length_app. reflexivity. Qed.

Lemma count_calls_dumps p (vs : list value) :
  (forall v, p (CJsonDumps v) = false) -> count_calls p (map CJsonDumps vs) = 0.
Proof. intros Hp. unfold count_calls. rewrite filter_dumps by exact Hp. reflexivity. Qed.

Lemma calls_emitted name attrs w :
  calls (emitted name attrs w)
  = calls w ++ span_calls (current_span w) name attrs
            ++ match _event_queue w with
               | Some q => stream_calls (current_span w) (clock w (ticks w)) name attrs q
               | None => []
               end.
Proof.
  unfold emitted. destruct (_event_queue w); cbn [calls]; rewrite ?app_nil_r; reflexivity.
Qed.

(** X3: an [add_event] that returns has called [span.add_event] once if
    the span records and not at all otherwise, and [put_nowait] once if a
    queue is active and not at all otherwise; the span has that many more
    events, the active queue that many more items, every other queue as
    many as before, and the clock was read once per queued event. *)
Theorem add_event_writes_once name (attributes : option dict) (w w' : World U) :
  add_event name attributes w = (inr tt, w') ->
  (exists made,
      calls w' = calls w ++ made
      /\ count_calls is_span_add made = one_if (sp_is_recording (current_span w))
      /\ count_calls is_put made = one_if (streaming w))
  /\ length (sp_events (current_span w'))
     = length (sp_events (current_span w)) + one_if (sp_is_recording (current_span w))
  /\ (forall q, length (queue_of q w') = length (queue_of q w) + one_if (is_active q w))
  /\ ticks w' = ticks w + one_if (streaming w).
Proof.
  intros Hrun. apply add_event_returned in Hrun as [_ ->].
  split; [|split; [|split]].
  - eexists. split; [apply calls_emitted|].
    rewrite !count_calls_app. unfold span_calls, stream_calls, streaming.
    rewrite !count_calls_app, !count_calls_dumps by reflexivity.
    destruct (_event_queue w) as [q|], (sp_is_recording (current_span w)); split; reflexivity.
  - rewrite span_events_emitted, length_app.
    destruct (sp_is_recording (current_span w)); reflexivity.
  - intros q. unfold queue_of at 1. rewrite stream_at_emitted. cbn [_queue].
    rewrite length_app. f_equal. unfold items_for, is_active.
    destruct (_event_queue w) as [q0|]; [|reflexivity].
    destruct (decide (q0 = q)) as [->|Hne].
    + rewrite Nat.eqb_refl. reflexivity.
    + apply Nat.eqb_neq in Hne. rewrite Hne. reflexivity.
  - rewrite ticks_emitted. unfold streaming. destruct (_event_queue w); simpl; lia.
Qed.

Lemma persisted_flat v : is_dict_or_list (persisted v) = false.
Proof. unfold persisted. destruct v; reflexivity. Qed.

Lemma serialized_attrs_of_update attrs :
  serialized_attrs_of attrs
  = dict_update [] (map (fun kv => (fst kv, persisted (snd kv))) attrs).
Proof.
  unfold serialized_attrs_of, dict_update. generalize (@nil (string * value)).
  induction attrs as [|[k v] attrs IH]; intros acc; simpl; [reflexivity|]. apply IH.
Qed.

(** X4: the mapping a recording span is handed has the keys of the
    attributes, each once, and every value in it is either a value of the
    attributes that is no dict and no list, or the JSON text of one that
    is: no dict and no list reaches the span. *)
Theorem span_receives_flat_attributes name (attributes : option dict) (w w' : World U) :
  add_event name attributes w = (inr tt, w') ->
  sp_is_recording (current_span w) = true ->
  exists handed,
    sp_events (current_span w') = sp_events (current_span w) ++ [(name, handed)]
    /\ NoDup (dict_keys handed)
    /\ (forall k, k ∈ dict_keys handed <-> k ∈ dict_keys (or_empty attributes))
    /\ (forall k v, dict_get k handed = Some v ->
                    is_dict_or_list v = false
                    /\ exists x, x ∈ map snd (or_empty attributes)
                                 /\ v = (if is_dict_or_list x then VStr (json_text x) else x)).
Proof.
  intros Hrun Hrec. apply add_event_returned in Hrun as [_ ->].
  exists (serialized_attrs_of (or_empty attributes)).
  rewrite span_events_emitted, Hrec. split; [reflexivity|].
  rewrite serialized_attrs_of_update. set (attrs := or_empty attributes).
  split; [|split].
  - apply NoDup_keys_update. apply NoDup_nil. exact I.
  - intros k. rewrite elem_of_keys_update. unfold dict_keys.
    rewrite map_map. simpl. split; [intros [H|H]; [apply elem_of_nil in H; contradiction|exact H]|auto].
  - intros k v Hget. apply dict_get_Some_value in Hget.
    assert (Hall : Forall (fun kv => is_dict_or_list (snd kv) = false
                                     /\ exists x, x ∈ map snd attrs /\ snd kv = persisted x)
                          (dict_update [] (map (fun kv => (fst kv, persisted (snd kv))) attrs))).
    { apply (Forall_values_update
               (fun v => is_dict_or_list v = false
                         /\ exists x, x ∈ map snd attrs /\ v = persisted x));
        [|constructor].
      apply Forall_forall. intros [k' v'] Hin. simpl.
      apply elem_of_map in Hin as ([k0 x] & [= -> ->] & Hin).
      split; [apply persisted_flat|]. exists x. split; [|reflexivity].
      apply elem_of_map. exists (k0, x). auto. }
    apply elem_of_map in Hget as ([k0 v0] & -> & Hin).
    rewrite Forall_forall in Hall. apply (Hall _ Hin).
Qed.

Lemma events_of_lookup sp clk (cs : list (string * option dict)) :
  forall t i e,
    events_of sp clk t cs !! i = Some e ->
    exists name attributes,
      cs !! i = Some (name, attributes)
      /\ e = event_of sp (clk (t + i)) name (or_empty attributes).
Proof.
  induction cs as [|[n a] cs IH]; intros t i e; simpl; [discriminate|].
  destruct i as [|i]; simpl.
  - intros [= <-]. exists n, a. rewrite Nat.add_0_r. auto.
  - intros H. apply IH in H as (n' & a' & H1 & H2).
    exists n', a'. split; [exact H1|]. rewrite H2. do 2 f_equal. lia.
Qed.

(** X5: successive [add_event] calls with a queue active read the clock
    once each, in order: the i-th queued event carries the i-th reading,
    so under a clock that never goes back the timestamps in the queue
    never decrease. *)
Theorem timestamps_follow_clock (cs : list (string * option dict)) (w : World U) q :
  all_serializable cs = true ->
  _event_queue w = Some q ->
  exists evs w',
    emits cs w = (inr tt, w')
    /\ queue_of q w' = queue_of q w ++ map Some evs
    /\ length evs = length cs
    /\ (forall i e, evs !! i = Some e -> se_timestamp_ns e = clock w (ticks w + i))
    /\ (monotone (clock w) ->
        forall i j e1 e2, i <= j -> evs !! i = Some e1 -> evs !! j = Some e2 ->
                          (se_timestamp_ns e1 <= se_timestamp_ns e2)%Z).
Proof.
  intros Hok Hq.
  exists (events_of (current_span w) (clock w) (ticks w) cs), (emitted_all cs w).
  split; [apply emits_spec, Hok|].
  assert (Hts : forall i e,
             events_of (current_span w) (clock w) (ticks w) cs !! i = Some e ->
             se_timestamp_ns e = clock w (ticks w + i)).
  { intros i e H. apply events_of_lookup in H as (n & a & _ & ->). reflexivity. }
  split; [|split; [|split]].
  - unfold queue_of at 1. rewrite stream_at_emitted_all. cbn [_queue].
    unfold items_for. rewrite Hq. destruct (decide (q = q)); [reflexivity|congruence].
  - clear. generalize (ticks w). induction cs as [|[n a] cs IH]; intros t; simpl;
      [reflexivity|]. rewrite IH. reflexivity.
  - exact Hts.
  - intros Hmono i j e1 e2 Hij H1 H2.
    rewrite (Hts _ _ H1), (Hts _ _ H2). apply Hmono. lia.
Qed.

End SinkEffects.

(** ** Further properties of the stream *)

Section StreamMore.
Context {U : Type}.
Implicit Types (w : World U).

Lemma emptied_cons self x rest w :
  queue_of self w = x :: rest -> emptied self (set_queue self rest w) = emptied self w.
Proof.
  intros Hq. unfold emptied. rewrite queue_of_set_queue_eq, Hq.
  destruct rest; [reflexivity|apply set_queue_twice].
Qed.

Lemma emptied_set_user self u w :
  emptied self (set_user u w) = set_user u (emptied self w).
Proof. unfold emptied. rewrite queue_of_set_user. destruct (queue_of self w); reflexivity. Qed.

Lemma async_for_waits (self : nat) (fs : list (StreamEvent -> U -> U))
      (g : StreamEvent -> U -> U) (body : StreamEvent -> M unit) :
  (forall e w, body e w = (inr tt, set_user (g e (user w)) w)) ->
  forall es fuel w,
    _callbacks (stream_at self w) = map pure_callback fs ->
    queue_of self w = map Some es ->
    length es < fuel ->
    async_for fuel self body w
    = (inr (es, Waiting), set_user (delivered fs g es (user w)) (emptied self w)).
Proof.
  intros Hbody. induction es as [|e es IH]; intros fuel w Hcb Hq Hfuel.
  - destruct fuel as [|fuel]; [simpl in Hfuel; lia|].
    simpl in Hq. simpl. unfold bind. rewrite (anext_empty _ _ Hq).
    unfold ret, delivered, emptied. rewrite Hq. simpl.
    rewrite set_user_same. reflexivity.
  - destruct fuel as [|fuel]; [simpl in Hfuel; lia|].
    simpl in Hq, Hfuel. simpl. unfold bind at 1.
    rewrite (anext_event _ _ _ _ Hq), Hcb, run_callbacks_pure.
    unfold bind at 1. rewrite Hbody. unfold bind.
    rewrite (IH fuel).
    + unfold ret. cbn [fst snd]. unfold delivered. simpl.
      rewrite !emptied_set_user, !set_user_twice, (emptied_cons _ _ _ _ Hq).
      reflexivity.
    + store_simpl. exact Hcb.
    + store_simpl. reflexivity.
    + lia.
Qed.

(** X6: without a sentinel a drain does not end.  It gives every queued
    event to the callbacks and the loop body, in queue order, leaves the
    queue empty and then waits for the next item; the active queue, the
    token and the callbacks are as before. *)
Theorem drain_waits_without_sentinel (self : nat) (fs : list (StreamEvent -> U -> U))
        (g : StreamEvent -> U -> U) (body : StreamEvent -> M unit)
        (es : list StreamEvent) (fuel : nat) (w : World U) :
  (forall e w, body e w = (inr tt, set_user (g e (user w)) w)) ->
  _callbacks (stream_at self w) = map pure_callback fs ->
  queue_of self w = map Some es ->
  length es < fuel ->
  exists w',
    async_for fuel self body w = (inr (es, Waiting), w')
    /\ queue_of self w' = []
    /\ user w' = delivered fs g es (user w)
    /\ _event_queue w' = _event_queue w
    /\ _token (stream_at self w') = _token (stream_at self w)
    /\ _callbacks (stream_at self w') = _callbacks (stream_at self w).
Proof.
  intros Hbody Hcb Hq Hfuel. eexists. split.
  - exact (async_for_waits self fs g body Hbody es fuel w Hcb Hq Hfuel).
  - rewrite queue_of_set_user, stream_at_set_user. split; [apply queue_of_emptied|].
    split; [reflexivity|]. unfold emptied.
    destruct (queue_of self w); [auto|]. store_simpl. auto.
Qed.

(** X7: a sentinel ends the drain that takes it and no other: of a queue
    with two sentinels the first drain gives the events before the first
    one and the next drain the events between the two; what follows the
    second sentinel stays queued. *)
Theorem sentinel_ends_one_drain (self : nat) (fs : list (StreamEvent -> U -> U))
        (g : StreamEvent -> U -> U) (body : StreamEvent -> M unit)
        (es1 es2 : list StreamEvent) (rest : list item) (fuel1 fuel2 : nat)
        (w : World U) :
  (forall e w, body e w = (inr tt, set_user (g e (user w)) w)) ->
  _callbacks (stream_at self w) = map pure_callback fs ->
  queue_of self w = map Some es1 ++ None :: map Some es2 ++ None :: rest ->
  length es1 < fuel1 ->
  length es2 < fuel2 ->
  exists w1 w2,
    async_for fuel1 self body w = (inr (es1, Exhausted), w1)
    /\ async_for fuel2 self body w1 = (inr (es2, Exhausted), w2)
    /\ queue_of self w2 = rest
    /\ user w2 = delivered fs g (es1 ++ es2) (user w).
Proof.
  intros Hbody Hcb Hq Hf1 Hf2. eexists _, _. split; [|split; [|split]].
  - exact (async_for_delivers self fs g body Hbody es1 fuel1 w _ Hcb Hq Hf1).
  - apply (async_for_delivers self fs g body Hbody es2 fuel2 _ rest).
    + store_simpl. exact Hcb.
    + store_simpl. reflexivity.
    + exact Hf2.
  - store_simpl. reflexivity.
  - cbn [user set_user]. unfold delivered. rewrite fold_left_app. reflexivity.
Qed.

End StreamMore.

Section StreamEdges.
Context {U : Type}.
Implicit Types (w : World U).

Lemma events_in_events (evs : list StreamEvent) : events_in (map Some evs) = evs.
Proof.
  unfold events_in. induction evs as [|e evs IH]; simpl; [reflexivity|].
  f_equal. exact IH.
Qed.

Lemma events_in_app (q1 q2 : list item) :
  events_in (q1 ++ q2) = events_in q1 ++ events_in q2.
Proof. unfold events_in. apply omap_app. Qed.

Lemma drain_pure_callbacks (self : nat) (fs : list (StreamEvent -> U -> U))
      (es : list StreamEvent) (rest : list item) w :
  _callbacks (stream_at self w) = map pure_callback fs ->
  queue_of self w = map Some es ++ None :: rest ->
  drain (S (length es)) self w
  = (inr (es, Exhausted),
     set_user (delivered fs (fun _ u => u) es (user w)) (set_queue self rest w)).
Proof.
  intros Hcb Hq. unfold drain.
  apply (async_for_delivers self fs (fun _ u => u) (fun _ => ret tt)).
  - intros e w'. unfold ret. rewrite set_user_same. reflexivity.
  - exact Hcb.
  - exact Hq.
  - lia.
Qed.

(** X8: an event emitted after [close], with the stream still active,
    is queued behind the sentinel.  The drain ends at the sentinel
    without it; the event stays on the queue, where the [events]
    property finds it. *)
Theorem emit_after_close_stays_queued name (attributes : option dict)
        (fs : list (StreamEvent -> U -> U)) (es : list StreamEvent) (q : nat)
        (w : World U) :
  _event_queue w = Some q ->
  queue_of q w = map Some es ++ [None] ->
  _callbacks (stream_at q w) = map pure_callback fs ->
  serializable (or_empty attributes) = true ->
  exists w1 w2 w3,
    add_event name attributes w = (inr tt, w1)
    /\ drain (S (length es)) q w1 = (inr (es, Exhausted), w2)
    /\ queue_of q w2
       = [Some (event_of (current_span w) (clock w (ticks w)) name (or_empty attributes))]
    /\ events q w2
       = (inr [event_of (current_span w) (clock w (ticks w)) name (or_empty attributes)],
          w3)
    /\ queue_of q w3 = [].
Proof.
  intros Hslot Hq Hcb Hok. eexists _, _, _. split; [apply add_event_spec, Hok|].
  assert (Hq1 : queue_of q (emitted name (or_empty attributes) w)
                = map Some es
                  ++ None :: [Some (event_of (current_span w) (clock w (ticks w))
                                             name (or_empty attributes))]).
  { rewrite (queue_of_emitted _ _ _ _ Hslot), Hq, <- app_assoc. reflexivity. }
  assert (Hcb1 : _callbacks (stream_at q (emitted name (or_empty attributes) w))
                 = map pure_callback fs).
  { rewrite stream_at_emitted. exact Hcb. }
  split; [apply (drain_pure_callbacks q fs es _ _ Hcb1 Hq1)|].
  split; [store_simpl; reflexivity|].
  unfold events. rewrite events_loop_spec. split.
  - store_simpl. reflexivity.
  - apply queue_of_emptied.
Qed.

Lemma events_of_names sp clk (cs : list (string * option dict)) :
  forall t, map se_name (events_of sp clk t cs) = map fst cs
            /\ map se_attributes (events_of sp clk t cs)
               = map (fun c => or_empty (snd c)) cs.
Proof.
  induction cs as [|[n a] cs IH]; intros t; simpl; [auto|].
  destruct (IH (S t)) as [-> ->]. auto.
Qed.

(** X9: what [add_event] was given comes back from the [events]
    property: after a run of calls with the stream active, [events]
    returns what the queue held before followed by one event per call,
    in call order, each with the name and the attributes of its call,
    nested values as they were passed; a second [events] returns the
    empty list. *)
Theorem snapshot_returns_emitted (cs : list (string * option dict)) (q : nat)
        (w : World U) :
  _event_queue w = Some q ->
  all_serializable cs = true ->
  exists evs w1 w2,
    emits cs w = (inr tt, w1)
    /\ events q w1 = (inr (events_in (queue_of q w) ++ evs), w2)
    /\ map se_name evs = map fst cs
    /\ map se_attributes evs = map (fun c => or_empty (snd c)) cs
    /\ events q w2 = (inr [], w2).
Proof.
  intros Hslot Hok.
  exists (events_of (current_span w) (clock w) (ticks w) cs), (emitted_all cs w).
  eexists. split; [apply emits_spec, Hok|].
  unfold events. rewrite !events_loop_spec. split; [|split; [|split]].
  - f_equal. unfold queue_of at 1. rewrite stream_at_emitted_all. cbn [_queue].
    unfold items_for. rewrite Hslot, decide_True by reflexivity.
    rewrite events_in_app, events_in_events. reflexivity.
  - apply events_of_names.
  - apply events_of_names.
  - rewrite queue_of_emptied. f_equal. unfold emptied at 1.
    rewrite queue_of_emptied. reflexivity.
Qed.

Lemma exit_after_exit self exc w old :
  _token (stream_at self w) = Some (mkToken old true) ->
  __exit__ self exc w = (inl token_used, w)
  /\ __aexit__ self exc w = (inl token_used, w).
Proof.
  intros Ht. unfold __exit__, __aexit__, bind.
  rewrite (reset_queue_used _ _ _ Ht). auto.
Qed.

(** X10: a scope is left once.  A second [__exit__] after [__enter__]
    and [__exit__] raises the error of the used token and changes
    nothing: the active queue is the one restored by the first exit.  A
    second [__aexit__] raises it before it reaches [put_nowait]: the
    queue holds the one sentinel of the first exit. *)
Theorem second_exit_raises (self : nat) (exc1 exc2 : option exn) (w : World U) :
  (exists w',
      (__enter__ self ;; __exit__ self exc1 ;; __exit__ self exc2) w
      = (inl token_used, w')
      /\ _event_queue w' = _event_queue w
      /\ queue_of self w' = queue_of self w)
  /\ (exists w',
         (__aenter__ self ;; __aexit__ self exc1 ;; __aexit__ self exc2) w
         = (inl token_used, w')
         /\ _event_queue w' = _event_queue w
         /\ queue_of self w' = queue_of self w ++ [None]).
Proof.
  split.
  - eexists. split.
    + unfold bind at 1. rewrite enter_spec. unfold bind at 1. unfold __exit__ at 1.
      rewrite (reset_queue_spec _ _ _ (token_entered self w)).
      apply exit_after_exit with (old := _event_queue w).
      rewrite token_set_token, decide_True; reflexivity.
    + split; reflexivity || (store_simpl; reflexivity).
  - eexists. split.
    + unfold bind at 1. rewrite aenter_spec. unfold bind at 1. unfold __aexit__ at 1.
      unfold bind at 1. rewrite (reset_queue_spec _ _ _ (token_entered self w)).
      rewrite put_nowait_spec.
      apply exit_after_exit with (old := _event_queue w).
      store_simpl. rewrite token_set_token, decide_True; reflexivity.
    + split; [reflexivity|]. store_simpl. reflexivity.
Qed.

(** X11: leaving a stream that was never entered.  [__exit__] returns
    and changes nothing: in particular the queue of another stream that
    is active stays active.  [__aexit__] returns and only puts the
    sentinel on the stream's own queue. *)
Theorem exit_before_enter (self : nat) (exc : option exn) (w : World U) :
  _token (stream_at self w) = None ->
  __exit__ self exc w = (inr tt, w)
  /\ exists w',
       __aexit__ self exc w = (inr tt, w')
       /\ _event_queue w' = _event_queue w
       /\ queue_of self w' = queue_of self w ++ [None]
       /\ _token (stream_at self w') = None
       /\ forall q, q <> self -> stream_at q w' = stream_at q w.
Proof.
  intros Ht.
  assert (Hreset : reset_queue self w = (inr tt, w)).
  { unfold reset_queue, bind, get_world. rewrite Ht. reflexivity. }
  split; [exact Hreset|]. eexists. split.
  - unfold __aexit__, bind. rewrite Hreset. apply put_nowait_spec.
  - split; [reflexivity|]. split; [store_simpl; reflexivity|].
    split; [store_simpl; exact Ht|].
    intros q Hne. rewrite stream_at_log_call. unfold set_queue.
    rewrite stream_at_set_stream, decide_False by (intros E; apply Hne; symmetry; exact E). reflexivity.
Qed.

End StreamEdges.

Section StreamNesting.
Context {U : Type}.
Implicit Types (w : World U).

Lemma token_set_token_ne a b t w :
  a <> b -> _token (stream_at a (set_token b t w)) = _token (stream_at a w).
Proof.
  intros Hne. rewrite token_set_token, decide_False; [reflexivity|].
  intros E. apply Hne. symmetry. exact E.
Qed.

Lemma token_set_token_eq a t w : _token (stream_at a (set_token a t w)) = t.
Proof. rewrite token_set_token, decide_True; reflexivity. Qed.

Lemma callbacks_set_callbacks_eq self cbs w :
  _callbacks (stream_at self (set_callbacks self cbs w)) = cbs.
Proof. unfold set_callbacks. rewrite stream_at_set_stream, decide_True; reflexivity. Qed.

(** X12: a stream entered a second time inside its own scope does not
    come back to where it started.  The second [__enter__] replaces the
    token of the first; the first [__exit__] restores the stream's own
    queue, the second one raises the error of the used token, and the
    stream's queue stays active instead of the value the slot had before
    the first [__enter__]. *)
Theorem reentered_stream_stays_active (self : nat) (exc1 exc2 : option exn)
        (w : World U) :
  exists w1 w2,
    (__enter__ self ;; __enter__ self ;; __exit__ self exc1) w = (inr tt, w1)
    /\ _event_queue w1 = Some self
    /\ __exit__ self exc2 w1 = (inl token_used, w2)
    /\ _event_queue w2 = Some self.
Proof.
  eexists _, _. split; [|split; [|split]].
  - unfold bind at 1. rewrite enter_spec. unfold bind at 1. rewrite enter_spec.
    unfold __exit__. apply reset_queue_spec. apply token_set_token_eq.
  - reflexivity.
  - unfold __exit__. apply reset_queue_used with (old := Some self).
    store_simpl. apply token_set_token_eq.
  - reflexivity.
Qed.

(** X13: scopes left out of order.  With stream [a] entered before
    stream [b], leaving [a] first and [b] second raises nothing, and each
    [__exit__] puts back the value its own [__enter__] replaced: after
    both, the queue of [a] is active although its scope was left, and the
    value the slot had before the two scopes is not restored. *)
Theorem exits_out_of_order_leave_outer_active (a b : nat) (exc1 exc2 : option exn)
        (w : World U) :
  a <> b ->
  exists w',
    (__enter__ a ;; __enter__ b ;; __exit__ a exc1 ;; __exit__ b exc2) w = (inr tt, w')
    /\ _event_queue w' = Some a
    /\ _token (stream_at a w') = Some (mkToken (_event_queue w) true)
    /\ _token (stream_at b w') = Some (mkToken (Some a) true).
Proof.
  intros Hne. eexists. split; [|split; [|split]].
  - unfold bind at 1. rewrite enter_spec. unfold bind at 1. rewrite enter_spec.
    unfold bind at 1. unfold __exit__ at 1.
    rewrite (reset_queue_spec a _ (_event_queue w)).
    + unfold __exit__. apply reset_queue_spec.
      rewrite token_set_token_ne by (intros E; apply Hne; symmetry; exact E).
      store_simpl. apply token_set_token_eq.
    + rewrite token_set_token_ne by exact Hne. store_simpl. apply token_set_token_eq.
  - reflexivity.
  - rewrite token_set_token_ne by exact Hne. store_simpl. apply token_set_token_eq.
  - apply token_set_token_eq.
Qed.

(** X14: the drain reads the list of callbacks at each event.  A
    callback registered between two events of a running drain is not
    given the event already yielded; it is given the next one, after the
    callbacks registered before it. *)
Theorem callback_registered_mid_drain (self : nat) (fs : list (StreamEvent -> U -> U))
        (f : StreamEvent -> U -> U) (e1 e2 : StreamEvent) (rest : list item)
        (w : World U) :
  _callbacks (stream_at self w) = map pure_callback fs ->
  queue_of self w = Some e1 :: Some e2 :: rest ->
  exists w',
    (let* r1 := anext self in
     on_event self (pure_callback f) ;;
     let* r2 := anext self in
     ret (r1, r2)) w
    = (inr (Yield e1, Yield e2), w')
    /\ user w'
       = f e2 (fold_left (fun u h => h e2 u) fs
                         (fold_left (fun u h => h e1 u) fs (user w)))
    /\ queue_of self w' = rest
    /\ _callbacks (stream_at self w') = map pure_callback (fs ++ [f]).
Proof.
  intros Hcb Hq.
  set (w1 := set_user (fold_left (fun u h => h e1 u) fs (user w))
                      (set_queue self (Some e2 :: rest) w)).
  set (w2 := set_callbacks self (map pure_callback (fs ++ [f])) w1).
  assert (Hcb1 : _callbacks (stream_at self w1) = map pure_callback fs).
  { unfold w1. store_simpl. exact Hcb. }
  assert (Hq2 : queue_of self w2 = Some e2 :: rest).
  { unfold w2. rewrite queue_of_set_callbacks. unfold w1. store_simpl. reflexivity. }
  assert (Hcb2 : _callbacks (stream_at self w2) = map pure_callback (fs ++ [f])).
  { unfold w2. apply callbacks_set_callbacks_eq. }
  assert (Hstep1 : anext self w = (inr (Yield e1), w1)).
  { rewrite (anext_event _ _ _ _ Hq), Hcb, run_callbacks_pure. reflexivity. }
  assert (Hstep2 : on_event self (pure_callback f) w1 = (inr tt, w2)).
  { unfold on_event, w2. rewrite Hcb1, map_app. reflexivity. }
  exists (set_user (fold_left (fun u h => h e2 u) (fs ++ [f]) (user w2))
                   (set_queue self rest w2)).
  split; [|split; [|split]].
  - unfold bind at 1. rewrite Hstep1. unfold bind at 1. rewrite Hstep2.
    unfold bind at 1. rewrite (anext_event _ _ _ _ Hq2), Hcb2, run_callbacks_pure.
    reflexivity.
  - cbn [user set_user]. rewrite fold_left_app. reflexivity.
  - store_simpl. reflexivity.
  - store_simpl. exact Hcb2.
Qed.

End StreamNesting.

(** ** The convenience functions *)

Section Helpers.
Implicit Types (d extra : dict) (h : helper).

Lemma dict_keys_app d1 d2 : dict_keys (d1 ++ d2) = dict_keys d1 ++ dict_keys d2.
Proof. unfold dict_keys. apply map_app. Qed.

Lemma dict_update_fresh extra :
  forall d, NoDup (dict_keys d ++ dict_keys extra) -> dict_update d extra = d ++ extra.
Proof.
  unfold dict_update. induction extra as [|[k v] extra IH]; intros d Hnd; simpl.
  - rewrite app_nil_r. reflexivity.
  - assert (Hk : k ∉ dict_keys d).
    { apply NoDup_app in Hnd as (_ & Hdisj & _). intros Hin.
      apply (Hdisj _ Hin). apply list_elem_of_here. }
    rewrite (dict_set_fresh _ _ _ Hk), IH.
    + rewrite <- app_assoc. reflexivity.
    + rewrite dict_keys_app, <- app_assoc. exact Hnd.
Qed.

Lemma set_step_item (step : option Z) d :
  "step" ∉ dict_keys d -> set_step step d = d ++ item_if "step" (option_map VInt step).
Proof.
  intros Hk. unfold set_step. destruct step as [n|]; simpl.
  - apply dict_set_fresh, Hk.
  - rewrite app_nil_r. reflexivity.
Qed.

Lemma set_not_none k (v : value) d :
  k ∉ dict_keys d ->
  match v with VNone => d | _ => dict_set k v d end = d ++ item_if k (not_none v).
Proof.
  intros Hk. destruct v; simpl; rewrite ?app_nil_r; try reflexivity;
    apply dict_set_fresh, Hk.
Qed.

Lemma set_nonempty_str k (m : option string) d :
  k ∉ dict_keys d ->
  match m with
  | Some s => if str_truthy s then dict_set k (VStr s) d else d
  | None => d
  end = d ++ item_if k (nonempty_str m).
Proof.
  intros Hk. destruct m as [[|c s]|]; simpl; rewrite ?app_nil_r; try reflexivity.
  apply dict_set_fresh, Hk.
Qed.

Lemma set_nonempty_dict k (a : option dict) d :
  k ∉ dict_keys d ->
  match a with
  | Some x => if dict_truthy x then dict_set k (VDict x) d else d
  | None => d
  end = d ++ item_if k (nonempty_dict a).
Proof.
  intros Hk. destruct a as [[|kv x]|]; simpl; rewrite ?app_nil_r; try reflexivity.
  apply dict_set_fresh, Hk.
Qed.

Lemma dict_keys_item_if k (v : option value) x :
  x ∈ dict_keys (item_if k v) -> x = k.
Proof.
  destruct v; simpl; intros H.
  - apply elem_of_cons in H as [H|H]; [exact H|]. apply elem_of_nil in H. contradiction.
  - apply elem_of_nil in H. contradiction.
Qed.

End Helpers.

Ltac key_of_list :=
  repeat first [apply list_elem_of_here | apply list_elem_of_further].

Ltac other_key H :=
  repeat (apply elem_of_cons in H as [H|H]; [discriminate H|]);
  apply elem_of_nil in H; exact H.

Ltac fresh_key Hparams :=
  rewrite ?dict_keys_app, ?not_elem_of_app; repeat split;
  first [ apply Hparams; key_of_list
        | let Hc := fresh "Hc" in
          intros Hc; first [ apply dict_keys_item_if in Hc; discriminate Hc
                           | simpl in Hc; other_key Hc ] ].

Ltac fresh_extra Hnd Hparams :=
  apply NoDup_app; split; [|split; [|exact Hnd]];
  [ repeat (apply NoDup_cons; split; [let Hc := fresh "Hc" in intros Hc; other_key Hc|]);
    apply NoDup_nil; exact I
  | let x := fresh "x" in let Hx := fresh "Hx" in
    intros x Hx; simpl in Hx;
    repeat (apply elem_of_cons in Hx as [->|Hx]; [apply Hparams; key_of_list|]);
    apply elem_of_nil in Hx; contradiction ].

Lemma helper_attrs_eq (h : helper) (extra : dict) :
  NoDup (dict_keys extra) ->
  (forall k, k ∈ helper_params h -> k ∉ dict_keys extra) ->
  helper_attrs h extra = leading_items h ++ extra ++ trailing_items h.
Proof.
  intros Hnd Hparams.
  destruct h; unfold helper_attrs, agent_start_attrs, agent_complete_attrs,
    agent_step_attrs, model_request_attrs, model_response_attrs,
    model_response_chunk_attrs, model_reasoning_attrs, tool_call_attrs_of,
    tool_result_attrs_of, tool_error_attrs, flow_step_attrs, flow_reasoning_attrs,
    flow_complete_attrs; cbn [helper_params leading_items trailing_items] in *;
    cbv zeta;
    match goal with
    | |- context [dict_of ?items] =>
        change (dict_of items) with items
    end;
    rewrite (dict_update_fresh extra) by (fresh_extra Hnd Hparams).
  all: rewrite ?app_nil_r; try reflexivity.
  all: repeat first
         [ rewrite set_step_item by (fresh_key Hparams)
         | rewrite set_not_none by (fresh_key Hparams)
         | rewrite set_nonempty_str by (fresh_key Hparams)
         | rewrite set_nonempty_dict by (fresh_key Hparams) ].
  all: rewrite <- ?app_assoc; try reflexivity.
  destruct message_count as [n|]; cbn [option_map item_if];
    [rewrite dict_set_fresh by (fresh_key Hparams)|];
    rewrite ?app_nil_r, <- ?app_assoc; reflexivity.
Qed.

Lemma dict_get_app k (d1 d2 : dict) :
  dict_get k (d1 ++ d2)
  = match dict_get k d1 with
    | Some v => Some v
    | None => dict_get k d2
    end.
Proof.
  induction d1 as [|[k' x] d1 IH]; simpl; [reflexivity|].
  destruct (String.eqb k k'); [reflexivity|exact IH].
Qed.

Lemma leading_keys_params (h : helper) k :
  k ∈ dict_keys (leading_items h) -> k ∈ helper_params h.
Proof.
  destruct h; simpl; intros H;
    repeat (apply elem_of_cons in H as [->|H]; [key_of_list|]);
    apply elem_of_nil in H; contradiction.
Qed.

(** X15: the mapping a convenience function hands to [add_event].  With
    keyword arguments [extra] (none of them named like a parameter of the
    function, as the call binds those to the parameters), the mapping holds
    the items of the function's dict display, then the keyword arguments in
    their order, then the items the function sets under a condition:
    [response] and [result] unless [None], [step] and [message_count]
    unless [None], [model] and [arguments] unless [None] or empty.  No key
    stands twice in it, and every keyword argument is found in it with the
    value it was passed. *)
Theorem helper_attrs_layout (h : helper) (extra : dict) :
  NoDup (dict_keys extra) ->
  (forall k, k ∈ helper_params h -> k ∉ dict_keys extra) ->
  helper_attrs h extra = leading_items h ++ extra ++ trailing_items h
  /\ NoDup (dict_keys (helper_attrs h extra))
  /\ forall k v, dict_get k extra = Some v -> dict_get k (helper_attrs h extra) = Some v.
Proof.
  intros Hnd Hparams. split; [apply helper_attrs_eq; assumption|]. split.
  - destruct h; unfold helper_attrs, agent_start_attrs, agent_complete_attrs,
      agent_step_attrs, model_request_attrs, model_response_attrs,
      model_response_chunk_attrs, model_reasoning_attrs, tool_call_attrs_of,
      tool_result_attrs_of, tool_error_attrs, flow_step_attrs, flow_reasoning_attrs,
      flow_complete_attrs, set_step, dict_of; cbv zeta;
      repeat match goal with
             | |- context [match ?x with _ => _ end] => destruct x
             end;
      repeat first [apply NoDup_keys_set | apply NoDup_keys_update];
      apply NoDup_nil; exact I.
  - intros k v Hget. rewrite (helper_attrs_eq h extra Hnd Hparams), !dict_get_app, Hget.
    destruct (dict_get k (leading_items h)) as [x|] eqn:Hlead; [|reflexivity].
    exfalso. apply (Hparams k).
    + apply leading_keys_params. exact (dict_get_Some_key _ _ _ Hlead).
    + exact (dict_get_Some_key _ _ _ Hget).
Qed.

(** X16: the event types are pairwise different strings, each starting
    with [gen_ai.]; every convenience function names one of them, no two
    functions the same one, and none names [AGENT_ERROR],
    [MODEL_REASONING_CHUNK] or a [MODULE_] type. *)
Theorem event_types_distinct :
  NoDup EventType.names
  /\ (forall n, n ∈ EventType.names -> startswith "gen_ai." n = true)
  /\ (forall h, helper_event h ∈ EventType.names /\ helper_event h ∉ unused_event_types)
  /\ (forall h h', helper_event h = helper_event h' -> helper_index h = helper_index h').
Proof.
  split; [|split; [|split]].
  - apply (bool_decide_unpack _). vm_compute. reflexivity.
  - apply Forall_forall. apply (bool_decide_unpack _). vm_compute. reflexivity.
  - intros h. split.
    + destruct h; apply (bool_decide_unpack _); vm_compute; reflexivity.
    + destruct h; apply (bool_decide_unpack _); vm_compute; reflexivity.
  - intros h h' H. destruct h, h'; try reflexivity; discriminate H.
Qed.

Section HelperCalls.
Context {U : Type}.
Implicit Types (w : World U) (h : helper) (extra : dict).

Lemma call_helper_add_event h extra :
  call_helper (U:=U) h extra = add_event (helper_event h) (Some (helper_attrs h extra)).
Proof. destruct h; reflexivity. Qed.

Lemma serializable_app (d1 d2 : dict) :
  serializable (d1 ++ d2) = serializable d1 && serializable d2.
Proof. unfold serializable. apply forallb_app. Qed.

Lemma serializable_Forall (d : dict) :
  serializable d = true <-> Forall (fun kv => encodable (snd kv) = true) d.
Proof.
  unfold serializable. induction d as [|kv d IH]; simpl.
  - split; [constructor|reflexivity].
  - rewrite andb_true_iff, IH, Forall_cons. reflexivity.
Qed.

Lemma serializable_leading h : serializable (leading_items h) = true.
Proof. destruct h; reflexivity. Qed.

Lemma serializable_trailing h :
  serializable (trailing_items h) = forallb encodable (helper_payload h).
Proof.
  destruct h as [| n r | | m c | | | r s | n i a s | n i r s | n i e s | | r s | s];
    try reflexivity.
  - destruct r; reflexivity.
  - destruct m as [[|? ?]|], c; reflexivity.
  - destruct s; reflexivity.
  - destruct a as [[|kv a]|], s; reflexivity.
  - destruct r, s; reflexivity.
  - destruct s; reflexivity.
  - destruct s; reflexivity.
  - destruct s; reflexivity.
Qed.

Lemma serializable_helper_attrs h extra :
  NoDup (dict_keys extra) ->
  (forall k, k ∈ helper_params h -> k ∉ dict_keys extra) ->
  serializable (helper_attrs h extra)
  = serializable extra && forallb encodable (helper_payload h).
Proof.
  intros Hnd Hparams. rewrite (helper_attrs_eq h extra Hnd Hparams).
  rewrite !serializable_app, serializable_leading, serializable_trailing. reflexivity.
Qed.

(** X17: a convenience function raises exactly when a keyword argument,
    or its own [response], [result] or [arguments], holds a dict or a list
    that [json.dumps] cannot encode.  Otherwise it returns, having emitted
    one event of its type with the mapping it built; when it raises, the
    span and the queues are as before. *)
Theorem helper_raises_iff_unencodable h extra (w : World U) :
  NoDup (dict_keys extra) ->
  (forall k, k ∈ helper_params h -> k ∉ dict_keys extra) ->
  if serializable extra && forallb encodable (helper_payload h)
  then call_helper h extra w
       = (inr tt, emitted (helper_event h) (helper_attrs h extra) w)
  else exists e w',
         call_helper h extra w = (inl e, w')
         /\ current_span w' = current_span w
         /\ streams w' = streams w
         /\ _event_queue w' = _event_queue w.
Proof.
  intros Hnd Hparams. rewrite call_helper_add_event.
  rewrite <- (serializable_helper_attrs h extra Hnd Hparams).
  destruct (serializable (helper_attrs h extra)) eqn:Hok.
  - apply (add_event_spec _ (Some (helper_attrs h extra))), Hok.
  - destruct (add_event_raises (helper_event h) (Some (helper_attrs h extra)) w Hok)
      as (e & vs & H).
    eexists e, _. split; [exact H|]. auto.
Qed.

Lemma NoDup_tool_call_attrs tn tid a step extra :
  NoDup (dict_keys (tool_call_attrs_of tn tid a step extra)).
Proof.
  unfold tool_call_attrs_of, set_step, dict_of.
  destruct step, a as [[|? ?]|]; cbn [dict_truthy];
    repeat apply NoDup_keys_set; apply NoDup_keys_update;
    apply NoDup_keys_update; apply NoDup_nil; exact I.
Qed.

Lemma tool_call_attrs_get tn tid a step extra :
  dict_truthy a = true ->
  (forall k, k ∈ ["tool_name"; "tool_id"; "arguments"; "step"] -> k ∉ dict_keys extra) ->
  let attrs := tool_call_attrs_of tn tid (Some a) step extra in
  dict_get "tool_name" attrs = Some (VStr tn)
  /\ dict_get "tool_id" attrs = Some (VStr tid)
  /\ dict_get "arguments" attrs = Some (VDict a)
  /\ dict_get "step" attrs = option_map VInt step.
Proof.
  intros Ha Hparams attrs. unfold attrs, tool_call_attrs_of. rewrite Ha.
  set (base := dict_update _ extra).
  assert (Hbase : forall k, k ∈ ["tool_name"; "tool_id"; "arguments"; "step"] ->
                            dict_get k base
                            = dict_get k [("tool_name", VStr tn); ("tool_id", VStr tid)]).
  { intros k Hk. unfold base. rewrite dict_get_update_notin by (apply Hparams, Hk).
    reflexivity. }
  unfold set_step. destruct step as [n|]; cbn [option_map].
  - repeat split;
      repeat first [ rewrite dict_get_set_eq
                   | rewrite dict_get_set_ne by discriminate
                   | rewrite Hbase by key_of_list ];
      reflexivity.
  - repeat split;
      repeat first [ rewrite dict_get_set_eq
                   | rewrite dict_get_set_ne by discriminate
                   | rewrite Hbase by key_of_list ];
      reflexivity.
Qed.

(** X18: a tool call under a recording span and with a stream active.
    [add_tool_call_event] with arguments that are not empty and that
    [json.dumps] encodes returns; the span has one more event of type
    [TOOL_CALL] in which [arguments] is the JSON text, the queue one more
    event of that type in which [arguments] is the dict itself; both carry
    the tool's name and identifier, and the queued event the step. *)
Theorem tool_call_reaches_span_and_stream tn tid (a : dict) (step : option Z)
        extra text q (w : World U) :
  dict_truthy a = true ->
  Json.dumps (VDict a) = inr text ->
  serializable extra = true ->
  (forall k, k ∈ ["tool_name"; "tool_id"; "arguments"; "step"] -> k ∉ dict_keys extra) ->
  sp_is_recording (current_span w) = true ->
  _event_queue w = Some q ->
  exists w' handed e,
    add_tool_call_event tn tid (Some a) step extra w = (inr tt, w')
    /\ sp_events (current_span w')
       = sp_events (current_span w) ++ [(EventType.TOOL_CALL, handed)]
    /\ dict_get "tool_name" handed = Some (VStr tn)
    /\ dict_get "tool_id" handed = Some (VStr tid)
    /\ dict_get "arguments" handed = Some (VStr text)
    /\ queue_of q w' = queue_of q w ++ [Some e]
    /\ se_name e = EventType.TOOL_CALL
    /\ dict_get "tool_name" (se_attributes e) = Some (VStr tn)
    /\ dict_get "tool_id" (se_attributes e) = Some (VStr tid)
    /\ dict_get "arguments" (se_attributes e) = Some (VDict a)
    /\ dict_get "step" (se_attributes e) = option_map VInt step.
Proof.
  intros Ha Htext Hextra Hparams Hrec Hq.
  set (attrs := tool_call_attrs_of tn tid (Some a) step extra).
  destruct (tool_call_attrs_get tn tid a step extra Ha Hparams)
    as (Hn & Hi & Harg & Hstep). fold attrs in Hn, Hi, Harg, Hstep.
  assert (Hok : serializable attrs = true).
  { apply serializable_Forall. unfold attrs, tool_call_attrs_of. rewrite Ha.
    assert (Hbase : Forall (fun kv => encodable (snd kv) = true)
                           (dict_update (dict_of [("tool_name", VStr tn);
                                                  ("tool_id", VStr tid)]) extra)).
    { apply (Forall_values_update (fun v => encodable v = true)).
      - apply serializable_Forall, Hextra.
      - repeat constructor. }
    assert (Harg' : encodable (VDict a) = true).
    { unfold encodable. rewrite Htext. reflexivity. }
    unfold set_step. destruct step;
      repeat (apply (Forall_values_set (fun v => encodable v = true)));
      auto. }
  exists (emitted EventType.TOOL_CALL attrs w), (serialized_attrs_of attrs),
    (event_of (current_span w) (clock w (ticks w)) EventType.TOOL_CALL attrs).
  split; [apply (add_event_spec _ (Some attrs)), Hok|].
  rewrite span_events_emitted, Hrec, (queue_of_emitted _ _ _ _ Hq).
  rewrite (serialized_attrs_of_map attrs) by apply NoDup_tool_call_attrs.
  rewrite !dict_get_map_persisted, Hn, Hi, Harg.
  cbn [se_name se_attributes event_of].
  repeat (split; [reflexivity || assumption|]).
  split.
  - unfold persisted, json_text. cbn [option_map is_dict_or_list]. rewrite Htext. reflexivity.
  - repeat (split; [reflexivity || assumption|]). exact Hstep.
Qed.

End HelperCalls.

(** ** The further statements at sample inputs *)

Lemma tool_call_emitted :
  add_event "gen_ai.tool.call" (Some tool_call_attrs) listening_world
  = (inr tt, emitted "gen_ai.tool.call" tool_call_attrs listening_world).
Proof. apply add_event_spec. vm_compute. reflexivity. Defined.

Lemma failed_emit_emits_nothing_witness :
  serializable (or_empty (Some set_attrs)) = false
  /\ exists e w',
       add_event "test.event" (Some set_attrs) listening_world = (inl e, w')
       /\ current_span w' = current_span listening_world
       /\ streams w' = streams listening_world.
Proof.
  split; [vm_compute; reflexivity|].
  destruct (failed_emit_emits_nothing "test.event" (Some set_attrs) listening_world
              ltac:(vm_compute; reflexivity))
    as (e & w' & H & Hsp & Hst & _).
  exists e, w'. split; [exact H|]. split; [exact Hsp|exact Hst].
Defined.

Lemma add_event_frame_witness :
  exists w',
    add_event "gen_ai.tool.call" (Some tool_call_attrs) listening_world = (inr tt, w')
    /\ _event_queue w' = _event_queue listening_world
    /\ _token (stream_at 0 w') = _token (stream_at 0 listening_world).
Proof.
  eexists. split; [exact tool_call_emitted|].
  destruct (add_event_frame _ _ _ _ _ tool_call_emitted) as (Hslot & _ & _ & _ & _ & _ & Hq).
  split; [exact Hslot|]. exact (proj1 (Hq 0)).
Defined.

Lemma add_event_writes_once_witness :
  exists w',
    add_event "gen_ai.tool.call" (Some tool_call_attrs) listening_world = (inr tt, w')
    /\ length (sp_events (current_span w')) = 1
    /\ length (queue_of 0 w') = 1
    /\ length (queue_of 1 w') = 0.
Proof.
  eexists. split; [exact tool_call_emitted|].
  destruct (add_event_writes_once _ _ _ _ tool_call_emitted) as (_ & Hsp & Hq & _).
  split; [exact Hsp|]. split; [exact (Hq 0)|exact (Hq 1)].
Defined.

Lemma span_receives_flat_attributes_witness :
  sp_is_recording (current_span listening_world) = true
  /\ exists w' handed,
       add_event "gen_ai.tool.call" (Some tool_call_attrs) listening_world = (inr tt, w')
       /\ sp_events (current_span w') = [("gen_ai.tool.call", handed)]
       /\ NoDup (dict_keys handed).
Proof.
  split; [reflexivity|].
  destruct (span_receives_flat_attributes _ _ _ _ tool_call_emitted eq_refl)
    as (handed & Hev & Hnd & _).
  eexists _, handed. split; [exact tool_call_emitted|]. split; [exact Hev|exact Hnd].
Defined.

Lemma sample_clock_monotone : monotone sample_clock.
Proof. intros i j Hij. unfold sample_clock. lia. Defined.

Lemma timestamps_follow_clock_witness :
  all_serializable tool_calls = true
  /\ _event_queue listening_world = Some 0
  /\ monotone (clock listening_world)
  /\ exists evs w',
       emits tool_calls listening_world = (inr tt, w')
       /\ queue_of 0 w' = queue_of 0 listening_world ++ map Some evs
       /\ length evs = 2
       /\ forall e1 e2, evs !! 0 = Some e1 -> evs !! 1 = Some e2 ->
                        (se_timestamp_ns e1 <= se_timestamp_ns e2)%Z.
Proof.
  split; [vm_compute; reflexivity|]. split; [reflexivity|].
  split; [exact sample_clock_monotone|].
  destruct (timestamps_follow_clock tool_calls listening_world 0
              ltac:(vm_compute; reflexivity) eq_refl)
    as (evs & w' & Hrun & Hq & Hlen & _ & Hord).
  exists evs, w'. split; [exact Hrun|]. split; [exact Hq|]. split; [exact Hlen|].
  intros e1 e2 H1 H2. apply (Hord sample_clock_monotone 0 1 e1 e2); [lia|exact H1|exact H2].
Defined.

Lemma plain_body (e : StreamEvent) (w : World unit) :
  ret tt w = (inr tt, set_user ((fun _ u => u) e (user w)) w).
Proof. destruct w. reflexivity. Defined.

Lemma drain_waits_without_sentinel_witness :
  _callbacks (stream_at 0 unclosed_world) = map pure_callback []
  /\ queue_of 0 unclosed_world = map Some [named_event "a"; named_event "b"]
  /\ exists w',
       drain 3 0 unclosed_world = (inr ([named_event "a"; named_event "b"], Waiting), w')
       /\ queue_of 0 w' = [].
Proof.
  split; [reflexivity|]. split; [reflexivity|].
  destruct (drain_waits_without_sentinel 0 [] (fun _ u => u) (fun _ => ret tt)
              [named_event "a"; named_event "b"] 3 unclosed_world
              plain_body eq_refl eq_refl ltac:(simpl; lia))
    as (w' & Hrun & Hq & _).
  exists w'. split; [exact Hrun|exact Hq].
Defined.

Lemma sentinel_ends_one_drain_witness :
  queue_of 0 twice_closed_world
  = map Some [named_event "a"] ++ None :: map Some [named_event "b"] ++ None :: []
  /\ exists w1 w2,
       drain 2 0 twice_closed_world = (inr ([named_event "a"], Exhausted), w1)
       /\ drain 2 0 w1 = (inr ([named_event "b"], Exhausted), w2)
       /\ queue_of 0 w2 = [].
Proof.
  split; [reflexivity|].
  destruct (sentinel_ends_one_drain 0 [] (fun _ u => u) (fun _ => ret tt)
              [named_event "a"] [named_event "b"] [] 2 2 twice_closed_world
              plain_body eq_refl eq_refl ltac:(simpl; lia) ltac:(simpl; lia))
    as (w1 & w2 & H1 & H2 & Hq & _).
  exists w1, w2. split; [exact H1|]. split; [exact H2|exact Hq].
Defined.

Lemma emit_after_close_stays_queued_witness :
  _event_queue closed_listening_world = Some 0
  /\ queue_of 0 closed_listening_world = map Some [named_event "a"] ++ [None]
  /\ serializable (or_empty (Some tool_call_attrs)) = true
  /\ exists w1 w2 late,
       add_event "gen_ai.tool.call" (Some tool_call_attrs) closed_listening_world
       = (inr tt, w1)
       /\ drain 2 0 w1 = (inr ([named_event "a"], Exhausted), w2)
       /\ fst (events 0 w2) = inr [late]
       /\ se_name late = "gen_ai.tool.call".
Proof.
  split; [reflexivity|]. split; [reflexivity|]. split; [vm_compute; reflexivity|].
  destruct (emit_after_close_stays_queued "gen_ai.tool.call" (Some tool_call_attrs) []
              [named_event "a"] 0 closed_listening_world
              eq_refl eq_refl eq_refl ltac:(vm_compute; reflexivity))
    as (w1 & w2 & w3 & H1 & H2 & _ & H3 & _).
  exists w1, w2. eexists. split; [exact H1|]. split; [exact H2|].
  rewrite H3. split; reflexivity.
Defined.

Lemma snapshot_returns_emitted_witness :
  _event_queue listening_world = Some 0
  /\ all_serializable tool_calls = true
  /\ exists evs w1 w2,
       emits tool_calls listening_world = (inr tt, w1)
       /\ events 0 w1 = (inr evs, w2)
       /\ map se_name evs = ["gen_ai.tool.call"; "gen_ai.tool.result"]
       /\ map se_attributes evs = [tool_call_attrs; tool_result_attrs].
Proof.
  split; [reflexivity|]. split; [vm_compute; reflexivity|].
  destruct (snapshot_returns_emitted tool_calls 0 listening_world eq_refl
              ltac:(vm_compute; reflexivity))
    as (evs & w1 & w2 & H1 & H2 & Hn & Ha & _).
  exists evs, w1, w2. split; [exact H1|]. split; [exact H2|]. split; [exact Hn|exact Ha].
Defined.

Lemma exit_before_enter_witness :
  _token (stream_at 0 listening_world) <> None
  /\ _token (stream_at 1 listening_world) = None
  /\ __exit__ 1 None listening_world = (inr tt, listening_world)
  /\ exists w', __aexit__ 1 None listening_world = (inr tt, w')
                /\ _event_queue w' = Some 0
                /\ queue_of 1 w' = [None].
Proof.
  split; [discriminate|]. split; [reflexivity|].
  destruct (exit_before_enter 1 None listening_world eq_refl)
    as (Hexit & w' & Ha & Hslot & Hq & _).
  split; [exact Hexit|]. exists w'. split; [exact Ha|]. split; [exact Hslot|exact Hq].
Defined.

Lemma exits_out_of_order_leave_outer_active_witness :
  0 <> 1
  /\ _event_queue quiet_world = None
  /\ exists w',
       (__enter__ 0 ;; __enter__ 1 ;; __exit__ 0 None ;; __exit__ 1 None) quiet_world
       = (inr tt, w')
       /\ _event_queue w' = Some 0.
Proof.
  split; [lia|]. split; [reflexivity|].
  destruct (exits_out_of_order_leave_outer_active 0 1 None None quiet_world ltac:(lia))
    as (w' & Hrun & Hslot & _).
  exists w'. split; [exact Hrun|exact Hslot].
Defined.

Lemma callback_registered_mid_drain_witness :
  _callbacks (stream_at 0 unclosed_world) = map pure_callback []
  /\ queue_of 0 unclosed_world = Some (named_event "a") :: Some (named_event "b") :: []
  /\ exists w',
       (let* r1 := anext 0 in
        on_event 0 (pure_callback (fun _ u => u)) ;;
        let* r2 := anext 0 in
        ret (r1, r2)) unclosed_world
       = (inr (Yield (named_event "a"), Yield (named_event "b")), w')
       /\ queue_of 0 w' = [].
Proof.
  split; [reflexivity|]. split; [reflexivity|].
  destruct (callback_registered_mid_drain 0 [] (fun _ u => u) (named_event "a")
              (named_event "b") [] unclosed_world eq_refl eq_refl)
    as (w' & Hrun & _ & Hq & _).
  exists w'. split; [exact Hrun|exact Hq].
Defined.

Lemma latency_extra_keys : NoDup (dict_keys latency_extra).
Proof. apply (bool_decide_unpack _). vm_compute. reflexivity. Defined.

Lemma latency_extra_no_param (h : helper) :
  forall k, k ∈ helper_params h -> k ∉ dict_keys latency_extra.
Proof.
  apply Forall_forall. destruct h; apply (bool_decide_unpack _); vm_compute; reflexivity.
Defined.

Lemma helper_attrs_layout_witness :
  NoDup (dict_keys latency_extra)
  /\ helper_attrs search_call latency_extra
     = [("tool_name", VStr "search"); ("tool_id", VStr "id1"); ("latency_ms", VInt 12);
        ("arguments", VDict [("query", VStr "weather")]); ("step", VInt 1)].
Proof.
  split; [exact latency_extra_keys|].
  exact (proj1 (helper_attrs_layout search_call latency_extra latency_extra_keys
                  (latency_extra_no_param search_call))).
Defined.

Lemma event_types_distinct_witness :
  EventType.TOOL_CALL ∈ EventType.names
  /\ startswith "gen_ai." EventType.TOOL_CALL = true
  /\ helper_event search_call = helper_event unencodable_call
  /\ helper_index search_call = helper_index unencodable_call.
Proof.
  destruct event_types_distinct as (_ & Hpre & Hin & Hinj).
  split; [exact (proj1 (Hin search_call))|].
  split; [exact (Hpre _ (proj1 (Hin search_call)))|].
  split; [reflexivity|]. exact (Hinj search_call unencodable_call eq_refl).
Defined.

Lemma helper_raises_iff_unencodable_witness :
  NoDup (dict_keys latency_extra)
  /\ serializable latency_extra && forallb encodable (helper_payload unencodable_call) = false
  /\ (exists e w', call_helper unencodable_call latency_extra listening_world = (inl e, w')
                   /\ streams w' = streams listening_world)
  /\ exists w', call_helper search_call latency_extra listening_world = (inr tt, w').
Proof.
  split; [exact latency_extra_keys|]. split; [vm_compute; reflexivity|]. split.
  - pose proof (helper_raises_iff_unencodable unencodable_call latency_extra listening_world
                  latency_extra_keys (latency_extra_no_param unencodable_call)) as H.
    assert (Hc : serializable latency_extra
                 && forallb encodable (helper_payload unencodable_call) = false)
      by (vm_compute; reflexivity).
    rewrite Hc in H. destruct H as (e & w' & H & _ & Hst & _).
    exists e, w'. split; [exact H|exact Hst].
  - pose proof (helper_raises_iff_unencodable search_call latency_extra listening_world
                  latency_extra_keys (latency_extra_no_param search_call)) as H.
    assert (Hc : serializable latency_extra
                 && forallb encodable (helper_payload search_call) = true)
      by (vm_compute; reflexivity).
    rewrite Hc in H. eexists. exact H.
Defined.

Lemma tool_call_reaches_span_and_stream_witness :
  dict_truthy [("query", VStr "weather")] = true
  /\ Json.dumps (VDict [("query", VStr "weather")])
     = inr (json_text (VDict [("query", VStr "weather")]))
  /\ sp_is_recording (current_span listening_world) = true
  /\ _event_queue listening_world = Some 0
  /\ exists w' handed e,
       add_tool_call_event "search" "id1" (Some [("query", VStr "weather")]) (Some 1%Z)
                           latency_extra listening_world = (inr tt, w')
       /\ sp_events (current_span w') = [("gen_ai.tool.call", handed)]
       /\ dict_get "arguments" handed
          = Some (VStr (json_text (VDict [("query", VStr "weather")])))
       /\ queue_of 0 w' = [Some e]
       /\ dict_get "arguments" (se_attributes e) = Some (VDict [("query", VStr "weather")]).
Proof.
  split; [reflexivity|]. split; [vm_compute; reflexivity|].
  split; [reflexivity|]. split; [reflexivity|].
  destruct (tool_call_reaches_span_and_stream (U:=unit) "search" "id1"
              [("query", VStr "weather")] (Some 1%Z) latency_extra
              (json_text (VDict [("query", VStr "weather")])) 0 listening_world
              eq_refl ltac:(vm_compute; reflexivity) ltac:(vm_compute; reflexivity)
              (latency_extra_no_param search_call) eq_refl eq_refl)
    as (w' & handed & e & Hrun & Hsp & _ & _ & Harg & Hq & _ & _ & _ & Harg' & _).
  exists w', handed, e. split; [exact Hrun|]. split; [exact Hsp|].
  split; [exact Harg|]. split; [exact Hq|exact Harg'].
Defined.
